(** * The ADV filing pipeline: field extraction and the storage sink

    A shallow embedding of [pipeline/transform/pdf_transformer.py] and
    [pipeline/sink/database_sink.py], with the properties the design
    document states about them.

    Layout of the file:
    - [PyStr]: Python strings and the string methods the code calls;
    - [Re]: the fragment of Python's [re] the pattern tables are written in;
    - [PyDict], [Fitz]: dictionaries, and the page handles of the PDF
      backend;
    - [PdfTransformer]: the field extractor and the record assembler;
    - [Sqlite]: rows, tables, constraints and transactions;
    - [DatabaseSink]: the write path and the per-entity fetchers;
    - [SinkFacts]: one entity's write as a sequence of statements, and the
      content it leaves;
    - the claims about the sink, then those about the extractor, each
      with its examples;
    - [Binary64]: the check-box test in numpy's arithmetic. *)

From Stdlib Require Import List Ascii String ZArith Lia Bool Arith PeanoNat.
From Stdlib Require Import QArith Permutation.
From Stdlib Require Floats.PrimFloat Numbers.Cyclic.Int63.Uint63.
Import ListNotations.
Close Scope Q_scope.

Set Implicit Arguments.

(** ** Python strings *)

Module PyStr.

(** A Python [str] is a sequence of code points; the model keeps the code
    points below 256, which is the range [ascii] has. *)
Definition str := list ascii.

Definition py (s : string) : str := list_ascii_of_string s.

Definition code (c : ascii) : nat := nat_of_ascii c.

Definition nl : ascii := ascii_of_nat 10.

(** [str.isspace] on one code point: TAB..CR, FS..US, SPACE, NEL, NBSP. *)
Definition is_space (c : ascii) : bool :=
  let n := code c in
  ((9 <=? n) && (n <=? 13)) || ((28 <=? n) && (n <=? 32))
  || (n =? 133) || (n =? 160).

(** Decimal digits; below 256 these are ['0'..'9'] only. *)
Definition is_digit (c : ascii) : bool :=
  let n := code c in (48 <=? n) && (n <=? 57).

Definition digit_val (c : ascii) : Z := Z.of_nat (code c - 48).

Definition is_upper (c : ascii) : bool :=
  let n := code c in (65 <=? n) && (n <=? 90).

(** Case folding of one code point.  The patterns of this program are
    ASCII, and below 256 an ASCII letter folds only to its ASCII partner. *)
Definition lower (c : ascii) : ascii :=
  if is_upper c then ascii_of_nat (code c + 32) else c.

Fixpoint str_eqb (a b : str) : bool :=
  match a, b with
  | [], [] => true
  | x :: a', y :: b' => Ascii.eqb x y && str_eqb a' b'
  | _, _ => false
  end.

(** [s.lstrip()], [s.rstrip()], [s.strip()] *)
Fixpoint lstrip (s : str) : str :=
  match s with
  | c :: t => if is_space c then lstrip t else s
  | [] => []
  end.

Definition rstrip (s : str) : str := rev (lstrip (rev s)).

Definition strip (s : str) : str := rstrip (lstrip s).

(** [a.startswith(p)], returning what follows the prefix *)
Fixpoint drop_prefix (p s : str) : option str :=
  match p, s with
  | [], _ => Some s
  | x :: p', y :: s' => if Ascii.eqb x y then drop_prefix p' s' else None
  | _ :: _, [] => None
  end.

(** [sub in s] *)
Fixpoint contains (sub s : str) : bool :=
  match drop_prefix sub s with
  | Some _ => true
  | None => match s with
            | [] => false
            | _ :: t => contains sub t
            end
  end.

(** [s.split(sep)[0]] for a non-empty [sep]: the text before the first
    occurrence of [sep], all of [s] when there is none. *)
Fixpoint before (sep s : str) : str :=
  match drop_prefix sep s with
  | Some _ => []
  | None => match s with
            | [] => []
            | c :: t => c :: before sep t
            end
  end.

(** [s.split(c)] for a one-character separator *)
Fixpoint split_chr (c : ascii) (s : str) : list str :=
  match s with
  | [] => [[]]
  | x :: t =>
      if Ascii.eqb x c then [] :: split_chr c t
      else match split_chr c t with
           | w :: ws => (x :: w) :: ws
           | [] => [[x]]
           end
  end.

(** [s.replace(c, '')] for a one-character [c] *)
Definition remove_chr (c : ascii) (s : str) : str :=
  filter (fun x => negb (Ascii.eqb x c)) s.

(** [sep.join(parts)] *)
Fixpoint join (sep : str) (parts : list str) : str :=
  match parts with
  | [] => []
  | [p] => p
  | p :: ps => p ++ sep ++ join sep ps
  end.

(** Truth value of a string: [bool(s)] *)
Definition truthy (s : str) : bool :=
  match s with [] => false | _ :: _ => true end.

(** *** [int(s)]

    Surrounding white space is dropped, one sign is allowed, then decimal
    digits, single underscores allowed between digits.  CPython refuses
    strings of more than [int_max_str_digits] digits with [ValueError].
    [None] stands for [ValueError]. *)
Definition int_max_str_digits : nat := 4300.

Fixpoint parse_digits (s : str) (acc : Z) (cnt : nat) (after_us : bool)
  : option (Z * nat) :=
  match s with
  | [] => if after_us then None else Some (acc, cnt)
  | c :: t =>
      if is_digit c then parse_digits t (10 * acc + digit_val c) (S cnt) false
      else if Ascii.eqb c "_" && negb after_us && (0 <? cnt)
           then parse_digits t acc cnt true
           else None
  end.

Definition py_int (s : str) : option Z :=
  let t := strip s in
  let '(neg, body) :=
    match t with
    | c :: b => if Ascii.eqb c "-" then (true, b)
                else if Ascii.eqb c "+" then (false, b)
                else (false, t)
    | [] => (false, t)
    end in
  match body with
  | [] => None
  | _ :: _ =>
      match parse_digits body 0 0 false with
      | Some (v, cnt) =>
          if int_max_str_digits <? cnt then None
          else Some (if neg then (- v)%Z else v)
      | None => None
      end
  end.

End PyStr.

Export PyStr.
Coercion PyStr.py : string >-> PyStr.str.

Open Scope string_scope.
Open Scope list_scope.

(** ** The fragment of [re] used by the pattern tables

    Every repetition in the program's patterns is over a single character
    class, so repetition is kept at that: [Rep cs lo greedy] is [cs*],
    [cs+], [cs*?] or [cs+?].  Matching is the backtracking search of
    Python's engine: alternatives left to right, greedy repetitions longest
    first, lazy ones shortest first, the leftmost start wins. *)

Module Re.

Record flags := { ignorecase : bool; dotall : bool }.

Definition NOFLAG := {| ignorecase := false; dotall := false |}.
Definition IGNORECASE := {| ignorecase := true; dotall := false |}.
Definition DOTALL := {| ignorecase := false; dotall := true |}.
Definition IGNORECASE_DOTALL := {| ignorecase := true; dotall := true |}.

(** An item of a bracketed class: one character, or [\d]. *)
Inductive citem := IChr (c : ascii) | IDigit.

Inductive charset :=
| CAny                          (* .  *)
| CSpace                        (* \s *)
| CDigit                        (* \d *)
| CNotDigit                     (* \D *)
| CIn (items : list citem)      (* [...]  *)
| CNotIn (items : list citem).  (* [^...] *)

Inductive regex :=
| Lit (s : str)                               (* literal text *)
| Rep (cs : charset) (lo : nat) (greedy : bool)
| Cat (r1 r2 : regex)
| Alt (r1 r2 : regex)                         (* r1|r2 *)
| Grp (n : nat) (r : regex)                   (* capturing group number n *)
| Ahead (r : regex)                           (* (?=r) *)
| Dollar                                      (* $ *)
| EndZ.                                       (* \Z *)

Fixpoint seq (rs : list regex) : regex :=
  match rs with
  | [] => Lit []
  | [r] => r
  | r :: rs' => Cat r (seq rs')
  end.

Definition star (cs : charset) := Rep cs 0 true.      (* cs*  *)
Definition plus (cs : charset) := Rep cs 1 true.      (* cs+  *)
Definition star_lazy (cs : charset) := Rep cs 0 false. (* cs*? *)
Definition plus_lazy (cs : charset) := Rep cs 1 false. (* cs+? *)

Definition chr_eq (fl : flags) (a c : ascii) : bool :=
  if ignorecase fl then Ascii.eqb (lower a) (lower c) else Ascii.eqb a c.

Definition item_mem (fl : flags) (c : ascii) (i : citem) : bool :=
  match i with
  | IChr a => chr_eq fl a c
  | IDigit => is_digit c
  end.

Definition cs_mem (fl : flags) (cs : charset) (c : ascii) : bool :=
  match cs with
  | CAny => dotall fl || negb (Ascii.eqb c nl)
  | CSpace => is_space c
  | CDigit => is_digit c
  | CNotDigit => negb (is_digit c)
  | CIn items => existsb (item_mem fl c) items
  | CNotIn items => negb (existsb (item_mem fl c) items)
  end.

(** Consume the literal [l] at the head of [s]. *)
Fixpoint eat (fl : flags) (l s : str) : option str :=
  match l, s with
  | [], _ => Some s
  | a :: l', c :: s' => if chr_eq fl a c then eat fl l' s' else None
  | _ :: _, [] => None
  end.

(** Captured groups, the latest binding of a number first. *)
Definition caps := list (nat * str).

Fixpoint group_opt (n : nat) (c : caps) : option str :=
  match c with
  | [] => None
  | (i, s) :: c' => if Nat.eqb i n then Some s else group_opt n c'
  end.

(** [match.group(n)].  A group that took no part in the match is [None]
    in Python; the groups of this program's patterns all lie on the
    mandatory path, and [re.findall] gives the empty string for it. *)
Definition group (n : nat) (c : caps) : str :=
  match group_opt n c with Some s => s | None => [] end.

Section Matcher.
Variable fl : flags.

(** What a continuation returns: the rest of the input after the match
    and the groups. *)
Definition outcome := option (str * caps).

Definition or_else (a : outcome) (b : unit -> outcome) : outcome :=
  match a with Some x => Some x | None => b tt end.

Fixpoint rep_greedy (ok : ascii -> bool) (lo : nat) (s : str)
         (k : str -> outcome) : outcome :=
  match s with
  | c :: t =>
      if ok c
      then or_else (rep_greedy ok (pred lo) t k)
                   (fun _ => if Nat.eqb lo 0 then k s else None)
      else if Nat.eqb lo 0 then k s else None
  | [] => if Nat.eqb lo 0 then k s else None
  end.

Fixpoint rep_lazy (ok : ascii -> bool) (lo : nat) (s : str)
         (k : str -> outcome) : outcome :=
  match s with
  | c :: t =>
      if Nat.eqb lo 0
      then or_else (k s)
                   (fun _ => if ok c then rep_lazy ok 0 t k else None)
      else if ok c then rep_lazy ok (pred lo) t k else None
  | [] => if Nat.eqb lo 0 then k s else None
  end.

Fixpoint run (r : regex) (s : str) (c : caps)
         (k : str -> caps -> outcome) : outcome :=
  match r with
  | Lit l => match eat fl l s with
             | Some s' => k s' c
             | None => None
             end
  | Rep cs lo true => rep_greedy (cs_mem fl cs) lo s (fun s' => k s' c)
  | Rep cs lo false => rep_lazy (cs_mem fl cs) lo s (fun s' => k s' c)
  | Cat r1 r2 => run r1 s c (fun s' c' => run r2 s' c' k)
  | Alt r1 r2 => or_else (run r1 s c k) (fun _ => run r2 s c k)
  | Grp n r' =>
      run r' s c
          (fun s' c' => k s' ((n, firstn (List.length s - List.length s') s) :: c'))
  | Ahead r' =>
      match run r' s c (fun s' c' => Some (s', c')) with
      | Some (_, c') => k s c'
      | None => None
      end
  | Dollar =>
      match s with
      | [] => k s c
      | [x] => if Ascii.eqb x nl then k s c else None
      | _ => None
      end
  | EndZ => match s with [] => k s c | _ :: _ => None end
  end.

(** [pattern.match] at the head of [s] *)
Definition match_here (r : regex) (s : str) : outcome :=
  run r s [] (fun s' c' => Some (s', c')).

(** [re.search]: the leftmost position where the pattern matches *)
Fixpoint search (r : regex) (s : str) : option caps :=
  match match_here r s with
  | Some (_, c) => Some c
  | None => match s with
            | [] => None
            | _ :: t => search r t
            end
  end.

(** [re.findall] for a pattern with groups 1 and 2: the pairs of groups
    of the successive non-overlapping matches.  [skip] counts the
    characters still covered by the previous match. *)
Fixpoint findall_from (r : regex) (s : str) (skip : nat)
  : list (str * str) :=
  match skip with
  | S skip' => match s with
               | [] => []
               | _ :: t => findall_from r t skip'
               end
  | O =>
      match match_here r s with
      | Some (s', c) =>
          (group 1 c, group 2 c) ::
          match s with
          | [] => []
          | _ :: t => findall_from r t (List.length s - List.length s' - 1)
          end
      | None => match s with
                | [] => []
                | _ :: t => findall_from r t 0
                end
      end
  end.

Definition findall (r : regex) (s : str) : list (str * str) :=
  findall_from r s 0.

End Matcher.

End Re.

(** ** Python exceptions and dictionaries *)

Inductive exn :=
| AttributeError      (* attribute access on None *)
| ValueError
| OverflowError       (* an int that does not fit a 64-bit column *)
| IntegrityError      (* sqlite3: a constraint failed *)
| OperationalError.   (* sqlite3: misuse of the transaction commands *)

Inductive result (A : Type) :=
| Ok (a : A)
| Raise (e : exn).

Arguments Ok {A} a.
Arguments Raise {A} e.

(** A [dict] with string keys: the items in insertion order.  Keys are
    unique in a dictionary built by [dict_set] from the empty one. *)
Module PyDict.

Definition dict (V : Type) := list (str * V).

Fixpoint dict_get {V} (k : str) (d : dict V) : option V :=
  match d with
  | [] => None
  | (k', v) :: d' => if str_eqb k k' then Some v else dict_get k d'
  end.

(** [d[k] = v]: an existing key keeps its place, a new one goes last. *)
Fixpoint dict_set {V} (k : str) (v : V) (d : dict V) : dict V :=
  match d with
  | [] => [(k, v)]
  | (k', v') :: d' =>
      if str_eqb k k' then (k, v) :: d' else (k', v') :: dict_set k v d'
  end.

Definition keys {V} (d : dict V) : list str := map fst d.

Definition dict_wf {V} (d : dict V) : Prop := NoDup (keys d).

(** [{k: v for (k, v) in items}] *)
Definition dict_of_items {V} (items : list (str * V)) : dict V :=
  fold_left (fun d kv => dict_set (fst kv) (snd kv) d) items [].

End PyDict.

Export PyDict.

(** ** The PDF backend

    [fitz] is outside the repository; a page is what the extractor asks of
    it: [search_for] gives the rectangles where a text occurs, and
    [get_pixmap] the gray samples (one byte per pixel) of a clip rendered
    with [Matrix(2, 2)]. *)

Module Fitz.

Record rect := Rect { x0 : Q; y0 : Q; x1 : Q; y1 : Q }.

Record page := {
  search_for : str -> list rect;
  get_pixmap : rect -> list Byte.byte
}.

Definition doc := list page.

End Fitz.

Definition bind_result {A B} (r : result A) (k : A -> result B) : result B :=
  match r with
  | Ok a => k a
  | Raise e => Raise e
  end.

Notation "'let?' x ':=' r 'in' k" := (bind_result r (fun x => k))
  (at level 10, x name, r at level 100, k at level 200).

(** A [for] loop whose body may [return]: [body] gives [Some v] where the
    source returns [v], [None] where it goes on to the next item. *)
Fixpoint first_return {P A} (body : P -> option A) (items : list P)
  : option A :=
  match items with
  | [] => None
  | p :: rest => match body p with
                 | Some v => Some v
                 | None => first_return body rest
                 end
  end.

(** ** [PdfTransformer] *)

Module PdfTransformer.

Import Re Fitz.

Definition dq : ascii := ascii_of_nat 34.
Definition ws := star CSpace.                       (* \s*     *)
Definition digits := plus CDigit.                   (* \d+     *)
Definition line := plus (CNotIn [IChr nl]).         (* [^\n]+  *)

(** What [transform] returns. *)
Record firm_record := {
  firm_crd_nb : option Z;
  sec_nb : option str;
  business_name : option str;
  full_legal_name : option str;
  address : option str;
  phone_number : option str;
  compensation_arrangements : list str;
  employee_count : option Z;
  client_types : dict Z;
  private_funds : dict str;
  signatory : option str
}.

Definition _extract_with_regex (text : str) (pattern : regex) : option str :=
  match search IGNORECASE pattern text with
  | Some m => Some (strip (group 1 m))
  | None => None
  end.

(** [if result:] for an [Optional[str]] *)
Definition if_result (result : option str) : bool :=
  match result with
  | Some s => truthy s
  | None => false
  end.

(** The loop shared by the string-valued fields:
    [for pattern in patterns: result = ...; if result: return result]. *)
Definition first_result (text : str) (patterns : list regex) : option str :=
  first_return
    (fun pattern =>
       let result := _extract_with_regex text pattern in
       if if_result result then result else None)
    patterns.

(** [CRD Number:\s*(\d+)], [your CRD number:\s*(\d+)],
    [CRD number:\s*(\d+)], [CRD Number\D*(\d+)] *)
Definition crd_patterns : list regex :=
  [ seq [Lit "CRD Number:"; ws; Grp 1 digits];
    seq [Lit "your CRD number:"; ws; Grp 1 digits];
    seq [Lit "CRD number:"; ws; Grp 1 digits];
    seq [Lit "CRD Number"; star CNotDigit; Grp 1 digits] ].

Definition _extract_firm_crd_number (text : str) : option Z :=
  match
    first_return
      (fun pattern =>
         match _extract_with_regex text pattern with
         | Some result =>
             if truthy result then Some (py_int result) else None
         | None => None
         end)
      crd_patterns
  with
  | Some r => r
  | None => None
  end.

Definition sec_class := plus (CIn [IDigit; IChr "-"]).   (* [\d-]+ *)

(** [SEC file number:\s*([\d-]+)], [SEC File Number:\s*([\d-]+)],
    [you are registered with the SEC as an investment adviser, your SEC
    file number:\s*([\d-]+)], [your SEC file number:\s*([\d-]+)] *)
Definition sec_patterns : list regex :=
  [ seq [Lit "SEC file number:"; ws; Grp 1 sec_class];
    seq [Lit "SEC File Number:"; ws; Grp 1 sec_class];
    seq [Lit ("you are registered with the SEC as an investment adviser, "
              ++ "your SEC file number:")%string; ws; Grp 1 sec_class];
    seq [Lit "your SEC file number:"; ws; Grp 1 sec_class] ].

Definition _extract_sec_number (text : str) : option str :=
  first_result text sec_patterns.

(** [Primary Business Name:\s*([^\n]+)],
    [Name under which you primarily conduct your advisory
    business[^:]*:\s*([^\n]+)] *)
Definition business_name_patterns : list regex :=
  [ seq [Lit "Primary Business Name:"; ws; Grp 1 line];
    seq [Lit "Name under which you primarily conduct your advisory business";
         star (CNotIn [IChr ":"]); Lit ":"; ws; Grp 1 line] ].

Definition _extract_business_name (text : str) : option str :=
  first_result text business_name_patterns.

(** [Your full legal name.*?:\s*([^\n]+)],
    [full legal name.*?:\s*([^\n]+)],
    [A\.\s+Your full legal name.*?:\s*([^\n]+)] *)
Definition legal_name_patterns : list regex :=
  [ seq [Lit "Your full legal name"; star_lazy CAny; Lit ":"; ws; Grp 1 line];
    seq [Lit "full legal name"; star_lazy CAny; Lit ":"; ws; Grp 1 line];
    seq [Lit "A."; plus CSpace; Lit "Your full legal name"; star_lazy CAny;
         Lit ":"; ws; Grp 1 line] ].

Definition _extract_full_legal_name (text : str) : option str :=
  first_result text legal_name_patterns.

(** [[\d\- \(\)\+]+] *)
Definition phone_class :=
  plus (CIn [IDigit; IChr "-"; IChr " "; IChr "("; IChr ")"; IChr "+"]).

(** [Telephone Number:\s*(...)],
    [Telephone number at this location:\s*(...)], the group being
    [phone_class] *)
Definition phone_patterns : list regex :=
  [ seq [Lit "Telephone Number:"; ws; Grp 1 phone_class];
    seq [Lit "Telephone number at this location:"; ws; Grp 1 phone_class] ].

Definition _extract_phone_number (text : str) : option str :=
  first_result text phone_patterns.

(** [Approximately how many of the employees reported in 5\.A\. perform
    investment advisory functions.*?\n(\d+)] *)
Definition employee_count_pattern : regex :=
  seq [Lit ("Approximately how many of the employees reported in 5.A. "
            ++ "perform investment advisory functions")%string;
       star_lazy CAny; Lit [nl]; Grp 1 digits].

Definition _extract_investment_advisory_employee_count (text : str)
  : option Z :=
  match search IGNORECASE_DOTALL employee_count_pattern text with
  | Some m => py_int (strip (group 1 m))
  | None => None
  end.

(** *** The address *)

Record components := {
  street1 : option str;
  street2 : option str;
  city : option str;
  state : option str;
  country : option str;
  postal_code : option str
}.

(** [label\s*(.+?)(?:\s*next|$)] *)
Definition address_pattern (label : str) (next : str) : regex :=
  seq [Lit label; ws; Grp 1 (plus_lazy CAny);
       Alt (seq [ws; Lit next]) Dollar].

(** [match.group(1).strip() if match and match.group(1).strip() else None] *)
Definition component (text : str) (pattern : regex) : option str :=
  match search DOTALL pattern text with
  | Some m => let v := strip (group 1 m) in
              if truthy v then Some v else None
  | None => None
  end.

Definition address_components (text : str) : components :=
  {| street1 := component text
       (address_pattern "Number and Street 1:" "Number and Street 2:");
     street2 := component text
       (address_pattern "Number and Street 2:" "City:");
     city := component text (address_pattern "City:" "State:");
     state := component text (address_pattern "State:" "Country:");
     country := component text
       (address_pattern "Country:" "ZIP+4/Postal Code:");
     postal_code := component text
       (address_pattern "ZIP+4/Postal Code:" "If this address is") |}.

(** [parts.append(x)] under [if x:] *)
Definition append_if (parts : list str) (x : option str) : list str :=
  match x with
  | Some v => parts ++ [v]
  | None => parts
  end.

Definition is_united_states (c : option str) : bool :=
  match c with
  | Some v => str_eqb v "United States"
  | None => false
  end.

(** [parts[-1] = f"{parts[-1]} {postal}"] *)
Definition extend_last (parts : list str) (postal : str) : list str :=
  removelast parts ++ [last parts [] ++ py " " ++ postal].

Definition is_some {A} (x : option A) : bool :=
  match x with Some _ => true | None => false end.

Definition nonempty {A} (l : list A) : bool :=
  match l with [] => false | _ :: _ => true end.

Definition assemble_address (c : components) : option str :=
  let address_parts : list str := [] in
  let street_parts := append_if (append_if [] (street1 c)) (street2 c) in
  let address_parts :=
    if nonempty street_parts
    then address_parts ++ [join ", " street_parts] else address_parts in
  let address_parts :=
    if is_united_states (country c)
    then let city_state := append_if (append_if [] (city c)) (state c) in
         if nonempty city_state
         then address_parts ++ [join ", " city_state] else address_parts
    else append_if address_parts (city c) in
  let address_parts :=
    match is_united_states (country c), postal_code c with
    | true, Some postal =>
        if nonempty address_parts && is_some (state c)
        then extend_last address_parts postal
        else address_parts ++ [postal]
    | _, postal => append_if address_parts postal
    end in
  let address_parts := append_if address_parts (country c) in
  if nonempty address_parts then Some (join ", " address_parts) else None.

Definition _extract_address (text : str) : option str :=
  assemble_address (address_components text).

(** *** Check boxes *)

Definition default_threshold : nat := 150.

(** [np.sum(img_array < threshold)] *)
Definition dark_count (threshold : nat) (samples : list Byte.byte) : nat :=
  List.length (filter (fun b => Nat.ltb (Byte.to_nat b) threshold) samples).

(** [np.sum(img_array < threshold) / img_array.size > 0.12].  The quotient
    is taken in the rationals; for an empty array numpy's quotient is
    [nan], which is not above any number, and [Qdiv] by zero is [0]. *)
Definition _is_checkbox_checked (p : page) (r : rect) (threshold : nat)
  : bool :=
  let img_array := get_pixmap p r in
  let ratio := (inject_Z (Z.of_nat (dark_count threshold img_array))
                / inject_Z (Z.of_nat (List.length img_array)))%Q in
  negb (Qle_bool ratio (12 # 100)%Q).

Definition compensation_options : list (str * str) :=
  [ (py "A percentage of assets under your management", py "(1)");
    (py "Hourly charges", py "(2)");
    (py "Subscription fees (for a newsletter or periodical)", py "(3)");
    (py "Fixed fees (other than subscription fees)", py "(4)");
    (py "Commissions", py "(5)");
    (py "Performance-based fees", py "(6)");
    (py "Other (specify):", py "(7)") ].

(** The first page on which the anchor phrase is found, [None] when it is
    on no page: [page] keeps its initial value. *)
Fixpoint find_page (d : doc) : option page :=
  match d with
  | [] => None
  | target_page :: rest =>
      if nonempty (search_for target_page "Compensation Arrangements")
      then Some target_page
      else find_page rest
  end.

(** [fitz.Rect(x0 - 44, y0 + 1, x0 - 38, y1 - 1)] *)
Definition checkbox_rect (label_rect : rect) : rect :=
  (Rect (x0 label_rect - 44) (y0 label_rect + 1)
        (x0 label_rect - 38) (y1 label_rect - 1))%Q.

(** The loop over the labels.  [page.search_for(label)] is an attribute
    access on [page]: with [page = None] it raises. *)
Fixpoint check_options (page : option page) (options : list (str * str))
         (checked_options : list str) : result (list str) :=
  match options with
  | [] => Ok checked_options
  | (label, option_number) :: rest =>
      match page with
      | None => Raise AttributeError
      | Some p =>
          match search_for p label with
          | [] => check_options page rest checked_options
          | label_rect :: _ =>
              if _is_checkbox_checked p (checkbox_rect label_rect)
                                      default_threshold
              then check_options page rest (checked_options ++ [label])
              else check_options page rest checked_options
          end
      end
  end.

Definition _extract_compensation_arrangements (d : doc)
  : result (list str) :=
  check_options (find_page d) compensation_options [].

(** *** Client types *)

(** [Type of Client.*?under Management(.*?)(?:Item|Section|\Z)] *)
Definition section_pattern : regex :=
  seq [Lit "Type of Client"; star_lazy CAny; Lit "under Management";
       Grp 1 (star_lazy CAny); Alt (Lit "Item") (Alt (Lit "Section") EndZ)].

(** [Type of Client(.*?)(?:Item|\Z)] *)
Definition section_pattern_fallback : regex :=
  seq [Lit "Type of Client"; Grp 1 (star_lazy CAny); Alt (Lit "Item") EndZ].

Definition client_mapping : list (ascii * str) :=
  [ ("a"%char, py "Individuals");
    ("b"%char, py "High Net Worth Individuals");
    ("c"%char, py "Banking Institutions");
    ("d"%char, py "Investment Companies");
    ("e"%char, py "Business Development Companies");
    ("f"%char, py "Pooled Investment Vehicles");
    ("g"%char, py "Pension Plans");
    ("h"%char, py "Charitable Organizations");
    ("i"%char, py "State Entities");
    ("j"%char, py "Other Advisers");
    ("k"%char, py "Insurance Companies");
    ("l"%char, py "Sovereign Wealth Funds");
    ("m"%char, py "Corporations");
    ("n"%char, py "Other") ].

(** [\(x\)] *)
Definition anchor (letter : ascii) : regex :=
  Lit (py "(" ++ [letter] ++ py ")").

(** [rf'\({letter}\)(.*?)(?:{next_pattern})'], where [next_pattern] is the
    anchor of the next letter, [Item|\Z] after the last one. *)
Definition client_pattern (letter : ascii) (next : option ascii) : regex :=
  seq [anchor letter; Grp 1 (star_lazy CAny);
       match next with
       | Some l => anchor l
       | None => Alt (Lit "Item") EndZ
       end].

(** [Other:\s*([^\n$]+)] *)
Definition other_desc_pattern : regex :=
  seq [Lit "Other:"; ws; Grp 1 (plus (CNotIn [IChr nl; IChr "$"]))].

(** [\$\s*([\d,]+)] *)
Definition aum_pattern : regex :=
  seq [Lit "$"; ws; Grp 1 (plus (CIn [IDigit; IChr ","]))].

(** The label under which a category is stored: the fixed one, with the
    description appended for [(n)] when the span has one. *)
Definition category_label (letter : ascii) (client_type line_text : str)
  : str :=
  if Ascii.eqb letter "n" && contains ":" line_text
  then match search NOFLAG other_desc_pattern line_text with
       | Some m => client_type ++ py ": " ++ strip (group 1 m)
       | None => client_type
       end
  else client_type.

(** The amount read in a span; [int(aum_str)] is not guarded. *)
Definition span_amount (line_text : str) : result Z :=
  match search NOFLAG aum_pattern line_text with
  | Some m =>
      let aum_str := remove_chr "," (group 1 m) in
      if truthy aum_str
      then match py_int aum_str with
           | Some v => Ok v
           | None => Raise ValueError
           end
      else Ok 0%Z
  | None => Ok 0%Z
  end.

Fixpoint client_loop (client_section : str) (letters : list (ascii * str))
         (aum_details : dict Z) : result (dict Z) :=
  match letters with
  | [] => Ok aum_details
  | (letter, client_type) :: rest =>
      let next := match rest with
                  | (l, _) :: _ => Some l
                  | [] => None
                  end in
      match search DOTALL (client_pattern letter next) client_section with
      | Some m =>
          let line_text := group 1 m in
          let client_type := category_label letter client_type line_text in
          let? aum_value := span_amount line_text in
          client_loop client_section rest
            (if (aum_value >? 0)%Z
             then dict_set client_type aum_value aum_details
             else aum_details)
      | None => client_loop client_section rest aum_details
      end
  end.

Definition client_section_of (text : str) : option str :=
  match search DOTALL section_pattern text with
  | Some m => Some (group 1 m)
  | None =>
      match search DOTALL section_pattern_fallback text with
      | Some m => Some (group 1 m)
      | None => None
      end
  end.

Definition _extract_client_types (text : str) : result (dict Z) :=
  match client_section_of text with
  | None => Ok []
  | Some client_section => client_loop client_section client_mapping []
  end.

(** *** Private funds *)

(** [Name of the private fund:\s*([^\n]+?)\s*\n\s*\(b\) Private fund
    identification number:\s*\(include the \"805-\" prefix
    also\)\s*(805-\d+)] *)
Definition private_fund_pattern : regex :=
  seq [Lit "Name of the private fund:"; ws;
       Grp 1 (plus_lazy (CNotIn [IChr nl])); ws; Lit [nl]; ws;
       Lit "(b) Private fund identification number:"; ws;
       Lit (py "(include the " ++ [dq] ++ py "805-" ++ [dq]
            ++ py " prefix also)"); ws;
       Grp 2 (Cat (Lit "805-") digits)].

Definition _extract_private_funds_and_ids (text : str) : dict str :=
  fold_left
    (fun results m =>
       let '(fund_name, fund_id) := m in
       dict_set (strip fund_name) (strip fund_id) results)
    (findall NOFLAG private_fund_pattern text) [].

(** *** Signatory *)

(** [Printed Name:\s*\n([^\n]+)],
    [Printed Name:\s*([^:\n]+?)(?=\s*\n)],
    [Signature:\s*\n([^\n]+)], [Signature:\s*([^:\n]+?)(?=\s*\n)] *)
Definition signatory_patterns : list regex :=
  [ seq [Lit "Printed Name:"; ws; Lit [nl]; Grp 1 line];
    seq [Lit "Printed Name:"; ws;
         Grp 1 (plus_lazy (CNotIn [IChr ":"; IChr nl]));
         Ahead (seq [ws; Lit [nl]])];
    seq [Lit "Signature:"; ws; Lit [nl]; Grp 1 line];
    seq [Lit "Signature:"; ws;
         Grp 1 (plus_lazy (CNotIn [IChr ":"; IChr nl]));
         Ahead (seq [ws; Lit [nl]])] ].

(** [s.isspace()] *)
Definition isspace (s : str) : bool := nonempty s && forallb is_space s.

(** What one pattern gives after the clean-up of the loop body. *)
Definition cleaned (result : str) : str :=
  let cleaned_result := strip result in
  if contains "Title:" cleaned_result
  then strip (before "Title:" cleaned_result)
  else cleaned_result.

Definition _extract_signatory (text : str) : option str :=
  first_return
    (fun pattern =>
       match _extract_with_regex text pattern with
       | Some result =>
           if truthy result
           then let cleaned_result := cleaned result in
                if truthy cleaned_result && negb (isspace cleaned_result)
                then Some cleaned_result else None
           else None
       | None => None
       end)
    signatory_patterns.

(** *** The record assembler

    [full_text] is what the OCR reader gives for the file and [d] the
    pages [fitz] opens for it.  The entries are evaluated in the order of
    the dictionary display. *)
Definition transform (full_text : str) (d : doc) : result firm_record :=
  let crd := _extract_firm_crd_number full_text in
  let sec := _extract_sec_number full_text in
  let business := _extract_business_name full_text in
  let legal := _extract_full_legal_name full_text in
  let addr := _extract_address full_text in
  let phone := _extract_phone_number full_text in
  let? compensation := _extract_compensation_arrangements d in
  let employees := _extract_investment_advisory_employee_count full_text in
  let? clients := _extract_client_types full_text in
  let funds := _extract_private_funds_and_ids full_text in
  let sig := _extract_signatory full_text in
  Ok {| firm_crd_nb := crd;
        sec_nb := sec;
        business_name := business;
        full_legal_name := legal;
        address := addr;
        phone_number := phone;
        compensation_arrangements := compensation;
        employee_count := employees;
        client_types := clients;
        private_funds := funds;
        signatory := sig |}.

End PdfTransformer.

(** ** The relational store

    The four tables of [DatabaseSink.setup] with the constraints the
    write path can meet: the primary key of [firms], the foreign keys of
    the child tables, [UNIQUE(firm_crd_nb, fund_id)], 64-bit integer
    columns, and [AUTOINCREMENT] row ids drawn from [sqlite_sequence].
    Row ids are unbounded here; the ceiling of the store is out of reach
    of a run.  A table is the list of its rows in row-id order. *)

Module Sqlite.

Definition timestamp := nat.

Record firm_row := {
  f_firm_crd_nb : Z;
  f_sec_nb : option str;
  f_business_name : option str;
  f_full_legal_name : option str;
  f_address : option str;
  f_phone_number : option str;
  f_employee_count : option Z;
  f_signatory : option str;
  f_created_at : timestamp;
  f_updated_at : timestamp
}.

Record arrangement_row := {
  a_id : Z;
  a_firm_crd_nb : Z;
  a_arrangement : str;
  a_created_at : timestamp
}.

Record client_type_row := {
  c_id : Z;
  c_firm_crd_nb : Z;
  c_client_type : str;
  c_aum_value : Z;
  c_created_at : timestamp
}.

Record private_fund_row := {
  p_id : Z;
  p_firm_crd_nb : Z;
  p_fund_name : str;
  p_fund_id : str;
  p_created_at : timestamp
}.

Record database := {
  tbl_firms : list firm_row;
  tbl_compensation_arrangements : list arrangement_row;
  tbl_client_types : list client_type_row;
  tbl_private_funds : list private_fund_row;
  seq_compensation_arrangements : Z;
  seq_client_types : Z;
  seq_private_funds : Z
}.

Definition empty_db : database :=
  {| tbl_firms := [];
     tbl_compensation_arrangements := [];
     tbl_client_types := [];
     tbl_private_funds := [];
     seq_compensation_arrangements := 0;
     seq_client_types := 0;
     seq_private_funds := 0 |}.

(** Binding a Python [int] to a statement parameter. *)
Definition fits_int64 (z : Z) : bool :=
  ((- 2 ^ 63 <=? z) && (z <? 2 ^ 63))%Z.

Definition bind_int (z : Z) : result Z :=
  if fits_int64 z then Ok z else Raise OverflowError.

Definition bind_opt_int (z : option Z) : result (option Z) :=
  match z with
  | Some v => let? v' := bind_int v in Ok (Some v')
  | None => Ok None
  end.

Definition has_firm (crd : Z) (d : database) : bool :=
  existsb (fun r => Z.eqb (f_firm_crd_nb r) crd) (tbl_firms d).

(** The foreign-key check of an insert into a child table. *)
Definition check_parent (crd : Z) (d : database) : result unit :=
  if has_firm crd d then Ok tt else Raise IntegrityError.

(** [INSERT INTO firms (...) VALUES (..., CURRENT_TIMESTAMP)
     ON CONFLICT(firm_crd_nb) DO UPDATE SET ..., updated_at =
     CURRENT_TIMESTAMP]: a new key gets a row whose [created_at] is the
    column default; the row of a known key has its scalar columns and
    [updated_at] overwritten. *)
Fixpoint upsert_row (now : timestamp) (new : firm_row)
         (rows : list firm_row) : list firm_row :=
  match rows with
  | [] => [new]
  | r :: rest =>
      if Z.eqb (f_firm_crd_nb r) (f_firm_crd_nb new)
      then {| f_firm_crd_nb := f_firm_crd_nb r;
              f_sec_nb := f_sec_nb new;
              f_business_name := f_business_name new;
              f_full_legal_name := f_full_legal_name new;
              f_address := f_address new;
              f_phone_number := f_phone_number new;
              f_employee_count := f_employee_count new;
              f_signatory := f_signatory new;
              f_created_at := f_created_at r;
              f_updated_at := now |} :: rest
      else r :: upsert_row now new rest
  end.

Definition set_firms (d : database) (rows : list firm_row) : database :=
  {| tbl_firms := rows;
     tbl_compensation_arrangements := tbl_compensation_arrangements d;
     tbl_client_types := tbl_client_types d;
     tbl_private_funds := tbl_private_funds d;
     seq_compensation_arrangements := seq_compensation_arrangements d;
     seq_client_types := seq_client_types d;
     seq_private_funds := seq_private_funds d |}.

Definition set_compensation (d : database) (rows : list arrangement_row)
           (s : Z) : database :=
  {| tbl_firms := tbl_firms d;
     tbl_compensation_arrangements := rows;
     tbl_client_types := tbl_client_types d;
     tbl_private_funds := tbl_private_funds d;
     seq_compensation_arrangements := s;
     seq_client_types := seq_client_types d;
     seq_private_funds := seq_private_funds d |}.

Definition set_client_types (d : database) (rows : list client_type_row)
           (s : Z) : database :=
  {| tbl_firms := tbl_firms d;
     tbl_compensation_arrangements := tbl_compensation_arrangements d;
     tbl_client_types := rows;
     tbl_private_funds := tbl_private_funds d;
     seq_compensation_arrangements := seq_compensation_arrangements d;
     seq_client_types := s;
     seq_private_funds := seq_private_funds d |}.

Definition set_private_funds (d : database) (rows : list private_fund_row)
           (s : Z) : database :=
  {| tbl_firms := tbl_firms d;
     tbl_compensation_arrangements := tbl_compensation_arrangements d;
     tbl_client_types := tbl_client_types d;
     tbl_private_funds := rows;
     seq_compensation_arrangements := seq_compensation_arrangements d;
     seq_client_types := seq_client_types d;
     seq_private_funds := s |}.

Definition upsert_firm (now : timestamp) (crd : Z)
           (sec business legal addr phone : option str)
           (employees : option Z) (sig : option str) (d : database)
  : result database :=
  let? crd' := bind_int crd in
  let? employees' := bind_opt_int employees in
  Ok (set_firms d
        (upsert_row now
           {| f_firm_crd_nb := crd';
              f_sec_nb := sec;
              f_business_name := business;
              f_full_legal_name := legal;
              f_address := addr;
              f_phone_number := phone;
              f_employee_count := employees';
              f_signatory := sig;
              f_created_at := now;
              f_updated_at := now |}
           (tbl_firms d))).

(** [DELETE FROM <child> WHERE firm_crd_nb = ?] *)
Definition delete_compensation (crd : Z) (d : database) : result database :=
  let? crd' := bind_int crd in
  Ok (set_compensation d
        (filter (fun r => negb (Z.eqb (a_firm_crd_nb r) crd'))
                (tbl_compensation_arrangements d))
        (seq_compensation_arrangements d)).

Definition delete_client_types (crd : Z) (d : database) : result database :=
  let? crd' := bind_int crd in
  Ok (set_client_types d
        (filter (fun r => negb (Z.eqb (c_firm_crd_nb r) crd'))
                (tbl_client_types d))
        (seq_client_types d)).

Definition delete_private_funds (crd : Z) (d : database) : result database :=
  let? crd' := bind_int crd in
  Ok (set_private_funds d
        (filter (fun r => negb (Z.eqb (p_firm_crd_nb r) crd'))
                (tbl_private_funds d))
        (seq_private_funds d)).

(** [INSERT INTO compensation_arrangements (firm_crd_nb, arrangement)] *)
Definition insert_compensation (now : timestamp) (crd : Z)
           (arrangement : str) (d : database) : result database :=
  let? crd' := bind_int crd in
  let? _ := check_parent crd' d in
  let id := (seq_compensation_arrangements d + 1)%Z in
  Ok (set_compensation d
        (tbl_compensation_arrangements d ++
           [{| a_id := id; a_firm_crd_nb := crd';
               a_arrangement := arrangement; a_created_at := now |}])
        id).

(** [INSERT INTO client_types (firm_crd_nb, client_type, aum_value)] *)
Definition insert_client_type (now : timestamp) (crd : Z)
           (client_type : str) (aum_value : Z) (d : database)
  : result database :=
  let? crd' := bind_int crd in
  let? aum' := bind_int aum_value in
  let? _ := check_parent crd' d in
  let id := (seq_client_types d + 1)%Z in
  Ok (set_client_types d
        (tbl_client_types d ++
           [{| c_id := id; c_firm_crd_nb := crd';
               c_client_type := client_type; c_aum_value := aum';
               c_created_at := now |}])
        id).

(** [INSERT INTO private_funds (firm_crd_nb, fund_name, fund_id)], under
    [UNIQUE(firm_crd_nb, fund_id)]. *)
Definition fund_taken (crd : Z) (fund_id : str) (d : database) : bool :=
  existsb (fun r => Z.eqb (p_firm_crd_nb r) crd && str_eqb (p_fund_id r) fund_id)
          (tbl_private_funds d).

Definition insert_private_fund (now : timestamp) (crd : Z)
           (fund_name fund_id : str) (d : database) : result database :=
  let? crd' := bind_int crd in
  let? _ := check_parent crd' d in
  if fund_taken crd' fund_id d then Raise IntegrityError
  else
    let id := (seq_private_funds d + 1)%Z in
    Ok (set_private_funds d
          (tbl_private_funds d ++
             [{| p_id := id; p_firm_crd_nb := crd';
                 p_fund_name := fund_name; p_fund_id := fund_id;
                 p_created_at := now |}])
          id).

(** *** Connections and transactions

    A connection holds the current content and, while a transaction is
    open, the content at its [BEGIN].  A statement that fails leaves the
    content as it was before the statement and the transaction open. *)

Record connection := {
  db : database;
  journal : option database
}.

Definition connect (d : database) : connection :=
  {| db := d; journal := None |}.

(** A computation on a connection; an exception keeps the state. *)
Definition M (A : Type) := connection -> result A * connection.

Definition ret {A} (a : A) : M A := fun c => (Ok a, c).

Definition raise {A} (e : exn) : M A := fun c => (Raise e, c).

Definition bind {A B} (m : M A) (k : A -> M B) : M B :=
  fun c => match m c with
           | (Ok a, c') => k a c'
           | (Raise e, c') => (Raise e, c')
           end.

(** [try: body except Exception as e: handler(e)] *)
Definition try_except {A} (body : M A) (handler : exn -> M A) : M A :=
  fun c => match body c with
           | (Ok a, c') => (Ok a, c')
           | (Raise e, c') => handler e c'
           end.

Definition execute_BEGIN : M unit :=
  fun c => match journal c with
           | Some _ => (Raise OperationalError, c)
           | None => (Ok tt, {| db := db c; journal := Some (db c) |})
           end.

Definition execute_COMMIT : M unit :=
  fun c => match journal c with
           | Some _ => (Ok tt, {| db := db c; journal := None |})
           | None => (Raise OperationalError, c)
           end.

Definition execute_ROLLBACK : M unit :=
  fun c => match journal c with
           | Some d => (Ok tt, {| db := d; journal := None |})
           | None => (Raise OperationalError, c)
           end.

(** [cursor.execute] of an INSERT or DELETE: outside a transaction the
    module opens one first. *)
Definition execute (stmt : database -> result database) : M unit :=
  fun c =>
    let j := match journal c with
             | Some d => Some d
             | None => Some (db c)
             end in
    match stmt (db c) with
    | Ok d' => (Ok tt, {| db := d'; journal := j |})
    | Raise e => (Raise e, {| db := db c; journal := j |})
    end.

(** Leaving [with sqlite3.connect(...) as conn]: commit after a normal
    exit, roll back after an exception; what is then on disk. *)
Definition close {A} (r : result A) (c : connection) : database :=
  match r, journal c with
  | Raise _, Some d => d
  | _, _ => db c
  end.

End Sqlite.

(** ** [DatabaseSink] *)

Module DatabaseSink.

Import Sqlite.

Notation "x <- m ;; k" := (bind m (fun x => k))
  (at level 61, m at next level, right associativity).
Notation "m ;; k" := (bind m (fun _ => k))
  (at level 61, right associativity).

(** An item of a list passed as [compensation_arrangements]. *)
Inductive pyobj :=
| PyNone
| PyInt (z : Z)
| PyStr (s : str).

(** [arrangements: Union[str, list]], or anything else. *)
Inductive arrangements_arg :=
| ArrList (l : list pyobj)
| ArrStr (s : str)
| ArrOther.

(** An amount: [Union[int, str]]. *)
Inductive aum_arg :=
| AumInt (z : Z)
| AumStr (s : str).

(** One value of [firm_data]: the keys [write] reads.  [None] for a
    scalar is a missing key or a [None] value, which [data.get] does not
    tell apart; [None] for a collection is a missing key. *)
Record firm_data := {
  sec_nb : option str;
  business_name : option str;
  full_legal_name : option str;
  address : option str;
  phone_number : option str;
  employee_count : option Z;
  signatory : option str;
  compensation_arrangements : option arrangements_arg;
  client_types : option (dict aum_arg);
  private_funds : option (dict str)
}.

(** [data.get(key, default)] *)
Definition get_default {A} (v : option A) (default : A) : A :=
  match v with
  | Some a => a
  | None => default
  end.

(** The record of [transform] as [pipeline.run] hands it to [write]. *)
Definition of_record (r : PdfTransformer.firm_record) : firm_data :=
  {| sec_nb := PdfTransformer.sec_nb r;
     business_name := PdfTransformer.business_name r;
     full_legal_name := PdfTransformer.full_legal_name r;
     address := PdfTransformer.address r;
     phone_number := PdfTransformer.phone_number r;
     employee_count := PdfTransformer.employee_count r;
     signatory := PdfTransformer.signatory r;
     compensation_arrangements :=
       Some (ArrList (map PyStr (PdfTransformer.compensation_arrangements r)));
     client_types :=
       Some (map (fun kv => (fst kv, AumInt (snd kv)))
                 (PdfTransformer.client_types r));
     private_funds := Some (PdfTransformer.private_funds r) |}.

(** A [for] loop of statements. *)
Fixpoint for_each {A} (items : list A) (body : A -> M unit) : M unit :=
  match items with
  | [] => ret tt
  | x :: rest => body x ;; for_each rest body
  end.

(** The list the arrangements are normalised to. *)
Definition arrangement_list (arrangements : arrangements_arg) : list str :=
  match arrangements with
  | ArrList l =>
      flat_map (fun arr => match arr with
                           | PyStr s => [strip s]
                           | _ => []
                           end) l
  | ArrStr s =>
      flat_map (fun arr => if truthy (strip arr) then [strip arr] else [])
               (split_chr "," s)
  | ArrOther => []
  end.

Definition _write_compensation_arrangements (now : timestamp) (firm_crd : Z)
           (arrangements : arrangements_arg) : M unit :=
  execute (delete_compensation firm_crd) ;;
  for_each (arrangement_list arrangements)
           (fun arrangement =>
              execute (insert_compensation now firm_crd arrangement)).

(** The amount that is stored: a string is parsed, [0] when that fails. *)
Definition aum_int (aum_value : aum_arg) : Z :=
  match aum_value with
  | AumInt z => z
  | AumStr s => match py_int (remove_chr "," s) with
                | Some z => z
                | None => 0%Z
                end
  end.

Definition _write_client_types (now : timestamp) (firm_crd : Z)
           (client_types : dict aum_arg) : M unit :=
  execute (delete_client_types firm_crd) ;;
  for_each client_types
           (fun item =>
              let '(client_type, aum_value) := item in
              let aum_value := aum_int aum_value in
              execute (insert_client_type now firm_crd client_type aum_value)).

Definition _write_private_funds (now : timestamp) (firm_crd : Z)
           (private_funds : dict str) : M unit :=
  execute (delete_private_funds firm_crd) ;;
  for_each private_funds
           (fun item =>
              let '(fund_name, fund_id) := item in
              execute (insert_private_fund now firm_crd fund_name fund_id)).

(** The body of the [try]: the upsert, the three child collections and
    the [COMMIT]. *)
Definition write_steps (now : timestamp) (firm_crd : Z) (data : firm_data)
  : M unit :=
  execute (upsert_firm now firm_crd (sec_nb data) (business_name data)
             (full_legal_name data) (address data) (phone_number data)
             (employee_count data) (signatory data)) ;;
  _write_compensation_arrangements now firm_crd
    (get_default (compensation_arrangements data) (ArrStr [])) ;;
  _write_client_types now firm_crd (get_default (client_types data) []) ;;
  _write_private_funds now firm_crd (get_default (private_funds data) []) ;;
  execute_COMMIT.

(** One turn of the loop of [write]. *)
Definition write_firm (now : timestamp) (firm_crd : Z) (data : firm_data)
  : M unit :=
  execute_BEGIN ;;
  try_except (write_steps now firm_crd data)
             (fun e => execute_ROLLBACK ;; raise e).

(** [write(firm_data)]: [now] is the clock of the store during the call;
    the result is the outcome of the call and what is on disk after it. *)
Definition write (now : timestamp) (firm_data : list (Z * firm_data))
           (d : database) : result unit * database :=
  let '(r, c) :=
    for_each firm_data
             (fun item => let '(firm_crd, data) := item in
                          write_firm now firm_crd data)
             (connect d) in
  (r, close r c).

(** *** The per-entity fetchers *)

Definition fetch_compensation (d : database) (firm_crd_nb : Z)
  : result (list str) :=
  let? crd := bind_int firm_crd_nb in
  Ok (map a_arrangement
          (filter (fun r => Z.eqb (a_firm_crd_nb r) crd)
                  (tbl_compensation_arrangements d))).

Definition fetch_client_types (d : database) (firm_crd_nb : Z)
  : result (dict Z) :=
  let? crd := bind_int firm_crd_nb in
  Ok (dict_of_items
        (map (fun r => (c_client_type r, c_aum_value r))
             (filter (fun r => Z.eqb (c_firm_crd_nb r) crd)
                     (tbl_client_types d)))).

Record fund_entry := {
  name : str;
  identification_number : str
}.

Definition fetch_private_funds (d : database) (firm_crd_nb : Z)
  : result (list fund_entry) :=
  let? crd := bind_int firm_crd_nb in
  Ok (map (fun r => {| name := p_fund_name r;
                       identification_number := p_fund_id r |})
          (filter (fun r => Z.eqb (p_firm_crd_nb r) crd)
                  (tbl_private_funds d))).

(** The rows of [firms] with a given key. *)
Definition firm_rows (d : database) (firm_crd_nb : Z) : list firm_row :=
  filter (fun r => Z.eqb (f_firm_crd_nb r) firm_crd_nb) (tbl_firms d).

End DatabaseSink.

(** * Properties *)

(** ** The storage sink *)

Module SinkFacts.

Import Sqlite DatabaseSink.

(** *** Statements in sequence

    A run of [execute]s inside an open transaction is the fold of the
    statements over the content, stopped by the first failure. *)

Definition stmt := database -> result database.

Fixpoint apply_all (stmts : list stmt) (d : database)
  : result unit * database :=
  match stmts with
  | [] => (Ok tt, d)
  | s :: rest => match s d with
                 | Ok d' => apply_all rest d'
                 | Raise e => (Raise e, d)
                 end
  end.

Definition in_txn (j : database) (rd : result unit * database)
  : result unit * connection :=
  (fst rd, {| db := snd rd; journal := Some j |}).

Lemma apply_all_app (s1 s2 : list stmt) (d : database) :
  apply_all (s1 ++ s2) d =
  match apply_all s1 d with
  | (Ok _, d') => apply_all s2 d'
  | (Raise e, d') => (Raise e, d')
  end.
Proof.
  revert d; induction s1 as [|s rest IH]; intro d; simpl.
  - reflexivity.
  - destruct (s d) as [d'|e]; [apply IH | reflexivity].
Qed.

Lemma execute_in_txn (s : stmt) (c : connection) (j : database) :
  journal c = Some j ->
  execute s c = in_txn j (apply_all [s] (db c)).
Proof.
  intro Hj. unfold execute, in_txn. rewrite Hj. simpl.
  destruct (s (db c)); reflexivity.
Qed.

Lemma for_each_in_txn {A} (body : A -> M unit) (f : A -> stmt)
      (items : list A) :
  (forall x c, body x c = execute (f x) c) ->
  forall c j, journal c = Some j ->
  for_each items body c = in_txn j (apply_all (map f items) (db c)).
Proof.
  intro Hbody. induction items as [|x rest IH]; intros c j Hj.
  - destruct c as [d jr]. simpl in *. subst jr. reflexivity.
  - simpl. unfold bind. rewrite Hbody, (execute_in_txn _ _ Hj).
    unfold in_txn at 1. simpl.
    destruct (f x (db c)) as [d'|e]; simpl.
    + rewrite (IH {| db := d'; journal := Some j |} j eq_refl). reflexivity.
    + reflexivity.
Qed.

(** A statement sequence followed by another, both inside the
    transaction. *)
Lemma bind_in_txn (m1 m2 : M unit) (s1 s2 : list stmt) :
  (forall c j, journal c = Some j -> m1 c = in_txn j (apply_all s1 (db c))) ->
  (forall c j, journal c = Some j -> m2 c = in_txn j (apply_all s2 (db c))) ->
  forall c j, journal c = Some j ->
  bind m1 (fun _ => m2) c = in_txn j (apply_all (s1 ++ s2) (db c)).
Proof.
  intros H1 H2 c j Hj. unfold bind. rewrite (H1 c j Hj), apply_all_app.
  unfold in_txn at 1.
  destruct (apply_all s1 (db c)) as [[[]|e] d']; simpl.
  - rewrite (H2 {| db := d'; journal := Some j |} j eq_refl). reflexivity.
  - reflexivity.
Qed.

(** The statements of one entity's write, in the order of the code. *)
Definition compensation_stmts now crd a : list stmt :=
  delete_compensation crd ::
  map (insert_compensation now crd) (arrangement_list a).

Definition client_type_stmts now crd (cts : dict aum_arg) : list stmt :=
  delete_client_types crd ::
  map (fun item => insert_client_type now crd (fst item) (aum_int (snd item)))
      cts.

Definition private_fund_stmts now crd (pfs : dict str) : list stmt :=
  delete_private_funds crd ::
  map (fun item => insert_private_fund now crd (fst item) (snd item)) pfs.

Definition upsert_stmt now crd (data : firm_data) : stmt :=
  upsert_firm now crd (sec_nb data) (business_name data)
    (full_legal_name data) (address data) (phone_number data)
    (employee_count data) (signatory data).

Definition stmts_of now crd (data : firm_data) : list stmt :=
  [upsert_stmt now crd data]
  ++ compensation_stmts now crd
       (get_default (compensation_arrangements data) (ArrStr []))
  ++ client_type_stmts now crd (get_default (client_types data) [])
  ++ private_fund_stmts now crd (get_default (private_funds data) []).

Lemma compensation_in_txn now crd a c j :
  journal c = Some j ->
  _write_compensation_arrangements now crd a c =
  in_txn j (apply_all (compensation_stmts now crd a) (db c)).
Proof.
  intro Hj. unfold _write_compensation_arrangements, compensation_stmts.
  change (delete_compensation crd :: ?l) with ([delete_compensation crd] ++ l).
  apply bind_in_txn; trivial.
  - intros; now apply execute_in_txn.
  - intros; now apply for_each_in_txn.
Qed.

Lemma client_types_in_txn now crd cts c j :
  journal c = Some j ->
  _write_client_types now crd cts c =
  in_txn j (apply_all (client_type_stmts now crd cts) (db c)).
Proof.
  intro Hj. unfold _write_client_types, client_type_stmts.
  change (delete_client_types crd :: ?l) with ([delete_client_types crd] ++ l).
  apply bind_in_txn; trivial.
  - intros; now apply execute_in_txn.
  - intros; apply for_each_in_txn; trivial. now intros [k v] c'.
Qed.

Lemma private_funds_in_txn now crd pfs c j :
  journal c = Some j ->
  _write_private_funds now crd pfs c =
  in_txn j (apply_all (private_fund_stmts now crd pfs) (db c)).
Proof.
  intro Hj. unfold _write_private_funds, private_fund_stmts.
  change (delete_private_funds crd :: ?l) with ([delete_private_funds crd] ++ l).
  apply bind_in_txn; trivial.
  - intros; now apply execute_in_txn.
  - intros; apply for_each_in_txn; trivial. now intros [k v] c'.
Qed.

(** The body of the [try], inside the transaction opened by [BEGIN]. *)
Lemma write_steps_in_txn now crd data c j :
  journal c = Some j ->
  write_steps now crd data c =
  match apply_all (stmts_of now crd data) (db c) with
  | (Ok _, d') => (Ok tt, {| db := d'; journal := None |})
  | (Raise e, d') => (Raise e, {| db := d'; journal := Some j |})
  end.
Proof.
  intro Hj. unfold write_steps.
  assert (Hbody : forall c j, journal c = Some j ->
    bind (execute (upsert_stmt now crd data)) (fun _ =>
    bind (_write_compensation_arrangements now crd
            (get_default (compensation_arrangements data) (ArrStr []))) (fun _ =>
    bind (_write_client_types now crd (get_default (client_types data) []))
         (fun _ => _write_private_funds now crd
                     (get_default (private_funds data) [])))) c
    = in_txn j (apply_all (stmts_of now crd data) (db c))).
  { unfold stmts_of. intros c0 j0 Hj0.
    apply bind_in_txn; trivial; [intros; now apply execute_in_txn|].
    intros c1 j1 Hj1.
    apply bind_in_txn; trivial; [intros; now apply compensation_in_txn|].
    intros c2 j2 Hj2.
    apply bind_in_txn; trivial; intros;
      [now apply client_types_in_txn | now apply private_funds_in_txn]. }
  transitivity
    (bind
       (bind (execute (upsert_stmt now crd data)) (fun _ =>
        bind (_write_compensation_arrangements now crd
                (get_default (compensation_arrangements data) (ArrStr [])))
             (fun _ =>
        bind (_write_client_types now crd
                (get_default (client_types data) []))
             (fun _ => _write_private_funds now crd
                         (get_default (private_funds data) [])))))
       (fun _ => execute_COMMIT) c).
  { unfold upsert_stmt, bind.
    destruct (execute _ c) as [[[]|e1] c1]; trivial.
    destruct (_write_compensation_arrangements _ _ _ c1) as [[[]|e2] c2];
      trivial.
    destruct (_write_client_types _ _ _ c2) as [[[]|e3] c3]; trivial. }
  unfold bind at 1. rewrite (Hbody c j Hj). unfold in_txn.
  destruct (apply_all _ (db c)) as [[[]|e] d']; reflexivity.
Qed.

(** One turn of the loop of [write] on a connection with no transaction
    open: the statements are applied and committed, or nothing is. *)
Lemma write_firm_spec now crd data c :
  journal c = None ->
  write_firm now crd data c =
  match apply_all (stmts_of now crd data) (db c) with
  | (Ok _, d') => (Ok tt, connect d')
  | (Raise e, _) => (Raise e, connect (db c))
  end.
Proof.
  intro Hj. unfold write_firm, bind, execute_BEGIN. rewrite Hj.
  unfold try_except.
  rewrite write_steps_in_txn with (j := db c) by reflexivity. cbn [db].
  destruct (apply_all (stmts_of now crd data) (db c)) as [[[]|e] d'];
    reflexivity.
Qed.

(** [write] on a batch, as a fold. *)
Fixpoint write_all now (items : list (Z * firm_data)) (d : database)
  : result unit * database :=
  match items with
  | [] => (Ok tt, d)
  | (crd, data) :: rest =>
      match apply_all (stmts_of now crd data) d with
      | (Ok _, d') => write_all now rest d'
      | (Raise e, _) => (Raise e, d)
      end
  end.

Lemma write_spec now items d : write now items d = write_all now items d.
Proof.
  unfold write.
  assert (H : forall c, journal c = None ->
            for_each items
              (fun item => let '(firm_crd, data) := item in
                           write_firm now firm_crd data) c
            = (fst (write_all now items (db c)),
               connect (snd (write_all now items (db c))))).
  { induction items as [|[crd data] rest IH]; intros c Hj.
    - destruct c as [d0 j0]; simpl in *; subst; reflexivity.
    - cbn [for_each write_all]. unfold bind.
      rewrite write_firm_spec by assumption.
      destruct (apply_all (stmts_of now crd data) (db c)) as [[[]|e] d'].
      + now rewrite (IH (connect d') eq_refl).
      + reflexivity. }
  rewrite (H (connect d) eq_refl). cbn [db connect].
  destruct (write_all now items d) as [[[]|e] d']; reflexivity.
Qed.

(** *** What a statement does *)

Lemma str_eqb_eq (a b : str) : str_eqb a b = true <-> a = b.
Proof.
  revert b; induction a as [|x a IH]; intros [|y b]; simpl;
    try (split; [discriminate | discriminate]); [tauto|].
  rewrite andb_true_iff, Ascii.eqb_eq, IH.
  split; [intros [-> ->]; reflexivity | intro H; inversion H; auto].
Qed.

Lemma str_eqb_refl (a : str) : str_eqb a a = true.
Proof. now apply str_eqb_eq. Qed.

Lemma bind_int_ok z z' : bind_int z = Ok z' -> z' = z /\ fits_int64 z = true.
Proof.
  unfold bind_int. destruct (fits_int64 z); [|discriminate].
  intro H; inversion H; auto.
Qed.

Lemma bind_int_fits z : fits_int64 z = true -> bind_int z = Ok z.
Proof. unfold bind_int. now intros ->. Qed.

(** Rows of one key among rows none of which, or all of which, has it. *)
Lemma filter_none {A} (f : A -> bool) (l : list A) :
  filter f (filter (fun x => negb (f x)) l) = [].
Proof.
  induction l as [|x l IH]; simpl; trivial.
  destruct (f x) eqn:E; simpl; trivial. now rewrite E.
Qed.

Lemma filter_all {A} (f : A -> bool) (l : list A) :
  Forall (fun x => f x = true) l -> filter f l = l.
Proof.
  induction 1 as [|x l Hx _ IH]; simpl; trivial. now rewrite Hx, IH.
Qed.

Lemma filter_other {A} (f g : A -> bool) (l : list A) :
  (forall x, g x = true -> f x = false) ->
  filter g (filter (fun x => negb (f x)) l) = filter g l.
Proof.
  intro H. induction l as [|x l IH]; simpl; trivial.
  destruct (f x) eqn:E; simpl.
  - destruct (g x) eqn:G; [|trivial]. apply H in G. congruence.
  - destruct (g x); now rewrite IH.
Qed.

(** *** The content after a successful write

    The rows a loop of inserts adds, with the row ids the sequence of the
    table hands out. *)

Fixpoint arrangement_rows (now : timestamp) (crd : Z) (l : list str)
         (s : Z) : list arrangement_row :=
  match l with
  | [] => []
  | x :: t =>
      {| a_id := s + 1; a_firm_crd_nb := crd; a_arrangement := x;
         a_created_at := now |} :: arrangement_rows now crd t (s + 1)
  end.

Fixpoint client_type_rows (now : timestamp) (crd : Z)
         (l : list (str * Z)) (s : Z) : list client_type_row :=
  match l with
  | [] => []
  | (k, v) :: t =>
      {| c_id := s + 1; c_firm_crd_nb := crd; c_client_type := k;
         c_aum_value := v; c_created_at := now |}
      :: client_type_rows now crd t (s + 1)
  end.

Fixpoint private_fund_rows (now : timestamp) (crd : Z)
         (l : list (str * str)) (s : Z) : list private_fund_row :=
  match l with
  | [] => []
  | (k, v) :: t =>
      {| p_id := s + 1; p_firm_crd_nb := crd; p_fund_name := k;
         p_fund_id := v; p_created_at := now |}
      :: private_fund_rows now crd t (s + 1)
  end.

Definition after {A} (l : list A) (s : Z) : Z := s + Z.of_nat (List.length l).

Lemma after_nil {A} s : after (@nil A) s = s.
Proof. unfold after; simpl; lia. Qed.

Lemma after_cons {A} (x : A) l s : after l (s + 1) = after (x :: l) s.
Proof. unfold after; simpl List.length; lia. Qed.

Definition add_arrangements now crd (l : list str) (d : database) :=
  set_compensation d
    (tbl_compensation_arrangements d
     ++ arrangement_rows now crd l (seq_compensation_arrangements d))
    (after l (seq_compensation_arrangements d)).

Definition add_client_types now crd (l : list (str * Z)) (d : database) :=
  set_client_types d
    (tbl_client_types d ++ client_type_rows now crd l (seq_client_types d))
    (after l (seq_client_types d)).

Definition add_private_funds now crd (l : list (str * str)) (d : database) :=
  set_private_funds d
    (tbl_private_funds d ++ private_fund_rows now crd l (seq_private_funds d))
    (after l (seq_private_funds d)).

Lemma add_arrangements_nil now crd d : add_arrangements now crd [] d = d.
Proof.
  unfold add_arrangements, set_compensation. destruct d; simpl.
  now rewrite app_nil_r, after_nil.
Qed.

Lemma add_client_types_nil now crd d : add_client_types now crd [] d = d.
Proof.
  unfold add_client_types, set_client_types. destruct d; simpl.
  now rewrite app_nil_r, after_nil.
Qed.

Lemma add_private_funds_nil now crd d : add_private_funds now crd [] d = d.
Proof.
  unfold add_private_funds, set_private_funds. destruct d; simpl.
  now rewrite app_nil_r, after_nil.
Qed.

Lemma add_arrangements_cons now crd x l d :
  add_arrangements now crd l
    (set_compensation d
       (tbl_compensation_arrangements d
        ++ [{| a_id := seq_compensation_arrangements d + 1;
               a_firm_crd_nb := crd; a_arrangement := x;
               a_created_at := now |}])
       (seq_compensation_arrangements d + 1))
  = add_arrangements now crd (x :: l) d.
Proof.
  unfold add_arrangements, set_compensation. simpl.
  now rewrite <- app_assoc, (after_cons x).
Qed.

Lemma add_client_types_cons now crd k v l d :
  add_client_types now crd l
    (set_client_types d
       (tbl_client_types d
        ++ [{| c_id := seq_client_types d + 1; c_firm_crd_nb := crd;
               c_client_type := k; c_aum_value := v;
               c_created_at := now |}])
       (seq_client_types d + 1))
  = add_client_types now crd ((k, v) :: l) d.
Proof.
  unfold add_client_types, set_client_types. simpl.
  now rewrite <- app_assoc, (after_cons (k, v)).
Qed.

Lemma add_private_funds_cons now crd k v l d :
  add_private_funds now crd l
    (set_private_funds d
       (tbl_private_funds d
        ++ [{| p_id := seq_private_funds d + 1; p_firm_crd_nb := crd;
               p_fund_name := k; p_fund_id := v; p_created_at := now |}])
       (seq_private_funds d + 1))
  = add_private_funds now crd ((k, v) :: l) d.
Proof.
  unfold add_private_funds, set_private_funds. simpl.
  now rewrite <- app_assoc, (after_cons (k, v)).
Qed.

(** One insert, once the key is bound and the parent row is there. *)
Lemma insert_compensation_eq now crd x d :
  fits_int64 crd = true -> has_firm crd d = true ->
  insert_compensation now crd x d
  = Ok (set_compensation d
          (tbl_compensation_arrangements d
           ++ [{| a_id := seq_compensation_arrangements d + 1;
                  a_firm_crd_nb := crd; a_arrangement := x;
                  a_created_at := now |}])
          (seq_compensation_arrangements d + 1)).
Proof.
  intros Hc Hf. unfold insert_compensation, check_parent.
  rewrite (bind_int_fits _ Hc). cbn [bind_result]. now rewrite Hf.
Qed.

Lemma insert_client_type_eq now crd k v d :
  fits_int64 crd = true -> has_firm crd d = true ->
  insert_client_type now crd k v d
  = if fits_int64 v
    then Ok (set_client_types d
               (tbl_client_types d
                ++ [{| c_id := seq_client_types d + 1; c_firm_crd_nb := crd;
                       c_client_type := k; c_aum_value := v;
                       c_created_at := now |}])
               (seq_client_types d + 1))
    else Raise OverflowError.
Proof.
  intros Hc Hf. unfold insert_client_type, check_parent.
  rewrite (bind_int_fits _ Hc). cbn [bind_result]. unfold bind_int.
  destruct (fits_int64 v); cbn [bind_result]; [now rewrite Hf | reflexivity].
Qed.

Lemma insert_private_fund_eq now crd k v d :
  fits_int64 crd = true -> has_firm crd d = true ->
  insert_private_fund now crd k v d
  = if fund_taken crd v d then Raise IntegrityError
    else Ok (set_private_funds d
               (tbl_private_funds d
                ++ [{| p_id := seq_private_funds d + 1; p_firm_crd_nb := crd;
                       p_fund_name := k; p_fund_id := v;
                       p_created_at := now |}])
               (seq_private_funds d + 1)).
Proof.
  intros Hc Hf. unfold insert_private_fund, check_parent.
  rewrite (bind_int_fits _ Hc). cbn [bind_result]. now rewrite Hf.
Qed.

(** The loop of [_write_compensation_arrangements]: every insert goes
    through. *)
Lemma insert_compensation_loop now crd l d :
  fits_int64 crd = true -> has_firm crd d = true ->
  apply_all (map (insert_compensation now crd) l) d
  = (Ok tt, add_arrangements now crd l d).
Proof.
  intro Hc. revert d. induction l as [|x l IH]; intros d Hf.
  - now rewrite add_arrangements_nil.
  - cbn [map apply_all]. rewrite insert_compensation_eq by assumption.
    rewrite IH by exact Hf. now rewrite add_arrangements_cons.
Qed.

(** The loop of [_write_client_types] goes through exactly when every
    amount fits the column. *)
Definition amounts (cts : dict aum_arg) : list (str * Z) :=
  map (fun item => (fst item, aum_int (snd item))) cts.

Lemma insert_client_type_loop now crd (cts : dict aum_arg) d d' :
  fits_int64 crd = true -> has_firm crd d = true ->
  apply_all
    (map (fun item => insert_client_type now crd (fst item)
                        (aum_int (snd item))) cts) d = (Ok tt, d')
  <-> forallb (fun kv => fits_int64 (snd kv)) (amounts cts) = true
      /\ d' = add_client_types now crd (amounts cts) d.
Proof.
  intro Hc. revert d. induction cts as [|[k v] l IH]; intros d Hf.
  - cbn. rewrite add_client_types_nil.
    split; [intro H; inversion H; auto | intros [_ ->]; reflexivity].
  - cbn [map apply_all amounts forallb fst snd].
    rewrite insert_client_type_eq by assumption.
    destruct (fits_int64 (aum_int v)).
    + cbn [andb]. rewrite IH by exact Hf. fold (amounts l).
      now rewrite add_client_types_cons.
    + cbn [andb]. split; [discriminate | intros [? _]; discriminate].
Qed.

(** The loop of [_write_private_funds] goes through exactly when the
    fund ids are pairwise distinct and none is taken for the key. *)
Fixpoint distinct (l : list str) : bool :=
  match l with
  | [] => true
  | x :: t => negb (existsb (str_eqb x) t) && distinct t
  end.

Definition none_taken crd (ids : list str) (d : database) : bool :=
  forallb (fun i => negb (fund_taken crd i d)) ids.

Lemma fund_taken_add now crd k v i d s :
  fund_taken crd i
    (set_private_funds d
       (tbl_private_funds d
        ++ [{| p_id := s; p_firm_crd_nb := crd; p_fund_name := k;
               p_fund_id := v; p_created_at := now |}]) s)
  = fund_taken crd i d || str_eqb v i.
Proof.
  unfold fund_taken. cbn [tbl_private_funds set_private_funds].
  rewrite existsb_app. cbn. now rewrite Z.eqb_refl, orb_false_r.
Qed.

Lemma none_taken_add now crd k v ids d s :
  none_taken crd ids
    (set_private_funds d
       (tbl_private_funds d
        ++ [{| p_id := s; p_firm_crd_nb := crd; p_fund_name := k;
               p_fund_id := v; p_created_at := now |}]) s)
  = negb (existsb (str_eqb v) ids) && none_taken crd ids d.
Proof.
  unfold none_taken. induction ids as [|i ids IH]; trivial.
  cbn [forallb existsb]. rewrite IH, fund_taken_add.
  destruct (fund_taken crd i d), (str_eqb v i),
    (existsb (str_eqb v) ids); reflexivity.
Qed.

Lemma insert_private_fund_loop now crd (pfs : dict str) d d' :
  fits_int64 crd = true -> has_firm crd d = true ->
  apply_all
    (map (fun item => insert_private_fund now crd (fst item) (snd item))
         pfs) d = (Ok tt, d')
  <-> distinct (map snd pfs) = true
      /\ none_taken crd (map snd pfs) d = true
      /\ d' = add_private_funds now crd pfs d.
Proof.
  intro Hc. revert d. induction pfs as [|[k v] l IH]; intros d Hf.
  - cbn. rewrite add_private_funds_nil.
    split; [intro H; inversion H; auto | intros (_ & _ & ->); reflexivity].
  - cbn [map apply_all distinct none_taken forallb fst snd].
    rewrite insert_private_fund_eq by assumption.
    destruct (fund_taken crd v d) eqn:T.
    + cbn [negb andb].
      split; [discriminate | intros (_ & ? & _); discriminate].
    + rewrite IH by exact Hf. fold (none_taken crd (map snd l) d).
      rewrite none_taken_add, add_private_funds_cons.
      cbn [negb andb]. rewrite !andb_true_iff. tauto.
Qed.

(** *** One entity's write as a whole *)

Definition fits_opt (z : option Z) : bool :=
  match z with
  | Some v => fits_int64 v
  | None => true
  end.

(** The records the store accepts. *)
Definition writable (crd : Z) (data : firm_data) : bool :=
  fits_int64 crd
  && fits_opt (employee_count data)
  && forallb (fun kv => fits_int64 (snd kv))
             (amounts (get_default (client_types data) []))
  && distinct (map snd (get_default (private_funds data) [])).

Definition new_row now crd (data : firm_data) : firm_row :=
  {| f_firm_crd_nb := crd;
     f_sec_nb := sec_nb data;
     f_business_name := business_name data;
     f_full_legal_name := full_legal_name data;
     f_address := address data;
     f_phone_number := phone_number data;
     f_employee_count := employee_count data;
     f_signatory := signatory data;
     f_created_at := now;
     f_updated_at := now |}.

Definition upserted now crd data (d : database) : database :=
  set_firms d (upsert_row now (new_row now crd data) (tbl_firms d)).

Definition without_compensation crd (d : database) : database :=
  set_compensation d
    (filter (fun r => negb (Z.eqb (a_firm_crd_nb r) crd))
            (tbl_compensation_arrangements d))
    (seq_compensation_arrangements d).

Definition without_client_types crd (d : database) : database :=
  set_client_types d
    (filter (fun r => negb (Z.eqb (c_firm_crd_nb r) crd))
            (tbl_client_types d))
    (seq_client_types d).

Definition without_private_funds crd (d : database) : database :=
  set_private_funds d
    (filter (fun r => negb (Z.eqb (p_firm_crd_nb r) crd))
            (tbl_private_funds d))
    (seq_private_funds d).

(** The content after the write of an accepted record. *)
Definition written now crd (data : firm_data) (d : database) : database :=
  add_private_funds now crd (get_default (private_funds data) [])
    (without_private_funds crd
       (add_client_types now crd
          (amounts (get_default (client_types data) []))
          (without_client_types crd
             (add_arrangements now crd
                (arrangement_list
                   (get_default (compensation_arrangements data) (ArrStr [])))
                (without_compensation crd (upserted now crd data d)))))).

Lemma apply_all_app_ok (s1 s2 : list stmt) d d' :
  apply_all (s1 ++ s2) d = (Ok tt, d')
  <-> exists d1, apply_all s1 d = (Ok tt, d1)
                 /\ apply_all s2 d1 = (Ok tt, d').
Proof.
  rewrite apply_all_app.
  destruct (apply_all s1 d) as [[[]|e] d1].
  - split; [eauto | intros (d2 & H & H'); inversion H; now subst].
  - split; [discriminate | intros (d2 & H & _); discriminate].
Qed.

Lemma has_firm_upsert now row rows crd :
  f_firm_crd_nb row = crd ->
  existsb (fun r => Z.eqb (f_firm_crd_nb r) crd) (upsert_row now row rows)
  = true.
Proof.
  intros <-. induction rows as [|r rest IH]; cbn [upsert_row].
  - cbn. now rewrite Z.eqb_refl.
  - destruct (Z.eqb (f_firm_crd_nb r) (f_firm_crd_nb row)) eqn:E;
      cbn [existsb f_firm_crd_nb]; rewrite ?E, ?IH, ?orb_true_r; trivial.
Qed.

Lemma upsert_ok now crd data d d1 :
  apply_all [upsert_stmt now crd data] d = (Ok tt, d1)
  <-> fits_int64 crd = true /\ fits_opt (employee_count data) = true
      /\ d1 = upserted now crd data d.
Proof.
  cbn [apply_all]. unfold upsert_stmt, upsert_firm, bind_int at 1.
  destruct (fits_int64 crd); cbn [bind_result].
  2:{ split; [discriminate | intros [? _]; discriminate]. }
  unfold upserted, new_row.
  destruct (employee_count data) as [e|]; cbn [bind_opt_int fits_opt].
  - unfold bind_int. destruct (fits_int64 e); cbn [bind_result].
    + split; [intro H; inversion H; auto | intros (_ & _ & ->); trivial].
    + split; [discriminate | intros (_ & ? & _); discriminate].
  - cbn [bind_result].
    split; [intro H; inversion H; auto | intros (_ & _ & ->); trivial].
Qed.

Lemma compensation_ok now crd a d d2 :
  fits_int64 crd = true -> has_firm crd d = true ->
  apply_all (compensation_stmts now crd a) d = (Ok tt, d2)
  <-> d2 = add_arrangements now crd (arrangement_list a)
             (without_compensation crd d).
Proof.
  intros Hc Hf. unfold compensation_stmts. cbn [apply_all].
  unfold delete_compensation. rewrite (bind_int_fits _ Hc).
  cbn [bind_result]. fold (without_compensation crd d).
  rewrite insert_compensation_loop by assumption.
  split; [intro H; inversion H; auto | intros ->; trivial].
Qed.

Lemma client_types_ok now crd cts d d3 :
  fits_int64 crd = true -> has_firm crd d = true ->
  apply_all (client_type_stmts now crd cts) d = (Ok tt, d3)
  <-> forallb (fun kv => fits_int64 (snd kv)) (amounts cts) = true
      /\ d3 = add_client_types now crd (amounts cts)
                (without_client_types crd d).
Proof.
  intros Hc Hf. unfold client_type_stmts. cbn [apply_all].
  unfold delete_client_types. rewrite (bind_int_fits _ Hc).
  cbn [bind_result]. fold (without_client_types crd d).
  now apply insert_client_type_loop.
Qed.

Lemma none_taken_without crd ids d :
  none_taken crd ids (without_private_funds crd d) = true.
Proof.
  unfold none_taken. apply forallb_forall. intros i _.
  apply negb_true_iff. unfold fund_taken, without_private_funds.
  cbn [tbl_private_funds set_private_funds].
  induction (tbl_private_funds d) as [|r rows IH]; trivial.
  cbn [filter]. destruct (Z.eqb (p_firm_crd_nb r) crd) eqn:E; cbn; trivial.
  now rewrite E, IH.
Qed.

Lemma private_funds_ok now crd pfs d d' :
  fits_int64 crd = true -> has_firm crd d = true ->
  apply_all (private_fund_stmts now crd pfs) d = (Ok tt, d')
  <-> distinct (map snd pfs) = true
      /\ d' = add_private_funds now crd pfs (without_private_funds crd d).
Proof.
  intros Hc Hf. unfold private_fund_stmts. cbn [apply_all].
  unfold delete_private_funds. rewrite (bind_int_fits _ Hc).
  cbn [bind_result]. fold (without_private_funds crd d).
  rewrite insert_private_fund_loop by assumption.
  rewrite none_taken_without. tauto.
Qed.

(** The statements of a write all succeed exactly on the accepted
    records, and then leave [written]. *)
Lemma stmts_of_ok now crd data d d' :
  apply_all (stmts_of now crd data) d = (Ok tt, d')
  <-> writable crd data = true /\ d' = written now crd data d.
Proof.
  unfold stmts_of, writable, written. rewrite !andb_true_iff.
  rewrite apply_all_app_ok. split.
  - intros (d1 & H1 & H). apply upsert_ok in H1 as (Hc & He & ->).
    assert (Hf : has_firm crd (upserted now crd data d) = true)
      by (now apply has_firm_upsert).
    apply apply_all_app_ok in H as (d2 & H2 & H).
    apply compensation_ok in H2; trivial. subst d2.
    apply apply_all_app_ok in H as (d3 & H3 & H).
    apply client_types_ok in H3 as (Ha & ->); trivial.
    apply private_funds_ok in H as (Hd & ->); trivial. auto.
  - intros ((((Hc & He) & Ha) & Hd) & ->).
    assert (Hf : has_firm crd (upserted now crd data d) = true)
      by (now apply has_firm_upsert).
    exists (upserted now crd data d). split; [now apply upsert_ok|].
    apply apply_all_app_ok. eexists. split.
    { apply compensation_ok; trivial. }
    apply apply_all_app_ok. eexists. split.
    { apply client_types_ok; trivial. split; trivial. }
    apply private_funds_ok; trivial. split; trivial.
Qed.

(** What one turn of [write] gives, in full. *)
Lemma write_one now crd data d :
  write now [(crd, data)] d =
  if writable crd data then (Ok tt, written now crd data d)
  else (fst (write now [(crd, data)] d), d).
Proof.
  rewrite write_spec. cbn [write_all].
  destruct (apply_all (stmts_of now crd data) d) as [[[]|e] d'] eqn:E.
  - apply stmts_of_ok in E as [-> ->]. reflexivity.
  - destruct (writable crd data) eqn:W; [|reflexivity].
    assert (H : apply_all (stmts_of now crd data) d
                = (Ok tt, written now crd data d))
      by (apply stmts_of_ok; auto).
    congruence.
Qed.

Lemma write_one_ok now crd data d d' :
  write now [(crd, data)] d = (Ok tt, d')
  <-> writable crd data = true /\ d' = written now crd data d.
Proof.
  rewrite write_spec. cbn [write_all].
  rewrite <- stmts_of_ok.
  destruct (apply_all (stmts_of now crd data) d) as [[[]|e] d1];
    split; intro H; inversion H; subst; trivial.
Qed.

(** *** The child rows of an entity, by content *)

Definition stored_compensation (d : database) (crd : Z) : list str :=
  map a_arrangement
      (filter (fun r => Z.eqb (a_firm_crd_nb r) crd)
              (tbl_compensation_arrangements d)).

Definition stored_client_types (d : database) (crd : Z) : list (str * Z) :=
  map (fun r => (c_client_type r, c_aum_value r))
      (filter (fun r => Z.eqb (c_firm_crd_nb r) crd) (tbl_client_types d)).

Definition stored_private_funds (d : database) (crd : Z)
  : list (str * str) :=
  map (fun r => (p_fund_name r, p_fund_id r))
      (filter (fun r => Z.eqb (p_firm_crd_nb r) crd) (tbl_private_funds d)).

Definition entry (kv : str * str) : fund_entry :=
  {| name := fst kv; identification_number := snd kv |}.

Lemma fetch_compensation_stored d crd :
  fits_int64 crd = true ->
  fetch_compensation d crd = Ok (stored_compensation d crd).
Proof.
  intro H. unfold fetch_compensation. now rewrite (bind_int_fits _ H).
Qed.

Lemma fetch_client_types_stored d crd :
  fits_int64 crd = true ->
  fetch_client_types d crd = Ok (dict_of_items (stored_client_types d crd)).
Proof.
  intro H. unfold fetch_client_types. now rewrite (bind_int_fits _ H).
Qed.

Lemma fetch_private_funds_stored d crd :
  fits_int64 crd = true ->
  fetch_private_funds d crd = Ok (map entry (stored_private_funds d crd)).
Proof.
  intro H. unfold fetch_private_funds, stored_private_funds.
  rewrite (bind_int_fits _ H). cbn [bind_result]. now rewrite map_map.
Qed.

Lemma arrangement_rows_key now crd l s :
  Forall (fun r => Z.eqb (a_firm_crd_nb r) crd = true)
         (arrangement_rows now crd l s).
Proof.
  revert s; induction l as [|x l IH]; intro s; cbn; constructor;
    [apply Z.eqb_refl | apply IH].
Qed.

Lemma arrangement_rows_content now crd l s :
  map a_arrangement (arrangement_rows now crd l s) = l.
Proof. revert s; induction l as [|x l IH]; intro s; cbn; now rewrite ?IH. Qed.

Lemma client_type_rows_key now crd l s :
  Forall (fun r => Z.eqb (c_firm_crd_nb r) crd = true)
         (client_type_rows now crd l s).
Proof.
  revert s; induction l as [|[k v] l IH]; intro s; cbn; constructor;
    [apply Z.eqb_refl | apply IH].
Qed.

Lemma client_type_rows_content now crd l s :
  map (fun r => (c_client_type r, c_aum_value r))
      (client_type_rows now crd l s) = l.
Proof.
  revert s; induction l as [|[k v] l IH]; intro s; cbn; now rewrite ?IH.
Qed.

Lemma private_fund_rows_key now crd l s :
  Forall (fun r => Z.eqb (p_firm_crd_nb r) crd = true)
         (private_fund_rows now crd l s).
Proof.
  revert s; induction l as [|[k v] l IH]; intro s; cbn; constructor;
    [apply Z.eqb_refl | apply IH].
Qed.

Lemma private_fund_rows_content now crd l s :
  map (fun r => (p_fund_name r, p_fund_id r))
      (private_fund_rows now crd l s) = l.
Proof.
  revert s; induction l as [|[k v] l IH]; intro s; cbn; now rewrite ?IH.
Qed.

(** After a write, the child rows of the entity are the new sets. *)
Lemma written_compensation now crd data d :
  stored_compensation (written now crd data d) crd
  = arrangement_list
      (get_default (compensation_arrangements data) (ArrStr [])).
Proof.
  unfold stored_compensation, written. cbn.
  rewrite filter_app, filter_none, filter_all
    by apply arrangement_rows_key.
  apply arrangement_rows_content.
Qed.

Lemma written_client_types now crd data d :
  stored_client_types (written now crd data d) crd
  = amounts (get_default (client_types data) []).
Proof.
  unfold stored_client_types, written. cbn.
  rewrite filter_app, filter_none, filter_all
    by apply client_type_rows_key.
  apply client_type_rows_content.
Qed.

Lemma written_private_funds now crd data d :
  stored_private_funds (written now crd data d) crd
  = get_default (private_funds data) [].
Proof.
  unfold stored_private_funds, written. cbn.
  rewrite filter_app, filter_none, filter_all
    by apply private_fund_rows_key.
  apply private_fund_rows_content.
Qed.

(** The rows of the other entities stay. *)
Lemma written_other_compensation now crd data d crd' :
  crd' <> crd ->
  stored_compensation (written now crd data d) crd'
  = stored_compensation d crd'.
Proof.
  intro N. unfold stored_compensation, written. cbn.
  rewrite filter_app.
  rewrite (filter_other (fun r => Z.eqb (a_firm_crd_nb r) crd)).
  2:{ intros r H. apply Z.eqb_eq in H. apply Z.eqb_neq. congruence. }
  assert (E : filter (fun r => Z.eqb (a_firm_crd_nb r) crd')
                (arrangement_rows now crd
                   (arrangement_list
                      (get_default (compensation_arrangements data)
                                   (ArrStr [])))
                   (seq_compensation_arrangements d)) = []).
  { generalize (seq_compensation_arrangements d).
    induction (arrangement_list _) as [|x l IH]; intro s; cbn; trivial.
    assert (Z.eqb crd crd' = false) as -> by (apply Z.eqb_neq; congruence).
    apply IH. }
  now rewrite E, app_nil_r.
Qed.

(** *** The primary key of [firms] *)

Definition primary_key_ok (d : database) : Prop :=
  NoDup (map f_firm_crd_nb (tbl_firms d)).

Lemma upsert_row_keys now new rows :
  map f_firm_crd_nb (upsert_row now new rows)
  = if existsb (fun r => Z.eqb (f_firm_crd_nb r) (f_firm_crd_nb new)) rows
    then map f_firm_crd_nb rows
    else map f_firm_crd_nb rows ++ [f_firm_crd_nb new].
Proof.
  induction rows as [|r rest IH]; cbn [upsert_row existsb map app]; trivial.
  destruct (Z.eqb (f_firm_crd_nb r) (f_firm_crd_nb new)) eqn:E;
    cbn [orb map f_firm_crd_nb]; trivial.
  rewrite IH. now destruct (existsb _ rest).
Qed.

Lemma written_primary_key now crd data d :
  primary_key_ok d -> primary_key_ok (written now crd data d).
Proof.
  unfold primary_key_ok, written. cbn. rewrite upsert_row_keys.
  destruct (existsb _ (tbl_firms d)) eqn:E; trivial.
  intro H. apply NoDup_app; trivial.
  - repeat constructor. intros [].
  - intros k Hk [<-|[]]. apply in_map_iff in Hk as (r & Hr & Hin).
    assert (existsb (fun r => Z.eqb (f_firm_crd_nb r)
                       (f_firm_crd_nb (new_row now crd data)))
                    (tbl_firms d) = true).
    { apply existsb_exists. exists r. split; trivial.
      now rewrite Hr, Z.eqb_refl. }
    congruence.
Qed.

Lemma count_key_le_1 (rows : list firm_row) crd :
  NoDup (map f_firm_crd_nb rows) ->
  (List.length (filter (fun r => Z.eqb (f_firm_crd_nb r) crd) rows) <= 1)%nat.
Proof.
  induction rows as [|r rest IH]; cbn; [lia|]. intro H.
  inversion H as [|? ? Hn Hd]; subst.
  destruct (Z.eqb (f_firm_crd_nb r) crd) eqn:E; [|auto].
  apply Z.eqb_eq in E. cbn.
  assert (F : filter (fun r => Z.eqb (f_firm_crd_nb r) crd) rest = []).
  { destruct (filter _ rest) as [|r' l] eqn:F; trivial. exfalso.
    assert (Hin : In r' (filter (fun r => Z.eqb (f_firm_crd_nb r) crd) rest))
      by (rewrite F; now left).
    apply filter_In in Hin as [Hin Hk]. apply Z.eqb_eq in Hk.
    apply Hn. rewrite E, <- Hk. now apply in_map. }
  rewrite F. cbn. lia.
Qed.

(** After a write there is exactly one row of [firms] for the key. *)
Lemma written_one_row now crd data d :
  primary_key_ok d ->
  List.length (firm_rows (written now crd data d) crd) = 1%nat.
Proof.
  intro H. apply (written_primary_key now crd data) in H.
  pose proof (count_key_le_1 _ crd H) as Hle.
  unfold firm_rows.
  assert (Hex : existsb (fun r => Z.eqb (f_firm_crd_nb r) crd)
                        (tbl_firms (written now crd data d)) = true)
    by (unfold written; cbn; now apply has_firm_upsert).
  apply existsb_exists in Hex as (r & Hin & Hk).
  assert (Hf : In r (filter (fun r => Z.eqb (f_firm_crd_nb r) crd)
                            (tbl_firms (written now crd data d))))
    by (apply filter_In; auto).
  destruct (filter _ _) as [|? [|? ?]]; cbn in *; [tauto | lia | lia].
Qed.

End SinkFacts.

(** ** Claims about the storage sink *)

Import Sqlite DatabaseSink SinkFacts.

Lemma write_all_app now (l1 l2 : list (Z * firm_data)) d :
  write_all now (l1 ++ l2) d =
  match write_all now l1 d with
  | (Ok _, d1) => write_all now l2 d1
  | (Raise e, d1) => (Raise e, d1)
  end.
Proof.
  revert d; induction l1 as [|[crd data] l1 IH]; intro d;
    cbn [app write_all]; trivial.
  destruct (apply_all (stmts_of now crd data) d) as [[[]|e] d'];
    [apply IH | reflexivity].
Qed.

Lemma dict_set_fresh {V} (k : str) (v : V) (d : dict V) :
  ~ In k (keys d) -> dict_set k v d = d ++ [(k, v)].
Proof.
  induction d as [|[k' v'] d IH]; cbn; trivial. intro H.
  destruct (str_eqb k k') eqn:E.
  - apply str_eqb_eq in E. subst. exfalso. apply H. now left.
  - rewrite IH; [reflexivity | intro Hin; apply H; now right].
Qed.

Lemma dict_of_items_wf {V} (items : dict V) :
  dict_wf items -> dict_of_items items = items.
Proof.
  unfold dict_of_items, dict_wf.
  assert (H : forall acc : dict V,
             NoDup (keys acc ++ keys items) ->
             fold_left (fun d kv => dict_set (fst kv) (snd kv) d) items acc
             = acc ++ items).
  { induction items as [|[k v] items IH]; intros acc Hn; cbn.
    - now rewrite app_nil_r.
    - cbn in Hn. rewrite dict_set_fresh.
      + rewrite IH; [now rewrite <- app_assoc|].
        unfold keys in *. rewrite map_app, <- app_assoc. exact Hn.
      + apply NoDup_remove_2 in Hn. intro Hin. apply Hn.
        apply in_or_app. now left. }
  intro Hn. now apply (H []).
Qed.

Lemma amounts_keys (cts : dict aum_arg) : keys (amounts cts) = keys cts.
Proof. unfold keys, amounts. rewrite map_map. reflexivity. Qed.

(** A record for the examples: the one of the repository's test suite,
    with the amounts given as a number and as a string. *)
Definition sample_data : firm_data :=
  {| sec_nb := Some (py "801-12345");
     business_name := Some (py "Test Firm 1");
     full_legal_name := Some (py "Test Firm One LLC");
     address := Some (py "123 Test St, Test City, TS 12345");
     phone_number := Some (py "555-1234");
     employee_count := Some 50%Z;
     signatory := Some (py "John Doe");
     compensation_arrangements :=
       Some (ArrList [PyStr "Percentage of AUM"; PyStr "Performance-based fees"]);
     client_types :=
       Some [(py "Individuals", AumInt 5000000);
             (py "Corporations", AumStr "10,000,000")];
     private_funds := Some [(py "XYZ Fund", py "805-123456")] |}.

(** A record the store refuses at its last child collection: two funds
    under one identifier. *)
Definition clashing_data : firm_data :=
  {| sec_nb := None;
     business_name := Some (py "Test Firm 1");
     full_legal_name := None;
     address := None;
     phone_number := None;
     employee_count := None;
     signatory := None;
     compensation_arrangements := Some (ArrStr "Commissions");
     client_types := Some [];
     private_funds := Some [(py "A Fund", py "805-1"); (py "B Fund", py "805-1")] |}.

(** A record without the three collection keys. *)
Definition bare_data : firm_data :=
  {| sec_nb := None;
     business_name := Some (py "Test Firm 1");
     full_legal_name := None;
     address := None;
     phone_number := None;
     employee_count := None;
     signatory := None;
     compensation_arrangements := None;
     client_types := None;
     private_funds := None |}.

Definition sample_db : database :=
  snd (write 1 [(160882%Z, sample_data)] empty_db).



(** C2. Atomic write with rollback: when a step of an entity's write
    fails (the upsert, a delete or an insert), the turn of the loop ends
    with the content the store had before it, and [write] raises that
    same exception to its caller; what the entities before it had
    committed stays. *)
Theorem write_rolls_back (now : timestamp) (before : list (Z * firm_data))
        (crd : Z) (data : firm_data) (rest : list (Z * firm_data))
        (d d1 : database) (e : exn) (c' : connection) :
  write now before d = (Ok tt, d1) ->
  write_steps now crd data {| db := d1; journal := Some d1 |}
  = (Raise e, c') ->
  write_firm now crd data (connect d1) = (Raise e, connect d1)
  /\ write now (before ++ (crd, data) :: rest) d = (Raise e, d1).
Proof.
  intros Hb Hs.
  rewrite write_steps_in_txn with (j := d1) in Hs by reflexivity.
  cbn [db] in Hs.
  assert (Ha : exists d', apply_all (stmts_of now crd data) d1 = (Raise e, d')).
  { destruct (apply_all (stmts_of now crd data) d1) as [[[]|e'] d'];
      [discriminate|]. inversion Hs; subst. eauto. }
  destruct Ha as [d' Ha]. split.
  - rewrite write_firm_spec by reflexivity. cbn [db connect]. now rewrite Ha.
  - rewrite write_spec in *. rewrite write_all_app, Hb.
    cbn [write_all]. now rewrite Ha.
Qed.

Lemma write_rolls_back_witness :
  write 1 [(160882%Z, sample_data)] empty_db = (Ok tt, sample_db)
  /\ (exists c', write_steps 1 160882 clashing_data
                   {| db := sample_db; journal := Some sample_db |}
                 = (Raise IntegrityError, c')
                 /\ stored_compensation (db c') 160882 = [py "Commissions"])
  /\ write_firm 1 160882 clashing_data (connect sample_db)
     = (Raise IntegrityError, connect sample_db)
  /\ write 1 ([(160882%Z, sample_data)] ++ (160882%Z, clashing_data) :: [])
           empty_db
     = (Raise IntegrityError, sample_db).
Proof.
  split; [vm_compute; reflexivity|]. split.
  - exists (snd (write_steps 1 160882 clashing_data
                   {| db := sample_db; journal := Some sample_db |})).
    split; vm_compute; reflexivity.
  - apply (@write_rolls_back 1 [(160882%Z, sample_data)] 160882 clashing_data
             [] empty_db sample_db IntegrityError
             (snd (write_steps 1 160882 clashing_data
                     {| db := sample_db; journal := Some sample_db |})));
      vm_compute; reflexivity.
Defined.

(** C10. A record that omits a child-collection key is written as if
    the collection were empty: the rows of that kind the entity had are
    deleted and none is inserted, so the fetcher of that kind returns
    nothing for the entity. *)
Theorem omitted_collection_is_emptied (now : timestamp) (crd : Z)
        (data : firm_data) (d d' : database) :
  write now [(crd, data)] d = (Ok tt, d') ->
  (compensation_arrangements data = None ->
   stored_compensation d' crd = [] /\ fetch_compensation d' crd = Ok [])
  /\ (client_types data = None ->
      stored_client_types d' crd = [] /\ fetch_client_types d' crd = Ok [])
  /\ (private_funds data = None ->
      stored_private_funds d' crd = [] /\ fetch_private_funds d' crd = Ok []).
Proof.
  intro H. apply write_one_ok in H as [W ->].
  assert (Hc : fits_int64 crd = true).
  { unfold writable in W. rewrite !andb_true_iff in W. tauto. }
  repeat split.
  - rewrite written_compensation, H. reflexivity.
  - rewrite fetch_compensation_stored, written_compensation, H by exact Hc.
    reflexivity.
  - rewrite written_client_types, H. reflexivity.
  - rewrite fetch_client_types_stored, written_client_types, H by exact Hc.
    reflexivity.
  - rewrite written_private_funds, H. reflexivity.
  - rewrite fetch_private_funds_stored, written_private_funds, H by exact Hc.
    reflexivity.
Qed.

Lemma omitted_collection_is_emptied_witness :
  (stored_compensation sample_db 160882 <> []
   /\ stored_client_types sample_db 160882 <> []
   /\ stored_private_funds sample_db 160882 <> [])
  /\ write 2 [(160882%Z, bare_data)] sample_db
     = (Ok tt, snd (write 2 [(160882%Z, bare_data)] sample_db))
  /\ (compensation_arrangements bare_data = None ->
      stored_compensation (snd (write 2 [(160882%Z, bare_data)] sample_db))
                          160882 = []
      /\ fetch_compensation (snd (write 2 [(160882%Z, bare_data)] sample_db))
                            160882 = Ok [])
  /\ (client_types bare_data = None ->
      stored_client_types (snd (write 2 [(160882%Z, bare_data)] sample_db))
                          160882 = []
      /\ fetch_client_types (snd (write 2 [(160882%Z, bare_data)] sample_db))
                            160882 = Ok [])
  /\ (private_funds bare_data = None ->
      stored_private_funds (snd (write 2 [(160882%Z, bare_data)] sample_db))
                           160882 = []
      /\ fetch_private_funds (snd (write 2 [(160882%Z, bare_data)] sample_db))
                             160882 = Ok []).
Proof.
  split; [repeat split; vm_compute; discriminate|].
  split; [vm_compute; reflexivity|].
  apply (@omitted_collection_is_emptied 2 160882%Z bare_data sample_db
           (snd (write 2 [(160882%Z, bare_data)] sample_db))).
  vm_compute; reflexivity.
Defined.







(** ** Claims about the field extractor *)

Import Re Fitz PdfTransformer.

Lemma find_page_none (d : doc) :
  (forall p, In p d -> search_for p "Compensation Arrangements" = []) ->
  find_page d = None.
Proof.
  induction d as [|p d IH]; intro H; cbn [find_page]; trivial.
  rewrite (H p) by now left. cbn [nonempty].
  apply IH. intros q Hq. apply H. now right.
Qed.

(** A page without any text, and a one-page file made of it. *)
Definition blank_page : page :=
  {| search_for := fun _ => []; get_pixmap := fun _ => [] |}.

(** C3. When the anchor phrase is on no page, the routine for the
    compensation arrangements does not return an empty list: [page] is
    still [None] when the loop over the labels calls [page.search_for],
    the call raises [AttributeError], and [transform] passes it on. *)
Theorem missing_anchor_raises (full_text : str) (d : doc) :
  (forall p, In p d -> search_for p "Compensation Arrangements" = []) ->
  _extract_compensation_arrangements d = Raise AttributeError
  /\ transform full_text d = Raise AttributeError.
Proof.
  intro H. apply find_page_none in H.
  assert (E : _extract_compensation_arrangements d = Raise AttributeError).
  { unfold _extract_compensation_arrangements. rewrite H. reflexivity. }
  split; [exact E|]. unfold transform. rewrite E. reflexivity.
Qed.

Lemma missing_anchor_raises_witness :
  (forall p, In p [blank_page] ->
             search_for p "Compensation Arrangements" = [])
  /\ _extract_compensation_arrangements [blank_page] = Raise AttributeError
  /\ transform "CRD Number: 160882" [blank_page] = Raise AttributeError.
Proof.
  assert (H : forall p, In p [blank_page] ->
                        search_for p "Compensation Arrangements" = []).
  { intros p [<-|[]]. reflexivity. }
  split; [exact H|].
  apply (@missing_anchor_raises "CRD Number: 160882" [blank_page] H).
Defined.

(** The number of samples strictly below a value. *)
Fixpoint pixels_below (v : nat) (samples : list Byte.byte) : nat :=
  match samples with
  | [] => 0
  | b :: rest =>
      if Nat.ltb (Byte.to_nat b) v then S (pixels_below v rest)
      else pixels_below v rest
  end.

Lemma dark_count_below v samples :
  dark_count v samples = pixels_below v samples.
Proof.
  unfold dark_count.
  induction samples as [|b rest IH]; cbn [filter pixels_below]; trivial.
  destruct (Nat.ltb (Byte.to_nat b) v); cbn [List.length]; now rewrite ?IH.
Qed.

Lemma pixels_below_le v samples :
  (pixels_below v samples <= List.length samples)%nat.
Proof.
  induction samples as [|b rest IH]; cbn [pixels_below List.length]; [lia|].
  destruct (Nat.ltb (Byte.to_nat b) v); lia.
Qed.

Lemma checked_iff (p : page) (r : rect) :
  _is_checkbox_checked p r default_threshold = true
  <-> (12 * Z.of_nat (List.length (get_pixmap p r))
       < 100 * Z.of_nat (pixels_below 150 (get_pixmap p r)))%Z.
Proof.
  unfold _is_checkbox_checked, default_threshold.
  rewrite dark_count_below.
  pose proof (pixels_below_le 150 (get_pixmap p r)) as Hle.
  set (n := pixels_below 150 (get_pixmap p r)) in *.
  set (size := List.length (get_pixmap p r)) in *.
  rewrite negb_true_iff, <- not_true_iff_false, Qle_bool_iff.
  unfold Qle, Qdiv, Qmult, Qinv, inject_Z. cbn [Qnum Qden].
  destruct size as [|size'].
  - assert (n = 0%nat) as -> by lia. cbn. lia.
  - rewrite Nat2Z.inj_succ. unfold Z.succ.
    destruct (Z.of_nat size' + 1)%Z as [|q|q] eqn:E; try lia.
    cbn [Qnum Qden]. rewrite Pos.mul_1_l. lia.
Qed.

(** C7. A check box is classified as checked exactly when the pixels
    whose value is strictly below 150 are strictly more than 12 in 100 of
    the pixels of the region; the answer depends on the samples of the
    region only. *)
Theorem checkbox_rule (p : page) (r : rect) :
  (_is_checkbox_checked p r default_threshold = true
   <-> (12 * Z.of_nat (List.length (get_pixmap p r))
        < 100 * Z.of_nat (pixels_below 150 (get_pixmap p r)))%Z)
  /\ (forall p' r', get_pixmap p' r' = get_pixmap p r ->
        _is_checkbox_checked p' r' default_threshold
        = _is_checkbox_checked p r default_threshold).
Proof.
  split; [apply checked_iff|].
  intros p' r' E. unfold _is_checkbox_checked. now rewrite E.
Qed.

(** A page whose every clip is 3 dark pixels out of 20, and one whose
    every clip is 2 out of 20. *)
Definition page_of (samples : list Byte.byte) : page :=
  {| search_for := fun _ => []; get_pixmap := fun _ => samples |}.

Definition three_in_twenty : list Byte.byte :=
  repeat Byte.x00 3 ++ repeat Byte.xff 17.

Definition two_in_twenty : list Byte.byte :=
  repeat Byte.x95 2 ++ repeat Byte.x96 18.

Lemma checkbox_rule_witness :
  get_pixmap (page_of three_in_twenty) (Rect 0 0 6 8)
  = get_pixmap (page_of three_in_twenty) (Rect 1 1 7 9)
  /\ _is_checkbox_checked (page_of three_in_twenty) (Rect 1 1 7 9)
                          default_threshold = true
  /\ _is_checkbox_checked (page_of two_in_twenty) (Rect 1 1 7 9)
                          default_threshold = false
  /\ _is_checkbox_checked (page_of three_in_twenty) (Rect 0 0 6 8)
                          default_threshold
     = _is_checkbox_checked (page_of three_in_twenty) (Rect 1 1 7 9)
                            default_threshold.
Proof.
  split; [reflexivity|]. split; [vm_compute; reflexivity|].
  split; [vm_compute; reflexivity|].
  apply (proj2 (checkbox_rule (page_of three_in_twenty) (Rect 1 1 7 9))
               (page_of three_in_twenty) (Rect 0 0 6 8)).
  reflexivity.
Defined.

(** *** The address *)

Definition opt_list (x : option str) : list str :=
  match x with
  | Some v => [v]
  | None => []
  end.

Definition joined (parts : list str) : list str :=
  match parts with
  | [] => []
  | _ :: _ => [join ", " parts]
  end.

(** The assembly rule as the design document words it: with the domestic
    country, the postal code always goes onto the joined city and
    region. *)
Definition address_rule_as_stated (c : components) : option str :=
  let locality :=
    if is_united_states (country c)
    then match joined (opt_list (city c) ++ opt_list (state c)),
               postal_code c with
         | [cs], Some zip => [cs ++ py " " ++ zip]
         | cs, zip => cs ++ opt_list zip
         end
    else opt_list (city c) ++ opt_list (postal_code c) in
  match joined (opt_list (street1 c) ++ opt_list (street2 c))
        ++ locality ++ opt_list (country c) with
  | [] => None
  | parts => Some (join ", " parts)
  end.

(** The rule the code follows: with the domestic country, the postal
    code goes onto the joined city and region when the region was
    recovered, and is a part of its own otherwise. *)
Definition address_rule (c : components) : option str :=
  let locality :=
    if is_united_states (country c)
    then match state c, postal_code c with
         | Some st, Some zip =>
             [join ", " (opt_list (city c) ++ [st]) ++ py " " ++ zip]
         | Some st, None => [join ", " (opt_list (city c) ++ [st])]
         | None, zip => opt_list (city c) ++ opt_list zip
         end
    else opt_list (city c) ++ opt_list (postal_code c) in
  match joined (opt_list (street1 c) ++ opt_list (street2 c))
        ++ locality ++ opt_list (country c) with
  | [] => None
  | parts => Some (join ", " parts)
  end.

Definition domestic_without_state : str :=
  py "Country: United States" ++ [nl]
  ++ py "ZIP+4/Postal Code: 62704 If this address is a private residence"
  ++ [nl] ++ py "City: Springfield".

(** C8, as stated, fails: a domestic address whose region is not
    recovered has its postal code as a part of its own. *)
Lemma address_counterexample :
  address_components domestic_without_state
  = {| street1 := None; street2 := None;
       city := Some (py "Springfield"); state := None;
       country := Some (py "United States");
       postal_code := Some (py "62704") |}
  /\ _extract_address domestic_without_state
     = Some (py "Springfield, 62704, United States")
  /\ address_rule_as_stated (address_components domestic_without_state)
     = Some (py "Springfield 62704, United States")
  /\ _extract_address domestic_without_state
     <> address_rule_as_stated (address_components domestic_without_state).
Proof.
  repeat split; try (vm_compute; reflexivity).
  vm_compute. discriminate.
Qed.

Lemma component_nonempty text pattern v :
  component text pattern = Some v -> v <> [].
Proof.
  unfold component. destruct (search DOTALL pattern text) as [m|];
    [|discriminate].
  destruct (strip (group 1 m)) as [|a s]; cbn; [discriminate|].
  intro H; inversion H; discriminate.
Qed.

Lemma assemble_address_rule (c : components) :
  assemble_address c = address_rule c.
Proof.
  unfold assemble_address, address_rule.
  destruct c as [[s1|] [s2|] [ci|] [st|] [co|] [zip|]];
    cbn [street1 street2 city state country postal_code];
    destruct (is_united_states _); reflexivity.
Qed.

Lemma app_nonempty (a b : str) : a <> [] -> a ++ b <> [].
Proof. destruct a; [congruence | discriminate]. Qed.

Lemma sep_nonempty (a b : str) : a ++ py ", " ++ b <> [].
Proof. destruct a; discriminate. Qed.

Lemma space_nonempty (a b : str) : a ++ py " " ++ b <> [].
Proof. destruct a; discriminate. Qed.

Lemma address_rule_nonempty (c : components) (s : str) :
  (forall v, street1 c = Some v -> v <> []) ->
  (forall v, street2 c = Some v -> v <> []) ->
  (forall v, city c = Some v -> v <> []) ->
  (forall v, state c = Some v -> v <> []) ->
  (forall v, country c = Some v -> v <> []) ->
  (forall v, postal_code c = Some v -> v <> []) ->
  address_rule c = Some s -> s <> [].
Proof.
  unfold address_rule.
  destruct c as [[s1|] [s2|] [ci|] [st|] [co|] [zip|]];
    cbn [street1 street2 city state country postal_code];
    intros H1 H2 H3 H4 H5 H6;
    destruct (is_united_states _);
    cbn [opt_list joined app join]; intro H; inversion H; subst;
    repeat first
      [ apply sep_nonempty | apply space_nonempty
      | solve [auto] | rewrite <- !app_assoc | apply app_nonempty ].
Qed.

(** C8, amended. The composed address is the recovered street lines
    joined by [", "], then the locality, then the country when present,
    all joined by [", "].  With the domestic country the locality is the
    city and the region joined, and the postal code goes onto that joined
    string, after a space, when the region was recovered; when it was
    not, the postal code is a part of its own after the city.  With
    another country, or none, the city and the postal code are parts of
    their own.  With no component recovered the address is [None], and it
    is never the empty string. *)
Theorem address_assembly (text : str) :
  _extract_address text = address_rule (address_components text)
  /\ (forall s, _extract_address text = Some s -> s <> [])
  /\ (address_components text
      = {| street1 := None; street2 := None; city := None; state := None;
           country := None; postal_code := None |} ->
      _extract_address text = None).
Proof.
  unfold _extract_address. rewrite assemble_address_rule.
  split; [reflexivity|]. split.
  - intro s. apply address_rule_nonempty; unfold address_components;
      cbn [street1 street2 city state country postal_code];
      intro v; apply component_nonempty.
  - intros ->. reflexivity.
Qed.

Lemma address_assembly_witness :
  address_components (py "no address here")
  = {| street1 := None; street2 := None; city := None; state := None;
       country := None; postal_code := None |}
  /\ _extract_address (py "no address here") = None.
Proof.
  assert (H : address_components (py "no address here")
              = {| street1 := None; street2 := None; city := None;
                   state := None; country := None; postal_code := None |})
    by (vm_compute; reflexivity).
  split; [exact H|].
  apply (proj2 (proj2 (address_assembly (py "no address here"))) H).
Defined.

(** *** What a match tells about the text

    A successful [run] ends in its continuation, on a suffix of the
    input; a repetition has consumed characters of its class. *)

Lemma eat_suffix fl l s s' :
  eat fl l s = Some s' -> (List.length s' <= List.length s)%nat.
Proof.
  revert s; induction l as [|a l IH]; intros [|c s]; cbn;
    try discriminate; try (intro H; inversion H; subst; cbn; lia).
  destruct (chr_eq fl a c); [|discriminate].
  intro H. apply IH in H. lia.
Qed.

Lemma eat_exact l s s' : eat NOFLAG l s = Some s' -> s = l ++ s'.
Proof.
  revert s; induction l as [|a l IH]; intros [|c s]; cbn;
    try discriminate; try (intro H; inversion H; reflexivity).
  destruct (Ascii.eqb a c) eqn:E; [|discriminate].
  apply Ascii.eqb_eq in E. subst. intro H. now rewrite (IH _ H).
Qed.

Lemma rep_greedy_inv ok lo s k res :
  rep_greedy ok lo s k = Some res ->
  exists w s', s = w ++ s' /\ Forall (fun c => ok c = true) w
               /\ (lo <= List.length w)%nat /\ k s' = Some res.
Proof.
  revert lo; induction s as [|c t IH]; intro lo; cbn [rep_greedy].
  - destruct (Nat.eqb lo 0) eqn:E; [|discriminate].
    apply Nat.eqb_eq in E. intro H. exists [], []. cbn. repeat split; auto; lia.
  - assert (Hstop : (if Nat.eqb lo 0 then k (c :: t) else None) = Some res ->
              exists w s', c :: t = w ++ s'
                           /\ Forall (fun c => ok c = true) w
                           /\ (lo <= List.length w)%nat /\ k s' = Some res).
    { destruct (Nat.eqb lo 0) eqn:E; [|discriminate].
      apply Nat.eqb_eq in E. intro H. exists [], (c :: t). cbn.
      repeat split; auto; lia. }
    destruct (ok c) eqn:Hc; [|exact Hstop].
    unfold or_else. destruct (rep_greedy ok (pred lo) t k) as [x|] eqn:R;
      [|exact Hstop].
    intro H; inversion H; subst x.
    apply IH in R as (w & s' & -> & Hw & Hlo & Hk).
    exists (c :: w), s'. cbn. repeat split; auto; lia.
Qed.

Lemma rep_lazy_inv ok lo s k res :
  rep_lazy ok lo s k = Some res ->
  exists w s', s = w ++ s' /\ Forall (fun c => ok c = true) w
               /\ (lo <= List.length w)%nat /\ k s' = Some res.
Proof.
  revert lo; induction s as [|c t IH]; intro lo; cbn [rep_lazy].
  - destruct (Nat.eqb lo 0) eqn:E; [|discriminate].
    apply Nat.eqb_eq in E. intro H. exists [], []. cbn. repeat split; auto; lia.
  - assert (Hmore : forall lo', (lo <= S lo')%nat ->
              (if ok c then rep_lazy ok lo' t k else None) = Some res ->
              exists w s', c :: t = w ++ s'
                           /\ Forall (fun c => ok c = true) w
                           /\ (lo <= List.length w)%nat /\ k s' = Some res).
    { intros lo' Hl. destruct (ok c) eqn:Hc; [|discriminate]. intro R.
      apply IH in R as (w & s' & -> & Hw & Hlo & Hk).
      exists (c :: w), s'. cbn. repeat split; auto; lia. }
    destruct (Nat.eqb lo 0) eqn:E.
    + apply Nat.eqb_eq in E. unfold or_else.
      destruct (k (c :: t)) as [x|] eqn:K.
      * intro H; inversion H; subst x. exists [], (c :: t). cbn.
        repeat split; auto; lia.
      * apply Hmore. lia.
    + apply Nat.eqb_neq in E. apply Hmore. lia.
Qed.

Lemma run_from_k fl r s c k res :
  run fl r s c k = Some res ->
  exists s' c', k s' c' = Some res
                /\ (List.length s' <= List.length s)%nat.
Proof.
  revert s c k; induction r as [l|cs lo g|r1 IH1 r2 IH2|r1 IH1 r2 IH2
                                |n r IH|r IH| |]; intros s c k; cbn [run].
  - destruct (eat fl l s) as [s'|] eqn:E; [|discriminate].
    intro H. exists s', c. split; [exact H | eapply eat_suffix; eauto].
  - destruct g; intro H;
      [apply rep_greedy_inv in H | apply rep_lazy_inv in H];
      destruct H as (w & s' & -> & _ & _ & H); exists s', c;
      (split; [exact H | rewrite length_app; lia]).
  - intro H. apply IH1 in H as (s1 & c1 & H & L1).
    apply IH2 in H as (s2 & c2 & H & L2). exists s2, c2. split; [exact H|lia].
  - unfold or_else. destruct (run fl r1 s c k) as [x|] eqn:R.
    + intro H; inversion H; subst x. now apply IH1 in R.
    + apply IH2.
  - intro H. apply IH in H as (s' & c' & H & L). eauto.
  - destruct (run fl r s c (fun s' c' => Some (s', c'))) as [[s1 c1]|];
      [|discriminate].
    intro H. exists s, c1. split; [exact H | lia].
  - destruct s as [|x [|y t]]; try discriminate.
    + intro H. exists [], c. split; [exact H | cbn; lia].
    + destruct (Ascii.eqb x nl); [|discriminate].
      intro H. exists [x], c. split; [exact H | cbn; lia].
  - destruct s as [|x t]; [|discriminate].
    intro H. exists [], c. split; [exact H | cbn; lia].
Qed.

(** The last element of a sequence is run on what the others leave. *)
Lemma run_seq_last fl rs r s c k res :
  run fl (seq (rs ++ [r])) s c k = Some res ->
  exists s1 c1, run fl r s1 c1 k = Some res
                /\ (List.length s1 <= List.length s)%nat.
Proof.
  revert s c; induction rs as [|a rs IH]; intros s c.
  - cbn [app seq]. intro H. exists s, c. split; [exact H | lia].
  - assert (E : seq ((a :: rs) ++ [r]) = Cat a (seq (rs ++ [r]))).
    { cbn [app seq]. destruct (rs ++ [r]) eqn:X; [|reflexivity].
      now destruct rs. }
    rewrite E. cbn [run]. intro H.
    apply run_from_k in H as (s1 & c1 & H & L1).
    apply IH in H as (s2 & c2 & H & L2). exists s2, c2. split; [exact H|lia].
Qed.

(** A group that closes a pattern and is a literal followed by a
    repetition: what it captures. *)
Lemma closing_group_lit_rep fl n l cs lo s c s' c' :
  fl = NOFLAG ->
  run fl (Grp n (Cat (Lit l) (Rep cs lo true))) s c
      (fun s' c' => Some (s', c')) = Some (s', c') ->
  exists w, group n c' = l ++ w
            /\ Forall (fun x => cs_mem fl cs x = true) w
            /\ (lo <= List.length w)%nat.
Proof.
  intros -> H. cbn [run] in H.
  destruct (eat NOFLAG l s) as [s1|] eqn:E; [|discriminate].
  apply eat_exact in E. subst s.
  apply rep_greedy_inv in H as (w & s2 & -> & Hw & Hlo & H).
  inversion H; subst. exists w. split; [|auto].
  unfold group. cbn [group_opt]. rewrite Nat.eqb_refl.
  rewrite !length_app.
  replace (List.length l + (List.length w + List.length s')
           - List.length s')%nat
    with (List.length (l ++ w)) by (rewrite length_app; lia).
  rewrite app_assoc. now rewrite firstn_app, Nat.sub_diag, firstn_all,
    firstn_O, app_nil_r.
Qed.

(** A group that closes a pattern and is one repetition. *)
Lemma closing_group_rep fl n cs lo s c s' c' :
  run fl (Grp n (Rep cs lo true)) s c (fun s' c' => Some (s', c'))
  = Some (s', c') ->
  exists w, group n c' = w
            /\ Forall (fun x => cs_mem fl cs x = true) w
            /\ (lo <= List.length w)%nat
            /\ (List.length w <= List.length s)%nat.
Proof.
  intro H. cbn [run] in H.
  apply rep_greedy_inv in H as (w & s2 & -> & Hw & Hlo & H).
  inversion H; subst. exists w. split; [|rewrite length_app; auto with arith].
  unfold group. cbn [group_opt]. rewrite Nat.eqb_refl.
  rewrite length_app.
  replace (List.length w + List.length s' - List.length s')%nat
    with (List.length w) by lia.
  now rewrite firstn_app, Nat.sub_diag, firstn_all, firstn_O, app_nil_r.
Qed.

Lemma search_found fl r s c :
  search fl r s = Some c ->
  exists s0 s', match_here fl r s0 = Some (s', c)
                /\ (List.length s0 <= List.length s)%nat.
Proof.
  induction s as [|x t IH]; cbn [search].
  - destruct (match_here fl r []) as [[s' c']|] eqn:E; [|discriminate].
    intro H; inversion H; subst. exists [], s'. auto.
  - destruct (match_here fl r (x :: t)) as [[s' c']|] eqn:E.
    + intro H; inversion H; subst. exists (x :: t), s'. auto.
    + intro H. apply IH in H as (s0 & s' & H & L).
      exists s0, s'. split; [exact H | cbn; lia].
Qed.

Lemma findall_found fl r s skip a b :
  In (a, b) (findall_from fl r s skip) ->
  exists s0 s' c, match_here fl r s0 = Some (s', c)
                  /\ a = group 1 c /\ b = group 2 c.
Proof.
  revert skip; induction s as [|x t IH]; intro skip;
    destruct skip as [|k]; cbn [findall_from].
  - destruct (match_here fl r []) as [[s' c]|] eqn:E; [|intros []].
    intros [H|[]]. inversion H; subst. exists [], s', c. auto.
  - intros [].
  - destruct (match_here fl r (x :: t)) as [[s' c]|] eqn:E.
    + intros [H|H]; [|eapply IH; eauto].
      inversion H; subst. exists (x :: t), s', c. auto.
    + apply IH.
  - apply IH.
Qed.

(** *** Private-fund identifiers *)

(** [805-] followed by digits *)
Definition is_fund_id (s : str) : bool :=
  match drop_prefix (py "805-") s with
  | Some ds => nonempty ds && forallb is_digit ds
  | None => false
  end.

Lemma digit_not_space c : is_digit c = true -> is_space c = false.
Proof.
  destruct c as [b0 b1 b2 b3 b4 b5 b6 b7].
  destruct b0, b1, b2, b3, b4, b5, b6, b7; vm_compute; congruence.
Qed.

Lemma lstrip_id c t : is_space c = false -> lstrip (c :: t) = c :: t.
Proof. intro H. cbn. now rewrite H. Qed.

Lemma strip_fund_id w :
  w <> [] -> Forall (fun x => is_digit x = true) w ->
  strip (py "805-" ++ w) = py "805-" ++ w.
Proof.
  intros Hne Hw. unfold strip.
  change (py "805-" ++ w) with ("8"%char :: (py "05-" ++ w)).
  rewrite lstrip_id by reflexivity. unfold rstrip.
  destruct (exists_last Hne) as (w' & z & ->).
  assert (Hz : is_space z = false).
  { apply digit_not_space. rewrite Forall_forall in Hw. apply Hw.
    apply in_or_app. right. now left. }
  change ("8"%char :: py "05-" ++ w' ++ [z])
    with (py "805-" ++ w' ++ [z]).
  rewrite app_assoc, rev_app_distr. cbn [rev app].
  rewrite lstrip_id by exact Hz.
  change (z :: rev (py "805-" ++ w')) with ([z] ++ rev (py "805-" ++ w')).
  now rewrite rev_app_distr, rev_involutive.
Qed.

Lemma is_fund_id_intro w :
  w <> [] -> Forall (fun x => is_digit x = true) w ->
  is_fund_id (py "805-" ++ w) = true.
Proof.
  intros Hne Hw. unfold is_fund_id. cbn.
  destruct w; [congruence|]. cbn [nonempty andb].
  now apply forallb_forall, Forall_forall.
Qed.

Lemma dict_set_in {V} (k k' : str) (v v' : V) (d : dict V) :
  In (k', v') (dict_set k v d) -> (k', v') = (k, v) \/ In (k', v') d.
Proof.
  induction d as [|[k0 v0] d IH]; cbn.
  - intros [H|[]]; auto.
  - destruct (str_eqb k k0); cbn; intros [H|H]; auto.
    apply IH in H as [H|H]; auto.
Qed.

Lemma private_fund_match s0 s' c :
  match_here NOFLAG private_fund_pattern s0 = Some (s', c) ->
  exists w, group 2 c = py "805-" ++ w /\ w <> []
            /\ Forall (fun x => is_digit x = true) w.
Proof.
  unfold match_here, private_fund_pattern, digits, plus.
  change (seq ?l) with
    (seq ([Lit "Name of the private fund:"; ws;
           Grp 1 (plus_lazy (CNotIn [IChr nl])); ws; Lit [nl]; ws;
           Lit "(b) Private fund identification number:"; ws;
           Lit (py "(include the " ++ [dq] ++ py "805-" ++ [dq]
                ++ py " prefix also)"); ws]
          ++ [Grp 2 (Cat (Lit "805-") (Rep CDigit 1 true))])).
  intro H. apply run_seq_last in H as (s1 & c1 & H & _).
  apply closing_group_lit_rep in H as (w & Hg & Hw & Hlo); [|reflexivity].
  exists w. split; [exact Hg|]. split; [|exact Hw].
  destruct w; [cbn in Hlo; lia | discriminate].
Qed.

Lemma extracted_fund_ids (text : str) (fund_name fund_id : str) :
  In (fund_name, fund_id) (_extract_private_funds_and_ids text) ->
  is_fund_id fund_id = true.
Proof.
  unfold _extract_private_funds_and_ids, findall.
  assert (H : forall (ms : list (str * str)) (acc : dict str),
            (forall a b, In (a, b) ms ->
                         exists w, b = py "805-" ++ w /\ w <> []
                                   /\ Forall (fun x => is_digit x = true) w) ->
            (forall k v, In (k, v) acc -> is_fund_id v = true) ->
            forall k v,
              In (k, v)
                 (fold_left
                    (fun results m =>
                       let '(fund_name, fund_id) := m in
                       dict_set (strip fund_name) (strip fund_id) results)
                    ms acc) ->
              is_fund_id v = true).
  { induction ms as [|[a b] ms IH]; intros acc Hms Hacc k v; cbn [fold_left].
    - apply Hacc.
    - apply IH.
      + intros a' b' Hin. apply (Hms a' b'). now right.
      + intros k' v' Hin. apply dict_set_in in Hin as [E|Hin];
          [|now apply (Hacc k')].
        inversion E; subst.
        destruct (Hms a b) as (w & -> & Hne & Hw); [now left|].
        rewrite strip_fund_id by assumption. now apply is_fund_id_intro. }
  apply H.
  - intros a b Hin. apply findall_found in Hin as (s0 & s' & c & Hm & _ & ->).
    now apply private_fund_match in Hm.
  - intros k v [].
Qed.

(** A record whose fund identifier is not of the [805-] form. *)
Definition odd_fund_data : firm_data :=
  {| DatabaseSink.sec_nb := None;
     DatabaseSink.business_name := None;
     DatabaseSink.full_legal_name := None;
     DatabaseSink.address := None;
     DatabaseSink.phone_number := None;
     DatabaseSink.employee_count := None;
     DatabaseSink.signatory := None;
     DatabaseSink.compensation_arrangements := None;
     DatabaseSink.client_types := None;
     DatabaseSink.private_funds := Some [(py "XYZ Fund", py "ABC")] |}.

(** C9, as stated, fails on the side of the store: the write path
    persists an identifier that is not of the form. *)
Lemma fund_id_counterexample :
  exists d',
    write 1 [(160882%Z, odd_fund_data)] empty_db = (Ok tt, d')
    /\ fetch_private_funds d' 160882
       = Ok [{| name := py "XYZ Fund"; identification_number := py "ABC" |}]
    /\ is_fund_id (py "ABC") = false.
Proof.
  exists (snd (write 1 [(160882%Z, odd_fund_data)] empty_db)).
  repeat split; vm_compute; reflexivity.
Qed.

(** C9, amended. Every identifier the extractor produces is [805-]
    followed by digits.  The write path of the store does not look at
    the form: after a successful write the identifiers of the entity are
    those of the record, as given. *)
Theorem fund_identifiers (text : str) (now : timestamp) (crd : Z)
        (data : firm_data) (d d' : database) :
  (forall fund_name fund_id,
      In (fund_name, fund_id) (_extract_private_funds_and_ids text) ->
      is_fund_id fund_id = true)
  /\ (write now [(crd, data)] d = (Ok tt, d') ->
      fetch_private_funds d' crd
      = Ok (map entry (get_default (DatabaseSink.private_funds data) []))).
Proof.
  split; [intros a b; apply extracted_fund_ids|].
  intro H. apply write_one_ok in H as [W ->].
  assert (Hc : fits_int64 crd = true).
  { unfold writable in W. rewrite !andb_true_iff in W. tauto. }
  rewrite fetch_private_funds_stored by exact Hc.
  now rewrite written_private_funds.
Qed.

Definition funds_text : str :=
  py "Name of the private fund: XYZ Fund" ++ [nl]
  ++ py "(b) Private fund identification number: (include the "
  ++ [dq] ++ py "805-" ++ [dq] ++ py " prefix also) 805-123456" ++ [nl].

Lemma fund_identifiers_witness :
  _extract_private_funds_and_ids funds_text
  = [(py "XYZ Fund", py "805-123456")]
  /\ write 1 [(160882%Z, odd_fund_data)] empty_db
     = (Ok tt, snd (write 1 [(160882%Z, odd_fund_data)] empty_db))
  /\ (forall fund_name fund_id,
         In (fund_name, fund_id) (_extract_private_funds_and_ids funds_text) ->
         is_fund_id fund_id = true)
  /\ fetch_private_funds
       (snd (write 1 [(160882%Z, odd_fund_data)] empty_db)) 160882
     = Ok (map entry
             (get_default (DatabaseSink.private_funds odd_fund_data) [])).
Proof.
  split; [vm_compute; reflexivity|].
  split; [vm_compute; reflexivity|].
  destruct (@fund_identifiers funds_text 1 160882%Z odd_fund_data empty_db
              (snd (write 1 [(160882%Z, odd_fund_data)] empty_db)))
    as [H1 H2].
  split; [exact H1 | apply H2; vm_compute; reflexivity].
Defined.

(** *** The ordered pattern lists *)

Inductive field :=
| FirmCrd
| SecNumber
| BusinessName
| FullLegalName
| PhoneNumber
| Signatory.

Definition rule_table (f : field) : list regex :=
  match f with
  | FirmCrd => crd_patterns
  | SecNumber => sec_patterns
  | BusinessName => business_name_patterns
  | FullLegalName => legal_name_patterns
  | PhoneNumber => phone_patterns
  | Signatory => signatory_patterns
  end.

Inductive value :=
| VInt (z : Z)
| VStr (s : str).

Definition extract (f : field) (text : str) : option value :=
  match f with
  | FirmCrd => option_map VInt (_extract_firm_crd_number text)
  | SecNumber => option_map VStr (_extract_sec_number text)
  | BusinessName => option_map VStr (_extract_business_name text)
  | FullLegalName => option_map VStr (_extract_full_legal_name text)
  | PhoneNumber => option_map VStr (_extract_phone_number text)
  | Signatory => option_map VStr (_extract_signatory text)
  end.

(** The captured group of a pattern, as matched. *)
Definition captured (text : str) (pattern : regex) : option str :=
  option_map (group 1) (search IGNORECASE pattern text).

(** What a pattern offers to a field: its captured group trimmed, and for
    the signatory cut at ["Title:"] and trimmed again; nothing when the
    pattern does not match or what is left is empty. *)
Definition offer (f : field) (text : str) (pattern : regex) : option str :=
  match captured text pattern with
  | Some g =>
      let r := strip g in
      if truthy r
      then match f with
           | Signatory =>
               if truthy (cleaned r) && negb (isspace (cleaned r))
               then Some (cleaned r) else None
           | _ => Some r
           end
      else None
  | None => None
  end.

(** The value of a field from the string it was offered: the number it
    denotes for the CRD number (none if it denotes none), the string
    itself for the others. *)
Definition value_of (f : field) (s : str) : option value :=
  match f with
  | FirmCrd => option_map VInt (py_int s)
  | _ => Some (VStr s)
  end.

Lemma first_return_app {P A} (body : P -> option A) l1 p l2 v :
  (forall q, In q l1 -> body q = None) -> body p = Some v ->
  first_return body (l1 ++ p :: l2) = Some v.
Proof.
  intros H1 Hp. induction l1 as [|q l1 IH]; cbn [app first_return].
  - now rewrite Hp.
  - rewrite (H1 q) by now left. apply IH. intros q' Hq. apply H1. now right.
Qed.

Lemma first_return_none {P A} (body : P -> option A) l :
  (forall q, In q l -> body q = None) -> first_return body l = None.
Proof.
  intro H. induction l as [|q l IH]; cbn [first_return]; trivial.
  rewrite (H q) by now left. apply IH. intros q' Hq. apply H. now right.
Qed.

Lemma first_return_ext {P A} (body body' : P -> option A) l :
  (forall q, body q = body' q) ->
  first_return body l = first_return body' l.
Proof.
  intro H. induction l as [|q l IH]; cbn [first_return]; trivial.
  now rewrite H, IH.
Qed.

(** Each extractor is the first offer of its list. *)
Lemma extract_first_offer (f : field) (text : str) :
  extract f text
  = match first_return (offer f text) (rule_table f) with
    | Some s => value_of f s
    | None => None
    end.
Proof.
  assert (Hs : forall patterns g,
             (g <> FirmCrd) -> (g <> Signatory) ->
             first_result text patterns
             = first_return (offer g text) patterns).
  { intros patterns g H1 H2. unfold first_result. apply first_return_ext.
    intro q. unfold offer, captured, _extract_with_regex.
    destruct (search IGNORECASE q text) as [m|]; cbn [option_map if_result];
      [|reflexivity].
    destruct (truthy (strip (group 1 m))); [|reflexivity].
    destruct g; congruence. }
  destruct f; cbn [extract rule_table value_of].
  - unfold _extract_firm_crd_number.
    rewrite first_return_ext with (body' := fun q =>
      option_map py_int (offer FirmCrd text q)).
    2:{ intro q. unfold offer, captured, _extract_with_regex.
        destruct (search IGNORECASE q text) as [m|]; cbn [option_map];
          [|reflexivity].
        now destruct (truthy (strip (group 1 m))). }
    induction crd_patterns as [|q l IH]; cbn [first_return]; trivial.
    destruct (offer FirmCrd text q) as [s|]; cbn [option_map]; trivial.
  - unfold _extract_sec_number. rewrite (Hs _ SecNumber) by discriminate.
    now destruct (first_return _ _).
  - unfold _extract_business_name.
    rewrite (Hs _ BusinessName) by discriminate.
    now destruct (first_return _ _).
  - unfold _extract_full_legal_name.
    rewrite (Hs _ FullLegalName) by discriminate.
    now destruct (first_return _ _).
  - unfold _extract_phone_number. rewrite (Hs _ PhoneNumber) by discriminate.
    now destruct (first_return _ _).
  - unfold _extract_signatory.
    rewrite first_return_ext with (body' := offer Signatory text).
    2:{ intro q. unfold offer, captured, _extract_with_regex.
        destruct (search IGNORECASE q text) as [m|]; cbn [option_map];
          reflexivity. }
    now destruct (first_return _ _).
Qed.

Definition signed_below_title : str :=
  py "Printed Name:" ++ [nl] ++ py "Title: CEO" ++ [nl]
  ++ py "Signature:" ++ [nl] ++ py "Jane Roe" ++ [nl].

Definition blank_primary_name : str :=
  py "Name under which you primarily conduct your advisory business: "
  ++ py "Acme Advisers" ++ [nl] ++ py "Primary Business Name:  ".

(** C5, as stated, fails.  In the first text the first and the third
    pattern of the signatory each capture a non-empty group, and the
    field is the capture of the third; in the second the first pattern of
    the business name captures a blank, and the field is the capture of
    the second. *)
Lemma first_match_counterexample :
  (captured signed_below_title (nth 0 signatory_patterns (Lit []))
   = Some (py "Title: CEO")
   /\ captured signed_below_title (nth 2 signatory_patterns (Lit []))
      = Some (py "Jane Roe")
   /\ _extract_signatory signed_below_title = Some (py "Jane Roe"))
  /\ (captured blank_primary_name (nth 0 business_name_patterns (Lit []))
      = Some (py " ")
      /\ captured blank_primary_name (nth 1 business_name_patterns (Lit []))
         = Some (py "Acme Advisers")
      /\ _extract_business_name blank_primary_name
         = Some (py "Acme Advisers")).
Proof. repeat split; vm_compute; reflexivity. Qed.

(** C5, amended. For every field with an ordered list of patterns, the
    patterns are tried in the order of the list and the first that
    offers a non-empty string decides the field, where the string a
    pattern offers is its captured group trimmed (for the signatory, cut
    at ["Title:"] and trimmed again); there is no scoring.  The field is
    that string, for the CRD number the integer it denotes.  When no
    pattern offers a string the field is absent. *)
Theorem first_offer_wins (f : field) (text : str) :
  (forall l1 p l2 s,
      rule_table f = l1 ++ p :: l2 ->
      (forall q, In q l1 -> offer f text q = None) ->
      offer f text p = Some s ->
      extract f text = value_of f s)
  /\ ((forall q, In q (rule_table f) -> offer f text q = None) ->
      extract f text = None).
Proof.
  rewrite extract_first_offer. split.
  - intros l1 p l2 s -> H1 Hp.
    now rewrite (@first_return_app _ _ (offer f text) l1 p l2 s H1 Hp).
  - intro H. now rewrite first_return_none.
Qed.

Lemma first_offer_wins_witness :
  (rule_table BusinessName
   = [nth 0 business_name_patterns (Lit [])]
     ++ nth 1 business_name_patterns (Lit []) :: []
   /\ (forall q, In q [nth 0 business_name_patterns (Lit [])] ->
                 offer BusinessName blank_primary_name q = None)
   /\ offer BusinessName blank_primary_name
            (nth 1 business_name_patterns (Lit []))
      = Some (py "Acme Advisers"))
  /\ extract BusinessName blank_primary_name
     = value_of BusinessName (py "Acme Advisers").
Proof.
  assert (H : forall q, In q [nth 0 business_name_patterns (Lit [])] ->
                        offer BusinessName blank_primary_name q = None).
  { intros q [<-|[]]. vm_compute. reflexivity. }
  split; [split; [reflexivity | split; [exact H | vm_compute; reflexivity]]|].
  apply (proj1 (first_offer_wins BusinessName blank_primary_name)
               [nth 0 business_name_patterns (Lit [])]
               (nth 1 business_name_patterns (Lit [])) []
               (py "Acme Advisers"));
    [reflexivity | exact H | vm_compute; reflexivity].
Defined.

(** *** Client types *)

(** The letter whose anchor closes a span: the next one of the table. *)
Definition next_letter (rest : list (ascii * str)) : option ascii :=
  match rest with
  | (l, _) :: _ => Some l
  | [] => None
  end.

(** [k] was stored by the turn of a letter whose span has a positive
    amount. *)
Definition stored_by_turn (section : str) (letters : list (ascii * str))
           (k : str) : Prop :=
  exists l1 letter label l2 m v,
    letters = l1 ++ (letter, label) :: l2
    /\ search DOTALL (client_pattern letter (next_letter l2)) section = Some m
    /\ span_amount (group 1 m) = Ok v
    /\ (0 < v)%Z
    /\ k = category_label letter label (group 1 m).

Lemma dict_set_keys {V} (k k' : str) (v : V) (d : dict V) :
  In k' (keys (dict_set k v d)) -> k' = k \/ In k' (keys d).
Proof.
  unfold keys. intro H. apply in_map_iff in H as ([k0 v0] & <- & H).
  apply dict_set_in in H as [H|H].
  - inversion H; auto.
  - right. apply in_map_iff. exists (k0, v0). auto.
Qed.

Lemma client_loop_keys section letters acc d :
  client_loop section letters acc = Ok d ->
  forall k, In k (keys d) ->
            In k (keys acc) \/ stored_by_turn section letters k.
Proof.
  revert acc. induction letters as [|[letter label] rest IH]; intros acc;
    cbn [client_loop].
  - intro H; inversion H; subst. auto.
  - fold (next_letter rest).
    destruct (search DOTALL (client_pattern letter (next_letter rest)) section)
      as [m|] eqn:Hm.
    + destruct (span_amount (group 1 m)) as [v|e] eqn:Hv;
        cbn [bind_result]; [|discriminate].
      intros H k Hk. destruct (IH _ H k Hk) as [Hacc|Hst].
      * destruct (v >? 0)%Z eqn:Hpos.
        -- apply dict_set_keys in Hacc as [->|Hacc]; [|auto].
           right. exists [], letter, label, rest, m, v.
           repeat split; auto. lia.
        -- auto.
      * right. destruct Hst as (l1 & a & lab & l2 & m' & v' & -> & Hst).
        exists ((letter, label) :: l1), a, lab, l2, m', v'. auto.
    + intros H k Hk. destruct (IH _ H k Hk) as [Hacc|Hst]; [auto|].
      right. destruct Hst as (l1 & a & lab & l2 & m' & v' & -> & Hst).
      exists ((letter, label) :: l1), a, lab, l2, m', v'. auto.
Qed.

Lemma client_loop_values section letters acc d :
  client_loop section letters acc = Ok d ->
  (forall k v, In (k, v) acc -> (0 < v)%Z) ->
  forall k v, In (k, v) d -> (0 < v)%Z.
Proof.
  revert acc. induction letters as [|[letter label] rest IH]; intros acc;
    cbn [client_loop].
  - intro H; inversion H; subst. auto.
  - destruct (search DOTALL _ section) as [m|]; [|apply IH].
    destruct (span_amount (group 1 m)) as [v|e]; cbn [bind_result];
      [|discriminate].
    intros H Hacc. apply (IH _ H).
    destruct (v >? 0)%Z eqn:Hpos; [|exact Hacc].
    intros k' v' Hin. apply dict_set_in in Hin as [E|Hin];
      [inversion E; lia | eauto].
Qed.

(** The keys a category can be stored under. *)
Lemma category_label_cases letter label line_text :
  category_label letter label line_text = label
  \/ (letter = "n"%char
      /\ exists x, category_label letter label line_text
                   = label ++ py ": " ++ x).
Proof.
  unfold category_label.
  destruct (Ascii.eqb letter "n") eqn:E; cbn [andb]; [|auto].
  apply Ascii.eqb_eq in E.
  destruct (contains ":" line_text); [|auto].
  destruct (search NOFLAG other_desc_pattern line_text); eauto.
Qed.

Lemma other_is_n label : In ("n"%char, label) client_mapping -> label = py "Other".
Proof.
  unfold client_mapping. cbn [In].
  intro H. repeat (destruct H as [H|H]; [inversion H; try reflexivity|]).
  destruct H.
Qed.

Lemma no_label_with_description label x :
  In label (map snd client_mapping) -> label <> py "Other: " ++ x.
Proof.
  unfold client_mapping. cbn [In map snd].
  intro H. repeat (destruct H as [<-|H]; [discriminate|]). destruct H.
Qed.

Lemma category_label_inj letter label sp letter' label' sp' :
  In (letter, label) client_mapping ->
  In (letter', label') client_mapping ->
  category_label letter label sp = category_label letter' label' sp' ->
  label = label'.
Proof.
  intros Hin Hin' E.
  assert (Hl : In label (map snd client_mapping))
    by (apply in_map_iff; exists (letter, label); auto).
  assert (Hl' : In label' (map snd client_mapping))
    by (apply in_map_iff; exists (letter', label'); auto).
  destruct (category_label_cases letter label sp) as [C|(-> & x & C)];
    destruct (category_label_cases letter' label' sp') as [C'|(-> & x' & C')];
    rewrite C, C' in E.
  - exact E.
  - apply other_is_n in Hin'. subst label'.
    exfalso. now apply (@no_label_with_description label x' Hl).
  - apply other_is_n in Hin. subst label.
    exfalso. now apply (@no_label_with_description label' x Hl').
  - apply other_is_n in Hin. apply other_is_n in Hin'. congruence.
Qed.

Lemma unique_position {A B} (L : list (A * B)) l1 a b l2 l1' a' l2' :
  NoDup (map snd L) ->
  L = l1 ++ (a, b) :: l2 -> L = l1' ++ (a', b) :: l2' ->
  l1 = l1' /\ a = a' /\ l2 = l2'.
Proof.
  revert L l1'. induction l1 as [|x l1 IH]; intros L l1' Hn E E'.
  - destruct l1' as [|x' l1']; cbn in *; subst L.
    + inversion E'; auto.
    + exfalso. inversion E'; subst. cbn in Hn.
      inversion Hn as [|? ? Hnot _]; subst. apply Hnot.
      rewrite map_app. apply in_or_app. right. now left.
  - destruct l1' as [|x' l1']; cbn in *; subst L.
    + exfalso. inversion E'; subst. cbn in Hn.
      inversion Hn as [|? ? Hnot _]; subst. apply Hnot.
      rewrite map_app. apply in_or_app. right. now left.
    + inversion E'; subst. cbn in Hn. inversion Hn; subst.
      destruct (IH (l1 ++ (a, b) :: l2) l1') as (-> & -> & ->); auto.
Qed.

Lemma client_labels_distinct : NoDup (map snd client_mapping).
Proof.
  unfold client_mapping. cbn [map snd].
  repeat (constructor;
          [cbn [In]; intro H;
           repeat (destruct H as [H|H]; [discriminate|]); destruct H|]).
  constructor.
Qed.

(** C6. Zero-AUM exclusion: in the mapping the extractor returns, every
    category present has a strictly positive integer amount, and a
    category whose span has no currency amount, or an amount that reads
    as 0, is not a key. *)
Theorem zero_aum_excluded (text : str) (d : dict Z) :
  _extract_client_types text = Ok d ->
  (forall k v, In (k, v) d -> (0 < v)%Z)
  /\ (forall section l1 letter label l2 m,
         client_section_of text = Some section ->
         client_mapping = l1 ++ (letter, label) :: l2 ->
         search DOTALL (client_pattern letter (next_letter l2)) section
         = Some m ->
         search NOFLAG aum_pattern (group 1 m) = None
         \/ span_amount (group 1 m) = Ok 0%Z ->
         ~ In (category_label letter label (group 1 m)) (keys d)).
Proof.
  unfold _extract_client_types.
  destruct (client_section_of text) as [section|] eqn:Hsec.
  2:{ intro H; inversion H; subst. split; [intros k v []|discriminate]. }
  intro H. split.
  - apply (client_loop_values _ _ _ H). intros k v [].
  - intros section' l1 letter label l2 m E Hpos Hm Hzero Hin.
    inversion E; subst section'; clear E.
    assert (Hz : span_amount (group 1 m) = Ok 0%Z).
    { destruct Hzero as [Hn|Hz]; [|exact Hz].
      unfold span_amount. now rewrite Hn. }
    destruct (client_loop_keys _ _ _ H _ Hin) as [[]|Hst].
    destruct Hst as (l1' & letter' & label' & l2' & m' & v' & Hpos' & Hm'
                     & Hv' & Hgt & Hk).
    assert (label = label').
    { apply (@category_label_inj letter label (group 1 m)
                                 letter' label' (group 1 m')).
      - rewrite Hpos. apply in_elt.
      - rewrite Hpos'. apply in_elt.
      - exact Hk. }
    subst label'.
    destruct (@unique_position _ _ client_mapping l1 letter label l2 l1' letter' l2'
                client_labels_distinct Hpos Hpos')
      as (-> & -> & ->).
    rewrite Hm in Hm'. inversion Hm'; subst m'.
    rewrite Hz in Hv'. inversion Hv'; subst v'. lia.
Qed.

Definition clients_text : str :=
  py "Type of Client (a) Individuals 10 $5,000,000 "
  ++ py "(b) High net worth individuals 0 $ 0 (c) Banking (d) Item 5.E".

Definition clients_section : str :=
  match client_section_of clients_text with
  | Some s => s
  | None => []
  end.

Definition span_b : caps :=
  match search DOTALL (client_pattern "b" (Some "c"%char)) clients_section with
  | Some m => m
  | None => []
  end.

Lemma zero_aum_excluded_witness :
  _extract_client_types clients_text = Ok [(py "Individuals", 5000000%Z)]
  /\ (forall k v, In (k, v) [(py "Individuals", 5000000%Z)] -> (0 < v)%Z)
  /\ span_amount (group 1 span_b) = Ok 0%Z
  /\ ~ In (category_label "b" (py "High Net Worth Individuals")
                          (group 1 span_b))
          (keys [(py "Individuals", 5000000%Z)]).
Proof.
  assert (H : _extract_client_types clients_text
              = Ok [(py "Individuals", 5000000%Z)])
    by (vm_compute; reflexivity).
  destruct (zero_aum_excluded clients_text H) as [H1 H2].
  split; [exact H|]. split; [exact H1|].
  split; [vm_compute; reflexivity|].
  apply (H2 clients_section [("a"%char, py "Individuals")] "b"%char
            (py "High Net Worth Individuals")
            (tl (tl client_mapping)) span_b);
    try (vm_compute; reflexivity).
  right. vm_compute. reflexivity.
Defined.

(** The routine returns a mapping unless an amount has more digits than
    [int] accepts. *)

Lemma strip_nonspace (s : str) :
  Forall (fun x => is_space x = false) s -> strip s = s.
Proof.
  intro H. destruct s as [|c t]; [reflexivity|].
  unfold strip. rewrite lstrip_id by (now inversion H). unfold rstrip.
  assert (Hne : c :: t <> []) by discriminate.
  destruct (exists_last Hne) as (w & z & E). rewrite E in *.
  assert (Hz : is_space z = false).
  { rewrite Forall_forall in H. apply H. apply in_or_app. right. now left. }
  rewrite rev_app_distr. cbn [rev app]. rewrite lstrip_id by exact Hz.
  change (z :: rev w) with ([z] ++ rev w).
  now rewrite rev_app_distr, rev_involutive.
Qed.

Lemma parse_digits_all (s : str) (acc : Z) (cnt : nat) :
  Forall (fun x => is_digit x = true) s -> (0 <= acc)%Z ->
  exists v, parse_digits s acc cnt false = Some (v, (cnt + List.length s)%nat)
            /\ (0 <= v)%Z.
Proof.
  intro H. revert acc cnt. induction H as [|c t Hc _ IH]; intros acc cnt Ha.
  - exists acc. cbn. rewrite Nat.add_0_r. auto.
  - cbn [parse_digits]. rewrite Hc.
    destruct (IH (10 * acc + digit_val c)%Z (S cnt)) as (v & E & Hv).
    { unfold digit_val. lia. }
    exists v. rewrite E. cbn [List.length]. rewrite Nat.add_succ_r. auto.
Qed.

Lemma digit_not_sign c :
  is_digit c = true -> Ascii.eqb c "-" = false /\ Ascii.eqb c "+" = false.
Proof.
  destruct c as [b0 b1 b2 b3 b4 b5 b6 b7].
  destruct b0, b1, b2, b3, b4, b5, b6, b7; vm_compute; auto; discriminate.
Qed.

Lemma py_int_digits (s : str) :
  s <> [] -> Forall (fun x => is_digit x = true) s ->
  (List.length s <= int_max_str_digits)%nat ->
  exists v, py_int s = Some v /\ (0 <= v)%Z.
Proof.
  intros Hne Hd Hlen. unfold py_int.
  rewrite strip_nonspace.
  2:{ eapply Forall_impl; [|exact Hd]. apply digit_not_space. }
  destruct s as [|c t]; [congruence|].
  destruct (digit_not_sign c) as [-> ->]; [now inversion Hd|].
  destruct (@parse_digits_all (c :: t) 0 0 Hd) as (v & E & Hv); [lia|].
  rewrite E. exists v.
  assert (Nat.ltb int_max_str_digits (0 + List.length (c :: t)) = false)
    as -> by (apply Nat.ltb_ge; lia).
  auto.
Qed.

Lemma amount_digits (w : str) :
  Forall (fun x => cs_mem NOFLAG (CIn [IDigit; IChr ","]) x = true) w ->
  Forall (fun x => is_digit x = true) (remove_chr "," w).
Proof.
  unfold remove_chr. induction 1 as [|c t Hc _ IH]; cbn [filter]; [constructor|].
  destruct (Ascii.eqb c ",") eqn:E; cbn [negb]; [exact IH|].
  constructor; [|exact IH].
  change (is_digit c || (Ascii.eqb "," c || false) = true) in Hc.
  rewrite orb_false_r in Hc.
  apply orb_true_iff in Hc as [Hc|Hc]; [exact Hc|].
  rewrite Ascii.eqb_sym in Hc. congruence.
Qed.

Lemma aum_match line_text m :
  search NOFLAG aum_pattern line_text = Some m ->
  Forall (fun x => is_digit x = true) (remove_chr "," (group 1 m)).
Proof.
  intro H. apply search_found in H as (s0 & s' & H & _).
  unfold match_here, aum_pattern, plus in H.
  change (seq ?l) with
    (seq ([Lit "$"; ws] ++ [Grp 1 (Rep (CIn [IDigit; IChr ","]) 1 true)]))
    in H.
  apply run_seq_last in H as (s1 & c1 & H & _).
  apply closing_group_rep in H as (w & -> & Hw & _).
  now apply amount_digits.
Qed.

Lemma span_amount_returns line_text :
  (forall m, search NOFLAG aum_pattern line_text = Some m ->
             (List.length (remove_chr "," (group 1 m))
              <= int_max_str_digits)%nat) ->
  exists v, span_amount line_text = Ok v /\ (0 <= v)%Z.
Proof.
  intro H. unfold span_amount.
  destruct (search NOFLAG aum_pattern line_text) as [m|] eqn:E;
    [|exists 0%Z; split; [reflexivity | lia]].
  pose proof (aum_match _ E) as Hd. specialize (H m eq_refl).
  destruct (remove_chr "," (group 1 m)) as [|c t] eqn:R; cbn [truthy];
    [exists 0%Z; split; [reflexivity | lia]|].
  destruct (@py_int_digits (c :: t)) as (v & -> & Hv); auto; [discriminate|].
  eauto.
Qed.

Lemma client_types_returns (text : str) :
  (forall section letter next m m',
      client_section_of text = Some section ->
      search DOTALL (client_pattern letter next) section = Some m ->
      search NOFLAG aum_pattern (group 1 m) = Some m' ->
      (List.length (remove_chr "," (group 1 m'))
       <= int_max_str_digits)%nat) ->
  exists d, _extract_client_types text = Ok d.
Proof.
  intro H. unfold _extract_client_types.
  destruct (client_section_of text) as [section|] eqn:Hs; [|eauto].
  specialize (H section).
  generalize (@nil (str * Z)) as acc.
  induction client_mapping as [|[letter label] rest IH]; intro acc;
    cbn [client_loop]; [eauto|].
  destruct (search DOTALL _ section) as [m|] eqn:Hm; [|apply IH].
  destruct (span_amount_returns (group 1 m)) as (v & -> & _).
  { intros m' Hm'. eapply H; eauto. }
  cbn [bind_result]. apply IH.
Qed.

(** ** The examples of the design document *)

Example crd_and_sec_number :
  _extract_firm_crd_number
    (py "CRD Number: 160882" ++ [nl] ++ py "SEC file number: 801-99999")
  = Some 160882%Z
  /\ _extract_sec_number
       (py "CRD Number: 160882" ++ [nl] ++ py "SEC file number: 801-99999")
     = Some (py "801-99999").
Proof. split; vm_compute; reflexivity. Qed.

Example individuals_only :
  _extract_client_types
    (py "Type of Client (a) Individuals $5,000,000 (b) High net worth (c)")
  = Ok [(py "Individuals", 5000000%Z)].
Proof. vm_compute. reflexivity. Qed.

Example joined_arrangements :
  let data :=
    {| DatabaseSink.sec_nb := None;
       DatabaseSink.business_name := None;
       DatabaseSink.full_legal_name := None;
       DatabaseSink.address := None;
       DatabaseSink.phone_number := None;
       DatabaseSink.employee_count := None;
       DatabaseSink.signatory := None;
       DatabaseSink.compensation_arrangements :=
         Some (ArrStr "Commissions, Hourly charges");
       DatabaseSink.client_types := None;
       DatabaseSink.private_funds := None |} in
  fetch_compensation (snd (write 1 [(160882%Z, data)] empty_db)) 160882
  = Ok [py "Commissions"; py "Hourly charges"].
Proof. vm_compute. reflexivity. Qed.

(** The test suite's record, written and fetched. *)
Example test_suite_fetches :
  fetch_compensation sample_db 160882
  = Ok [py "Percentage of AUM"; py "Performance-based fees"]
  /\ fetch_client_types sample_db 160882
     = Ok [(py "Individuals", 5000000%Z); (py "Corporations", 10000000%Z)]
  /\ fetch_private_funds sample_db 160882
     = Ok [{| name := py "XYZ Fund";
              identification_number := py "805-123456" |}].
Proof. repeat split; vm_compute; reflexivity. Qed.

(** The primary key of [firms] holds of every content [write] leaves,
    whatever the batch and however it ends. *)
Lemma write_primary_key now items d :
  primary_key_ok d -> primary_key_ok (snd (write now items d)).
Proof.
  rewrite write_spec. revert d.
  induction items as [|[crd data] rest IH]; intros d H; cbn [write_all];
    [exact H|].
  destruct (apply_all (stmts_of now crd data) d) as [[[]|e] d'] eqn:E;
    [|exact H].
  apply stmts_of_ok in E as [_ ->]. apply IH. now apply written_primary_key.
Qed.

(** *** From the assembler to the store

    The record [transform] assembles has the shape [write] leaves
    untouched: trimmed labels, integer amounts under distinct
    categories.  Written, it is fetched back as it was assembled. *)

Definition trimmed (s : str) : Prop := strip s = s.

Lemma compensation_labels_trimmed :
  Forall trimmed (map fst compensation_options).
Proof. repeat constructor. Qed.

Lemma check_options_trimmed page options acc l :
  check_options page options acc = Ok l ->
  Forall trimmed acc -> Forall trimmed (map fst options) ->
  Forall trimmed l.
Proof.
  revert acc. induction options as [|[label number] rest IH]; intros acc;
    cbn [check_options map fst].
  - intros H Ha _. now inversion H; subst.
  - destruct page as [pg|]; [|discriminate]. intros H Ha Ho.
    inversion Ho as [|? ? Hl Hr]; subst.
    destruct (search_for pg label) as [|label_rect rects];
      [now apply (IH acc)|].
    destruct (_is_checkbox_checked pg (checkbox_rect label_rect)
                                   default_threshold);
      [|now apply (IH acc)].
    apply (IH (acc ++ [label])); trivial.
    apply Forall_app. split; [exact Ha | now constructor].
Qed.

Lemma dict_set_keys_eq {V} (k : str) (v : V) (d : dict V) :
  keys (dict_set k v d)
  = if existsb (str_eqb k) (keys d) then keys d else keys d ++ [k].
Proof.
  induction d as [|[k' v'] d IH]; cbn [dict_set keys map fst existsb app];
    trivial.
  destruct (str_eqb k k') eqn:E; cbn [orb map fst].
  - apply str_eqb_eq in E. now subst.
  - fold (keys d). fold (keys (dict_set k v d)). rewrite IH.
    now destruct (existsb (str_eqb k) (keys d)).
Qed.

Lemma dict_set_wf {V} (k : str) (v : V) (d : dict V) :
  dict_wf d -> dict_wf (dict_set k v d).
Proof.
  unfold dict_wf. rewrite dict_set_keys_eq.
  destruct (existsb (str_eqb k) (keys d)) eqn:E; trivial.
  intro H. apply NoDup_app; trivial.
  - repeat constructor. intros [].
  - intros x Hx Hk. destruct Hk as [Hk|[]]. subst x.
    assert (existsb (str_eqb k) (keys d) = true); [|congruence].
    apply existsb_exists. exists k. split; [exact Hx | apply str_eqb_refl].
Qed.

Lemma client_loop_wf section letters acc d :
  client_loop section letters acc = Ok d -> dict_wf acc -> dict_wf d.
Proof.
  revert acc. induction letters as [|[letter label] rest IH]; intros acc;
    cbn [client_loop].
  - intro H; now inversion H; subst.
  - destruct (search DOTALL _ section) as [m|]; [|apply IH].
    destruct (span_amount (group 1 m)) as [v|e]; cbn [bind_result];
      [|discriminate].
    intros H Ha. apply (IH _ H).
    destruct (v >? 0)%Z; [now apply dict_set_wf | exact Ha].
Qed.

Lemma transform_round_trip (full_text : str) (pages : doc)
      (r : firm_record) (now : timestamp) (crd : Z) (d d' : database) :
  transform full_text pages = Ok r ->
  write now [(crd, of_record r)] d = (Ok tt, d') ->
  fetch_compensation d' crd = Ok (PdfTransformer.compensation_arrangements r)
  /\ fetch_client_types d' crd = Ok (PdfTransformer.client_types r)
  /\ fetch_private_funds d' crd
     = Ok (map entry (PdfTransformer.private_funds r)).
Proof.
  unfold transform. intros Ht Hw.
  destruct (_extract_compensation_arrangements pages) as [comp|e] eqn:Hc;
    cbn [bind_result] in Ht; [|discriminate].
  destruct (_extract_client_types full_text) as [cts|e] eqn:Hct;
    cbn [bind_result] in Ht; [|discriminate].
  inversion Ht; subst r; clear Ht.
  apply write_one_ok in Hw as [W ->].
  assert (Hfit : fits_int64 crd = true).
  { unfold writable in W. rewrite !andb_true_iff in W. tauto. }
  rewrite fetch_compensation_stored, fetch_client_types_stored,
    fetch_private_funds_stored by exact Hfit.
  rewrite written_compensation, written_client_types, written_private_funds.
  cbn [of_record DatabaseSink.compensation_arrangements
       DatabaseSink.client_types DatabaseSink.private_funds get_default
       PdfTransformer.compensation_arrangements PdfTransformer.client_types
       PdfTransformer.private_funds].
  split; [|split; [|reflexivity]].
  - f_equal. unfold _extract_compensation_arrangements in Hc.
    apply check_options_trimmed in Hc;
      [|constructor | apply compensation_labels_trimmed].
    cbn [arrangement_list].
    induction Hc as [|x l Hx _ IH]; cbn; [reflexivity|].
    unfold trimmed in Hx. now rewrite Hx, IH.
  - f_equal.
    assert (E : amounts (map (fun kv => (fst kv, AumInt (snd kv))) cts) = cts).
    { unfold amounts. rewrite map_map. cbn.
      clear. induction cts as [|[k v] l IH]; cbn; [reflexivity|].
      now rewrite IH. }
    rewrite E. apply dict_of_items_wf.
    unfold _extract_client_types in Hct.
    destruct (client_section_of full_text) as [section|].
    + apply (@client_loop_wf section client_mapping [] cts Hct). constructor.
    + inversion Hct; subst. constructor.
Qed.

(** A one-page file: the anchor phrase and two labels, the box of the
    first one filled. *)
Definition filing_page : page :=
  {| search_for := fun s =>
       if str_eqb s "Compensation Arrangements" then [Rect 72 100 200 110]%Q
       else if str_eqb s "Commissions" then [Rect 120 200 180 210]%Q
       else if str_eqb s "Hourly charges" then [Rect 120 220 190 230]%Q
       else [];
     get_pixmap := fun r =>
       if Qeq_bool (y0 r) 201
       then repeat Byte.x00 192 else repeat Byte.xff 192 |}.

Definition filing_text : str :=
  py "CRD Number: 160882" ++ [nl] ++ py "SEC file number: 801-99999" ++ [nl]
  ++ clients_text ++ [nl] ++ funds_text.

Example assembled_and_stored :
  exists r,
    transform filing_text [filing_page] = Ok r
    /\ PdfTransformer.compensation_arrangements r = [py "Commissions"]
    /\ PdfTransformer.client_types r = [(py "Individuals", 5000000%Z)]
    /\ PdfTransformer.private_funds r = [(py "XYZ Fund", py "805-123456")]
    /\ exists d',
         write 1 [(160882%Z, of_record r)] empty_db = (Ok tt, d')
         /\ fetch_compensation d' 160882 = Ok [py "Commissions"]
         /\ fetch_client_types d' 160882 = Ok [(py "Individuals", 5000000%Z)]
         /\ fetch_private_funds d' 160882
            = Ok [{| name := py "XYZ Fund";
                     identification_number := py "805-123456" |}].
Proof.
  destruct (transform filing_text [filing_page]) as [r|e] eqn:E;
    [|vm_compute in E; discriminate].
  exists r. split; [reflexivity|].
  assert (Hr : Ok r = transform filing_text [filing_page]) by now rewrite E.
  vm_compute in Hr. inversion Hr; subst r; clear Hr E.
  repeat split.
  eexists. split; [vm_compute; reflexivity|].
  repeat split; vm_compute; reflexivity.
Qed.

(** *** The check-box test in binary64

    numpy takes the quotient of the two counts in binary64 and compares
    it with the binary64 number nearest to 0.12.  On every region of up
    to 256 pixels that is the test in the rationals. *)

Module Binary64.

Import PrimFloat.

Definition float_of_nat (n : nat) : PrimFloat.float :=
  PrimFloat.of_uint63 (Uint63.of_Z (Z.of_nat n)).

Definition checked_in_binary64 (dark size : nat) : bool :=
  PrimFloat.ltb 0x1.eb851eb851eb8p-4%float
                (PrimFloat.div (float_of_nat dark) (float_of_nat size)).

Definition checked_in_rationals (dark size : nat) : bool :=
  (12 * Z.of_nat size <? 100 * Z.of_nat dark)%Z.

Definition agree_up_to (n : nat) : bool :=
  forallb
    (fun size =>
       forallb (fun dark => Bool.eqb (checked_in_binary64 dark size)
                                     (checked_in_rationals dark size))
               (List.seq 0 (S size)))
    (List.seq 0 (S n)).

Lemma binary64_table : agree_up_to 256 = true.
Proof. vm_compute. reflexivity. Qed.

Lemma agree_up_to_spec (n size dark : nat) :
  agree_up_to n = true -> (size <= n)%nat -> (dark <= size)%nat ->
  checked_in_binary64 dark size = checked_in_rationals dark size.
Proof.
  unfold agree_up_to. intros T Hs Hd.
  rewrite forallb_forall in T.
  assert (Hin : In size (List.seq 0 (S n))) by (apply in_seq; lia).
  apply T in Hin. rewrite forallb_forall in Hin.
  apply Bool.eqb_true_iff, Hin, in_seq. lia.
Qed.

Lemma binary64_agrees (p : page) (r : rect) :
  (List.length (get_pixmap p r) <= 256)%nat ->
  checked_in_binary64 (dark_count default_threshold (get_pixmap p r))
                      (List.length (get_pixmap p r))
  = _is_checkbox_checked p r default_threshold.
Proof.
  intro Hlen.
  pose proof (pixels_below_le 150 (get_pixmap p r)) as Hle.
  unfold default_threshold. rewrite dark_count_below.
  rewrite (@agree_up_to_spec 256 _ _ binary64_table Hlen Hle).
  destruct (checked_iff p r) as [H1 H2].
  unfold default_threshold in *. unfold checked_in_rationals.
  destruct (_is_checkbox_checked p r 150) eqn:E.
  - apply Z.ltb_lt. now apply H1.
  - apply Z.ltb_ge. apply Z.nlt_ge. intro H. apply H2 in H. congruence.
Qed.

End Binary64.

(** * Further properties of the storage sink *)

Lemma existsb_str_In (x : str) (l : list str) :
  existsb (str_eqb x) l = true <-> In x l.
Proof.
  rewrite existsb_exists. split.
  - intros (y & Hin & E). apply str_eqb_eq in E. now subst.
  - intro H. exists x. split; [exact H | apply str_eqb_refl].
Qed.

Lemma distinct_NoDup (l : list str) : distinct l = true <-> NoDup l.
Proof.
  induction l as [|x l IH]; cbn [distinct].
  - split; [constructor | reflexivity].
  - rewrite andb_true_iff, negb_true_iff, IH. split.
    + intros [Hx Hl]. constructor; [|exact Hl].
      intro Hin. apply existsb_str_In in Hin. congruence.
    + intro H. inversion H as [|? ? Hx Hl]; subst. split; [|exact Hl].
      apply not_true_iff_false. intro E. now apply existsb_str_In in E.
Qed.

(** The records the store takes: the key and the employee count fit a
    64-bit column, every amount does once normalised, and no two funds
    share an identifier. *)
Definition ints_fit (crd : Z) (data : firm_data) : bool :=
  fits_int64 crd
  && fits_opt (DatabaseSink.employee_count data)
  && forallb (fun kv => fits_int64 (snd kv))
             (amounts (get_default (DatabaseSink.client_types data) [])).

Definition fund_ids (data : firm_data) : list str :=
  map snd (get_default (DatabaseSink.private_funds data) []).

Lemma writable_split crd data :
  writable crd data = ints_fit crd data && distinct (fund_ids data).
Proof. reflexivity. Qed.










(** The row of [firms] an upsert leaves for its key. *)
Definition upserted_row (now : timestamp) (new : firm_row)
           (rows : list firm_row) : firm_row :=
  match filter (fun r => Z.eqb (f_firm_crd_nb r) (f_firm_crd_nb new)) rows with
  | old :: _ =>
      {| f_firm_crd_nb := f_firm_crd_nb old;
         f_sec_nb := f_sec_nb new;
         f_business_name := f_business_name new;
         f_full_legal_name := f_full_legal_name new;
         f_address := f_address new;
         f_phone_number := f_phone_number new;
         f_employee_count := f_employee_count new;
         f_signatory := f_signatory new;
         f_created_at := f_created_at old;
         f_updated_at := now |}
  | [] => new
  end.

Lemma upserted_row_In now new rows :
  In (upserted_row now new rows) (upsert_row now new rows)
  /\ f_firm_crd_nb (upserted_row now new rows) = f_firm_crd_nb new.
Proof.
  unfold upserted_row.
  induction rows as [|r rest IH]; cbn [upsert_row filter].
  - split; [now left | reflexivity].
  - destruct (Z.eqb (f_firm_crd_nb r) (f_firm_crd_nb new)) eqn:E.
    + split; [now left|]. cbn. now apply Z.eqb_eq.
    + destruct IH as [IH1 IH2]. split; [now right | exact IH2].
Qed.

Lemma written_firm_row now crd data d :
  primary_key_ok d ->
  firm_rows (written now crd data d) crd
  = [upserted_row now (new_row now crd data) (tbl_firms d)].
Proof.
  intro Hpk. pose proof (written_one_row now crd data Hpk) as Hone.
  destruct (upserted_row_In now (new_row now crd data) (tbl_firms d))
    as [Hin Hk].
  assert (Hf : In (upserted_row now (new_row now crd data) (tbl_firms d))
                  (firm_rows (written now crd data d) crd)).
  { unfold firm_rows. apply filter_In. split; [exact Hin|].
    rewrite Hk. cbn. apply Z.eqb_refl. }
  destruct (firm_rows (written now crd data d) crd) as [|r [|r' l]];
    cbn in Hone; try lia.
  destruct Hf as [->|[]]. reflexivity.
Qed.



(** X4. The upsert keeps the first [created_at] and refreshes
    [updated_at]: writing a key that has no row gives it a row whose two
    time stamps are the time of the write; writing a key that has one
    leaves [created_at] as it was and sets [updated_at] to the time of the
    write. *)
Theorem upsert_timestamps (now : timestamp) (crd : Z) (data : firm_data)
        (d d' : database) :
  primary_key_ok d ->
  write now [(crd, data)] d = (Ok tt, d') ->
  exists r, firm_rows d' crd = [r]
            /\ f_firm_crd_nb r = crd
            /\ f_updated_at r = now
            /\ f_created_at r
               = match firm_rows d crd with
                 | old :: _ => f_created_at old
                 | [] => now
                 end.
Proof.
  intros Hpk H. apply write_one_ok in H as [_ ->].
  eexists. split; [now apply written_firm_row|].
  destruct (upserted_row_In now (new_row now crd data) (tbl_firms d))
    as [_ Hk].
  split; [exact Hk|].
  unfold upserted_row, firm_rows. cbn [new_row f_firm_crd_nb].
  destruct (filter _ (tbl_firms d)); cbn; auto.
Qed.

Lemma upsert_timestamps_witness :
  primary_key_ok sample_db
  /\ write 7 [(160882%Z, bare_data)] sample_db
     = (Ok tt, snd (write 7 [(160882%Z, bare_data)] sample_db))
  /\ exists r,
       firm_rows (snd (write 7 [(160882%Z, bare_data)] sample_db)) 160882
       = [r]
       /\ f_firm_crd_nb r = 160882%Z
       /\ f_updated_at r = 7
       /\ f_created_at r
          = match firm_rows sample_db 160882 with
            | old :: _ => f_created_at old
            | [] => 7
            end.
Proof.
  assert (Hpk : primary_key_ok sample_db).
  { unfold primary_key_ok. vm_compute. repeat constructor. intros []. }
  split; [exact Hpk|]. split; [vm_compute; reflexivity|].
  apply (@upsert_timestamps 7 160882%Z bare_data sample_db
           (snd (write 7 [(160882%Z, bare_data)] sample_db)) Hpk).
  vm_compute; reflexivity.
Defined.

(** *** The other entities *)

Lemma upsert_row_other now new rows crd' :
  f_firm_crd_nb new <> crd' ->
  filter (fun r => Z.eqb (f_firm_crd_nb r) crd') (upsert_row now new rows)
  = filter (fun r => Z.eqb (f_firm_crd_nb r) crd') rows.
Proof.
  intro N. induction rows as [|r rest IH]; cbn [upsert_row filter].
  - assert (Z.eqb (f_firm_crd_nb new) crd' = false) as ->
        by now apply Z.eqb_neq.
    reflexivity.
  - destruct (Z.eqb (f_firm_crd_nb r) (f_firm_crd_nb new)) eqn:E;
      cbn [filter f_firm_crd_nb].
    + apply Z.eqb_eq in E.
      assert (Z.eqb (f_firm_crd_nb r) crd' = false) as ->
          by (apply Z.eqb_neq; congruence).
      reflexivity.
    + now rewrite IH.
Qed.

Lemma written_other_firm now crd data d crd' :
  crd' <> crd ->
  firm_rows (written now crd data d) crd' = firm_rows d crd'.
Proof.
  intro N. unfold firm_rows, written. cbn.
  apply upsert_row_other. cbn. congruence.
Qed.

Lemma written_other_client_types now crd data d crd' :
  crd' <> crd ->
  stored_client_types (written now crd data d) crd'
  = stored_client_types d crd'.
Proof.
  intro N. unfold stored_client_types, written. cbn.
  rewrite filter_app.
  rewrite (filter_other (fun r => Z.eqb (c_firm_crd_nb r) crd)).
  2:{ intros r H. apply Z.eqb_eq in H. apply Z.eqb_neq. congruence. }
  assert (E : filter (fun r => Z.eqb (c_firm_crd_nb r) crd')
                (client_type_rows now crd
                   (amounts (get_default (DatabaseSink.client_types data) []))
                   (seq_client_types d)) = []).
  { generalize (seq_client_types d).
    induction (amounts _) as [|[k v] l IH]; intro s; cbn; trivial.
    assert (Z.eqb crd crd' = false) as -> by (apply Z.eqb_neq; congruence).
    apply IH. }
  now rewrite E, app_nil_r.
Qed.

Lemma written_other_private_funds now crd data d crd' :
  crd' <> crd ->
  stored_private_funds (written now crd data d) crd'
  = stored_private_funds d crd'.
Proof.
  intro N. unfold stored_private_funds, written. cbn.
  rewrite filter_app.
  rewrite (filter_other (fun r => Z.eqb (p_firm_crd_nb r) crd)).
  2:{ intros r H. apply Z.eqb_eq in H. apply Z.eqb_neq. congruence. }
  assert (E : filter (fun r => Z.eqb (p_firm_crd_nb r) crd')
                (private_fund_rows now crd
                   (get_default (DatabaseSink.private_funds data) [])
                   (seq_private_funds d)) = []).
  { generalize (seq_private_funds d).
    induction (get_default _ _) as [|[k v] l IH]; intro s; cbn; trivial.
    assert (Z.eqb crd crd' = false) as -> by (apply Z.eqb_neq; congruence).
    apply IH. }
  now rewrite E, app_nil_r.
Qed.

Lemma write_all_others now items d crd' :
  ~ In crd' (map fst items) ->
  firm_rows (snd (write_all now items d)) crd' = firm_rows d crd'
  /\ stored_compensation (snd (write_all now items d)) crd'
     = stored_compensation d crd'
  /\ stored_client_types (snd (write_all now items d)) crd'
     = stored_client_types d crd'
  /\ stored_private_funds (snd (write_all now items d)) crd'
     = stored_private_funds d crd'.
Proof.
  revert d.
  induction items as [|[crd data] rest IH]; intros d Hn; cbn [write_all];
    [repeat split|].
  cbn [map fst] in Hn.
  assert (N : crd' <> crd) by (intro E; apply Hn; left; congruence).
  assert (Hr : ~ In crd' (map fst rest)) by (intro E; apply Hn; now right).
  destruct (apply_all (stmts_of now crd data) d) as [[[]|e] d'] eqn:E;
    [|repeat split].
  apply stmts_of_ok in E as [_ ->].
  destruct (IH (written now crd data d) Hr) as (H1 & H2 & H3 & H4).
  rewrite H1, H2, H3, H4.
  rewrite written_other_firm, written_other_compensation,
    written_other_client_types, written_other_private_funds by exact N.
  repeat split.
Qed.

(** X5. A call of [write] touches only the keys of its batch: for any
    other key the row of [firms], the child rows and what the three
    fetchers return are the same before and after, whether the call
    succeeds or raises part way. *)
Theorem write_leaves_others (now : timestamp) (items : list (Z * firm_data))
        (d : database) (crd' : Z) :
  ~ In crd' (map fst items) ->
  firm_rows (snd (write now items d)) crd' = firm_rows d crd'
  /\ stored_compensation (snd (write now items d)) crd'
     = stored_compensation d crd'
  /\ stored_client_types (snd (write now items d)) crd'
     = stored_client_types d crd'
  /\ stored_private_funds (snd (write now items d)) crd'
     = stored_private_funds d crd'
  /\ fetch_compensation (snd (write now items d)) crd'
     = fetch_compensation d crd'
  /\ fetch_client_types (snd (write now items d)) crd'
     = fetch_client_types d crd'
  /\ fetch_private_funds (snd (write now items d)) crd'
     = fetch_private_funds d crd'.
Proof.
  intro Hn. rewrite write_spec.
  destruct (@write_all_others now items d crd' Hn) as (H1 & H2 & H3 & H4).
  repeat split; trivial.
  - unfold fetch_compensation, bind_int.
    destruct (fits_int64 crd'); cbn [bind_result]; [|reflexivity].
    f_equal. exact H2.
  - unfold fetch_client_types, bind_int.
    destruct (fits_int64 crd'); cbn [bind_result]; [|reflexivity].
    do 2 f_equal. exact H3.
  - unfold fetch_private_funds, bind_int.
    destruct (fits_int64 crd'); cbn [bind_result]; [|reflexivity].
    f_equal. unfold stored_private_funds in H4.
    rewrite <- (map_map (fun r => (p_fund_name r, p_fund_id r)) entry).
    rewrite <- (map_map (fun r => (p_fund_name r, p_fund_id r)) entry
                        (filter _ (tbl_private_funds d))).
    now rewrite H4.
Qed.

Lemma write_leaves_others_witness :
  ~ In 160882%Z (map fst [(7%Z, clashing_data); (8%Z, sample_data)])
  /\ fst (write 2 [(7%Z, sample_data); (8%Z, clashing_data)] sample_db)
     = Raise IntegrityError
  /\ fetch_client_types
       (snd (write 2 [(7%Z, sample_data); (8%Z, clashing_data)] sample_db))
       160882
     = fetch_client_types sample_db 160882
  /\ fetch_compensation
       (snd (write 2 [(7%Z, sample_data); (8%Z, clashing_data)] sample_db)) 7
     = Ok [py "Percentage of AUM"; py "Performance-based fees"].
Proof.
  assert (H : ~ In 160882%Z
                (map fst [(7%Z, sample_data); (8%Z, clashing_data)])).
  { cbn. intros [E|[E|[]]]; discriminate. }
  split; [cbn; intros [E|[E|[]]]; discriminate|].
  split; [vm_compute; reflexivity|].
  split; [|vm_compute; reflexivity].
  apply (write_leaves_others 2 [(7%Z, sample_data); (8%Z, clashing_data)]
                             sample_db 160882 H).
Defined.

(** *** A batch as a whole *)





(** *** The stores the sink can leave *)

(** The store [setup] creates, and what any number of calls of [write]
    make of it. *)
Inductive reachable : database -> Prop :=
| reach_setup : reachable empty_db
| reach_write now items d :
    reachable d -> reachable (snd (write now items d)).

Lemma write_invariant (P : database -> Prop) :
  (forall now crd data d,
      writable crd data = true -> P d -> P (written now crd data d)) ->
  forall now items d, P d -> P (snd (write now items d)).
Proof.
  intros Hstep now items d. rewrite write_spec. revert d.
  induction items as [|[crd data] rest IH]; intros d H; cbn [write_all];
    [exact H|].
  destruct (apply_all (stmts_of now crd data) d) as [[[]|e] d'] eqn:E;
    [|exact H].
  apply stmts_of_ok in E as [W ->]. apply IH. now apply Hstep.
Qed.

Lemma reachable_invariant (P : database -> Prop) :
  P empty_db ->
  (forall now crd data d,
      writable crd data = true -> P d -> P (written now crd data d)) ->
  forall d, reachable d -> P d.
Proof.
  intros H0 Hstep d R. induction R as [|now items d R IH]; trivial.
  now apply write_invariant.
Qed.

Lemma sample_db_reachable : reachable sample_db.
Proof.
  change sample_db
    with (snd (write 1 [(160882%Z, sample_data)] empty_db)).
  apply reach_write, reach_setup.
Qed.

Lemma has_firm_written now crd data d k :
  has_firm k (written now crd data d)
  = has_firm k d || Z.eqb crd k.
Proof.
  unfold has_firm, written. cbn.
  change (Z.eqb crd k)
    with (Z.eqb (f_firm_crd_nb (new_row now crd data)) k).
  generalize (tbl_firms d). intro rows.
  assert (G : forall new : firm_row,
             existsb (fun r => Z.eqb (f_firm_crd_nb r) k)
                     (upsert_row now new rows)
             = existsb (fun r => Z.eqb (f_firm_crd_nb r) k) rows
               || Z.eqb (f_firm_crd_nb new) k).
  { clear. intro new. induction rows as [|r rest IH];
      cbn [upsert_row existsb].
    - now rewrite orb_false_r.
    - destruct (Z.eqb (f_firm_crd_nb r) (f_firm_crd_nb new)) eqn:E;
        cbn [existsb f_firm_crd_nb].
      + apply Z.eqb_eq in E. rewrite <- E.
        destruct (Z.eqb (f_firm_crd_nb r) k); cbn;
          now rewrite ?orb_true_r, ?orb_false_r.
      + rewrite IH. now rewrite orb_assoc. }
  apply G.
Qed.

Lemma arrangement_rows_crd now crd l s :
  Forall (fun r => a_firm_crd_nb r = crd) (arrangement_rows now crd l s).
Proof.
  revert s; induction l as [|x l IH]; intro s; cbn; constructor; auto.
Qed.

Lemma client_type_rows_crd now crd l s :
  Forall (fun r => c_firm_crd_nb r = crd) (client_type_rows now crd l s).
Proof.
  revert s; induction l as [|[k v] l IH]; intro s; cbn; constructor; auto.
Qed.

Lemma private_fund_rows_crd now crd l s :
  Forall (fun r => p_firm_crd_nb r = crd) (private_fund_rows now crd l s).
Proof.
  revert s; induction l as [|[k v] l IH]; intro s; cbn; constructor; auto.
Qed.

(** [FOREIGN KEY (firm_crd_nb) REFERENCES firms(firm_crd_nb)] in the
    three child tables. *)
Definition foreign_keys_ok (d : database) : Prop :=
  Forall (fun r => has_firm (a_firm_crd_nb r) d = true)
         (tbl_compensation_arrangements d)
  /\ Forall (fun r => has_firm (c_firm_crd_nb r) d = true)
            (tbl_client_types d)
  /\ Forall (fun r => has_firm (p_firm_crd_nb r) d = true)
            (tbl_private_funds d).

Lemma Forall_filter_weaken {A} (P Q : A -> Prop) (f : A -> bool) l :
  (forall x, P x -> Q x) -> Forall P l -> Forall Q (filter f l).
Proof.
  intros H F. apply Forall_forall. intros x Hin.
  apply filter_In in Hin as [Hin _].
  apply H. revert x Hin. now apply Forall_forall.
Qed.

Lemma written_foreign_keys now crd data d :
  foreign_keys_ok d -> foreign_keys_ok (written now crd data d).
Proof.
  intros (H1 & H2 & H3).
  assert (Old : forall k, has_firm k d = true ->
                          has_firm k (written now crd data d) = true)
    by (intros k Hk; now rewrite has_firm_written, Hk).
  assert (New : has_firm crd (written now crd data d) = true)
    by (now rewrite has_firm_written, Z.eqb_refl, orb_true_r).
  unfold foreign_keys_ok.
  replace (tbl_compensation_arrangements (written now crd data d))
    with (filter (fun r => negb (Z.eqb (a_firm_crd_nb r) crd))
                 (tbl_compensation_arrangements d)
          ++ arrangement_rows now crd
               (arrangement_list
                  (get_default (DatabaseSink.compensation_arrangements data)
                               (ArrStr [])))
               (seq_compensation_arrangements d)) by reflexivity.
  replace (tbl_client_types (written now crd data d))
    with (filter (fun r => negb (Z.eqb (c_firm_crd_nb r) crd))
                 (tbl_client_types d)
          ++ client_type_rows now crd
               (amounts (get_default (DatabaseSink.client_types data) []))
               (seq_client_types d)) by reflexivity.
  replace (tbl_private_funds (written now crd data d))
    with (filter (fun r => negb (Z.eqb (p_firm_crd_nb r) crd))
                 (tbl_private_funds d)
          ++ private_fund_rows now crd
               (get_default (DatabaseSink.private_funds data) [])
               (seq_private_funds d)) by reflexivity.
  repeat split; apply Forall_app; split.
  - eapply Forall_filter_weaken; [|exact H1]. intros r. apply Old.
  - eapply Forall_impl; [|apply arrangement_rows_crd].
    intros r ->. exact New.
  - eapply Forall_filter_weaken; [|exact H2]. intros r. apply Old.
  - eapply Forall_impl; [|apply client_type_rows_crd].
    intros r ->. exact New.
  - eapply Forall_filter_weaken; [|exact H3]. intros r. apply Old.
  - eapply Forall_impl; [|apply private_fund_rows_crd].
    intros r ->. exact New.
Qed.

Lemma reachable_primary_key d : reachable d -> primary_key_ok d.
Proof.
  apply reachable_invariant.
  - constructor.
  - intros now crd data d0 _. apply written_primary_key.
Qed.

Lemma reachable_foreign_keys d : reachable d -> foreign_keys_ok d.
Proof.
  apply reachable_invariant.
  - repeat split; constructor.
  - intros now crd data d0 _. apply written_foreign_keys.
Qed.

Lemma has_firm_row d crd :
  primary_key_ok d -> has_firm crd d = true ->
  exists r, firm_rows d crd = [r].
Proof.
  intros PK H. unfold has_firm in H.
  apply existsb_exists in H as (r & Hin & Hk).
  pose proof (@count_key_le_1 (tbl_firms d) crd PK) as Hle.
  assert (Hf : In r (firm_rows d crd)) by (apply filter_In; auto).
  unfold firm_rows in *.
  destruct (filter _ (tbl_firms d)) as [|r0 [|r1 l]];
    [destruct Hf | now exists r0 | cbn in Hle; lia].
Qed.

(** X7. In every store the sink can leave ([setup] followed by any
    calls of [write], whether they return or raise) a key has at most
    one row in [firms]. *)
Theorem one_firm_row_per_key (d : database) (crd : Z) :
  reachable d -> (List.length (firm_rows d crd) <= 1)%nat.
Proof.
  intro R. unfold firm_rows. apply count_key_le_1.
  change (primary_key_ok d). now apply reachable_primary_key.
Qed.

Lemma one_firm_row_per_key_witness :
  reachable sample_db
  /\ (List.length (firm_rows sample_db 160882) <= 1)%nat.
Proof.
  split; [exact sample_db_reachable|].
  apply (one_firm_row_per_key 160882 sample_db_reachable).
Defined.

(** X8. No orphans: in every store the sink can leave, a key under
    which a child table holds a row (an arrangement, a client type or a
    private fund) has its row in [firms]. *)
Theorem no_orphan_rows (d : database) (crd : Z) :
  reachable d ->
  stored_compensation d crd <> []
  \/ stored_client_types d crd <> []
  \/ stored_private_funds d crd <> [] ->
  exists r, firm_rows d crd = [r].
Proof.
  intros R H. apply has_firm_row; [now apply reachable_primary_key|].
  destruct (reachable_foreign_keys R) as (F1 & F2 & F3).
  destruct H as [H|[H|H]].
  - unfold stored_compensation in H.
    destruct (filter _ (tbl_compensation_arrangements d)) as [|r l] eqn:E;
      [now cbn in H|].
    assert (Hin : In r (filter (fun r => Z.eqb (a_firm_crd_nb r) crd)
                               (tbl_compensation_arrangements d)))
      by (rewrite E; now left).
    apply filter_In in Hin as [Hin Hk]. apply Z.eqb_eq in Hk. subst crd.
    clear E H. revert r Hin. now apply Forall_forall.
  - unfold stored_client_types in H.
    destruct (filter _ (tbl_client_types d)) as [|r l] eqn:E;
      [now cbn in H|].
    assert (Hin : In r (filter (fun r => Z.eqb (c_firm_crd_nb r) crd)
                               (tbl_client_types d)))
      by (rewrite E; now left).
    apply filter_In in Hin as [Hin Hk]. apply Z.eqb_eq in Hk. subst crd.
    clear E H. revert r Hin. now apply Forall_forall.
  - unfold stored_private_funds in H.
    destruct (filter _ (tbl_private_funds d)) as [|r l] eqn:E;
      [now cbn in H|].
    assert (Hin : In r (filter (fun r => Z.eqb (p_firm_crd_nb r) crd)
                               (tbl_private_funds d)))
      by (rewrite E; now left).
    apply filter_In in Hin as [Hin Hk]. apply Z.eqb_eq in Hk. subst crd.
    clear E H. revert r Hin. now apply Forall_forall.
Qed.

Lemma no_orphan_rows_witness :
  reachable sample_db
  /\ stored_client_types sample_db 160882 <> []
  /\ exists r, firm_rows sample_db 160882 = [r].
Proof.
  assert (H : stored_client_types sample_db 160882 <> [])
    by (vm_compute; discriminate).
  split; [exact sample_db_reachable|]. split; [exact H|].
  apply (@no_orphan_rows sample_db 160882 sample_db_reachable).
  right; left; exact H.
Defined.

(** *** [UNIQUE(firm_crd_nb, fund_id)] *)

Definition unique_funds_ok (d : database) : Prop :=
  NoDup (map (fun r => (p_firm_crd_nb r, p_fund_id r)) (tbl_private_funds d)).

Lemma NoDup_map_filter {A B} (f : A -> B) (g : A -> bool) (l : list A) :
  NoDup (map f l) -> NoDup (map f (filter g l)).
Proof.
  induction l as [|x l IH]; cbn; trivial. intro H.
  inversion H as [|? ? Hx Hl]; subst. destruct (g x); cbn; auto.
  constructor; auto. intro Hin. apply Hx.
  apply in_map_iff in Hin as (y & <- & Hy).
  apply filter_In in Hy as [Hy _]. now apply in_map.
Qed.

Lemma private_fund_rows_pairs now crd l s :
  map (fun r => (p_firm_crd_nb r, p_fund_id r)) (private_fund_rows now crd l s)
  = map (fun v => (crd, v)) (map snd l).
Proof.
  revert s; induction l as [|[k v] l IH]; intro s; cbn; trivial.
  now rewrite IH.
Qed.

Lemma written_unique_funds now crd data d :
  writable crd data = true ->
  unique_funds_ok d -> unique_funds_ok (written now crd data d).
Proof.
  intros W H. unfold unique_funds_ok.
  replace (tbl_private_funds (written now crd data d))
    with (filter (fun r => negb (Z.eqb (p_firm_crd_nb r) crd))
                 (tbl_private_funds d)
          ++ private_fund_rows now crd
               (get_default (DatabaseSink.private_funds data) [])
               (seq_private_funds d)) by reflexivity.
  rewrite map_app, private_fund_rows_pairs. apply NoDup_app.
  - now apply NoDup_map_filter.
  - rewrite writable_split in W. apply andb_true_iff in W as [_ W].
    apply distinct_NoDup in W. unfold fund_ids in W.
    induction W as [|v l Hv Hl IH]; cbn; constructor; trivial.
    intro Hin. apply in_map_iff in Hin as (v' & E & Hin).
    inversion E; subst. contradiction.
  - intros [c v] H1 H2.
    apply in_map_iff in H1 as (r & E & Hr). inversion E; subst.
    apply filter_In in Hr as [_ Hr].
    apply in_map_iff in H2 as (v' & E' & _). inversion E' as [[Hc Hv]].
    rewrite <- Hc, Z.eqb_refl in Hr. discriminate.
Qed.

Lemma reachable_unique_funds d : reachable d -> unique_funds_ok d.
Proof.
  apply reachable_invariant.
  - constructor.
  - intros now crd data d0. apply written_unique_funds.
Qed.

Lemma unique_within_key (rows : list private_fund_row) crd :
  NoDup (map (fun r => (p_firm_crd_nb r, p_fund_id r)) rows) ->
  NoDup (map p_fund_id
             (filter (fun r => Z.eqb (p_firm_crd_nb r) crd) rows)).
Proof.
  induction rows as [|r rows IH]; cbn; [constructor|]. intro H.
  inversion H as [|? ? Hx Hl]; subst.
  destruct (Z.eqb (p_firm_crd_nb r) crd) eqn:E; cbn; auto.
  constructor; auto. intro Hin. apply Hx.
  apply in_map_iff in Hin as (r' & Hid & Hr').
  apply filter_In in Hr' as [Hr' Hk].
  apply Z.eqb_eq in E, Hk. apply in_map_iff. exists r'. split; trivial.
  now rewrite Hid, Hk, E.
Qed.

(** X9. In every store the sink can leave, the funds fetched for a key
    carry pairwise different identification numbers. *)
Theorem fetched_fund_ids_distinct (d : database) (crd : Z)
        (l : list fund_entry) :
  reachable d ->
  fetch_private_funds d crd = Ok l ->
  NoDup (map identification_number l).
Proof.
  intros R H. unfold fetch_private_funds, bind_int in H.
  destruct (fits_int64 crd); cbn [bind_result] in H; [|discriminate].
  inversion H; subst l. rewrite map_map. cbn [identification_number].
  apply unique_within_key. now apply reachable_unique_funds.
Qed.

Lemma fetched_fund_ids_distinct_witness :
  reachable sample_db
  /\ fetch_private_funds sample_db 160882
     = Ok [{| name := py "XYZ Fund";
              identification_number := py "805-123456" |}]
  /\ NoDup (map identification_number
                [{| name := py "XYZ Fund";
                    identification_number := py "805-123456" |}]).
Proof.
  assert (H : fetch_private_funds sample_db 160882
              = Ok [{| name := py "XYZ Fund";
                       identification_number := py "805-123456" |}])
    by (vm_compute; reflexivity).
  split; [exact sample_db_reachable|]. split; [exact H|].
  apply (@fetched_fund_ids_distinct sample_db 160882 _
           sample_db_reachable H).
Defined.

(** *** Facts about [strip] and [split] *)

Lemma lstrip_Forall (P : ascii -> Prop) s :
  Forall P s -> Forall P (lstrip s).
Proof.
  induction 1 as [|c t Hc Ht IH]; cbn; [constructor|].
  destruct (is_space c); [exact IH | now constructor].
Qed.

Lemma strip_Forall (P : ascii -> Prop) s :
  Forall P s -> Forall P (strip s).
Proof.
  intro H. unfold strip, rstrip.
  apply Forall_rev, lstrip_Forall, Forall_rev, lstrip_Forall, H.
Qed.

Lemma lstrip_head s c t : lstrip s = c :: t -> is_space c = false.
Proof.
  induction s as [|x s IH]; cbn; [discriminate|].
  destruct (is_space x) eqn:E; [exact IH|]. intro H. now inversion H; subst.
Qed.

Lemma lstrip_split s :
  exists w, s = w ++ lstrip s /\ Forall (fun c => is_space c = true) w.
Proof.
  induction s as [|x s (w & E & F)]; cbn.
  - exists []. split; [reflexivity | constructor].
  - destruct (is_space x) eqn:Hx.
    + exists (x :: w). split; [cbn; now f_equal | now constructor].
    + exists []. split; [reflexivity | constructor].
Qed.

(** What [strip] returns is left as it is by [strip]. *)
Lemma strip_trimmed s : trimmed (strip s).
Proof.
  unfold trimmed.
  assert (S : strip s = rev (lstrip (rev (lstrip s)))) by reflexivity.
  rewrite S. clear S.
  destruct (lstrip (rev (lstrip s))) as [|c t] eqn:B; [reflexivity|].
  pose proof (lstrip_head _ B) as Hc.
  destruct (lstrip_split (rev (lstrip s))) as (w & E & _).
  rewrite B in E. apply (f_equal (@rev ascii)) in E.
  rewrite rev_involutive, rev_app_distr in E.
  assert (Hne : rev (c :: t) <> []).
  { intro N. apply (f_equal (@rev ascii)) in N.
    rewrite rev_involutive in N. discriminate. }
  destruct (rev (c :: t)) as [|c0 t0] eqn:R; [congruence|].
  assert (Hc0 : is_space c0 = false)
    by (apply lstrip_head with (s := s) (t := t0 ++ rev w); exact E).
  unfold strip, rstrip. rewrite lstrip_id by exact Hc0.
  rewrite <- R, rev_involutive, lstrip_id by exact Hc. reflexivity.
Qed.

Lemma split_chr_no_sep c s w : In w (split_chr c s) -> ~ In c w.
Proof.
  revert w. induction s as [|x s IH]; cbn; intros w H.
  - destruct H as [<-|[]]. intros [].
  - destruct (Ascii.eqb x c) eqn:E.
    + destruct H as [<-|H]; [intros [] | now apply IH].
    + apply Ascii.eqb_neq in E.
      destruct (split_chr c s) as [|w0 ws].
      * destruct H as [<-|[]]. intros [H|[]]. congruence.
      * destruct H as [<-|H].
        -- intros [H|H]; [congruence|]. apply (IH w0); [now left | exact H].
        -- apply IH. now right.
Qed.

Lemma Forall_not_In (c : ascii) (w : str) :
  ~ In c w <-> Forall (fun x => x <> c) w.
Proof.
  rewrite Forall_forall. split.
  - intros H x Hx E. subst. contradiction.
  - intros H Hin. now apply (H c Hin).
Qed.

(** X10. The labels stored for an entity are trimmed, whatever was
    passed; when the arrangements were passed as one string, every
    stored label is moreover non-empty and free of commas, and a value
    that is neither a list nor a string stores none. *)
Theorem stored_labels_normalised (now : timestamp) (crd : Z)
        (data : firm_data) (d d' : database) (l : list str) :
  write now [(crd, data)] d = (Ok tt, d') ->
  fetch_compensation d' crd = Ok l ->
  Forall trimmed l
  /\ (forall s, DatabaseSink.compensation_arrangements data = Some (ArrStr s)
                -> Forall (fun x => x <> [] /\ ~ In ","%char x) l)
  /\ (DatabaseSink.compensation_arrangements data = Some ArrOther
      -> l = []).
Proof.
  intros Hw Hf. apply write_one_ok in Hw as [W ->].
  assert (Hc : fits_int64 crd = true).
  { unfold writable in W. now rewrite !andb_true_iff in W. }
  rewrite fetch_compensation_stored, written_compensation in Hf
    by exact Hc.
  inversion Hf; subst l; clear Hf.
  split; [|split].
  - destruct (DatabaseSink.compensation_arrangements data) as [[a|s|]|];
      cbn [get_default arrangement_list].
    + induction a as [|[|z|s] a IH]; cbn;
        [constructor | exact IH | exact IH |].
      constructor; [apply strip_trimmed | exact IH].
    + induction (split_chr "," s) as [|w ws IH]; cbn; [constructor|].
      destruct (truthy (strip w)); cbn; trivial.
      constructor; [apply strip_trimmed | exact IH].
    + constructor.
    + constructor.
  - intros s ->. cbn [get_default arrangement_list].
    pose proof (@split_chr_no_sep ","%char s) as Hs.
    induction (split_chr "," s) as [|w ws IH]; cbn; [constructor|].
    assert (IH' := IH (fun w' H => Hs w' (or_intror H))).
    destruct (strip w) as [|c t] eqn:E; cbn [truthy app]; trivial.
    constructor; [|exact IH'].
    split; [discriminate|]. rewrite <- E.
    apply Forall_not_In, strip_Forall, Forall_not_In, Hs. now left.
  - intros ->. reflexivity.
Qed.

Definition padded_data : firm_data :=
  {| DatabaseSink.sec_nb := None;
     DatabaseSink.business_name := None;
     DatabaseSink.full_legal_name := None;
     DatabaseSink.address := None;
     DatabaseSink.phone_number := None;
     DatabaseSink.employee_count := None;
     DatabaseSink.signatory := None;
     DatabaseSink.compensation_arrangements :=
       Some (ArrStr " Hourly charges , ,Commissions,");
     DatabaseSink.client_types := None;
     DatabaseSink.private_funds := None |}.

Lemma stored_labels_normalised_witness :
  fetch_compensation (snd (write 1 [(5%Z, padded_data)] empty_db)) 5
  = Ok [py "Hourly charges"; py "Commissions"]
  /\ Forall (fun x => x <> [] /\ ~ In ","%char x)
            [py "Hourly charges"; py "Commissions"].
Proof.
  assert (Hw : write 1 [(5%Z, padded_data)] empty_db
               = (Ok tt, snd (write 1 [(5%Z, padded_data)] empty_db)))
    by (vm_compute; reflexivity).
  assert (Hf : fetch_compensation
                 (snd (write 1 [(5%Z, padded_data)] empty_db)) 5
               = Ok [py "Hourly charges"; py "Commissions"])
    by (vm_compute; reflexivity).
  split; [exact Hf|].
  exact (proj1 (proj2 (@stored_labels_normalised 1 5 padded_data empty_db
                         _ _ Hw Hf))
               (py " Hourly charges , ,Commissions,") eq_refl).
Defined.

(** * Further properties of the field extractor *)

(** *** The compensation check boxes *)

(** The box of a label is ticked on a page: the label is found there and
    the square left of its first occurrence is dark enough. *)
Definition ticked (p : page) (label : str) : bool :=
  match search_for p label with
  | [] => false
  | label_rect :: _ =>
      _is_checkbox_checked p (checkbox_rect label_rect) default_threshold
  end.

Lemma check_options_filter p options acc :
  check_options (Some p) options acc
  = Ok (acc ++ filter (ticked p) (map fst options)).
Proof.
  revert acc. induction options as [|[label number] rest IH]; intro acc;
    cbn [check_options map fst filter].
  - now rewrite app_nil_r.
  - destruct (ticked p label) eqn:T; unfold ticked in T;
      destruct (search_for p label) as [|label_rect rects];
      try discriminate; rewrite ?T; rewrite IH; trivial.
    now rewrite <- app_assoc.
Qed.

Lemma find_page_first (pre : doc) (p : page) (post : doc) :
  Forall (fun q => search_for q "Compensation Arrangements" = []) pre ->
  search_for p "Compensation Arrangements" <> [] ->
  find_page (pre ++ p :: post) = Some p.
Proof.
  intros Hpre Hp. induction Hpre as [|q pre Hq _ IH]; cbn [app find_page].
  - destruct (search_for p "Compensation Arrangements"); [congruence|].
    reflexivity.
  - rewrite Hq. exact IH.
Qed.

(** X11. When some page carries the anchor phrase, the arrangements are
    read on the first such page only: the routine returns the labels
    whose box is ticked there, in the order of the form, judging each
    label by its first occurrence on that page; later pages play no
    part. *)
Theorem compensation_arrangements_of (pre : doc) (p : page) (post : doc) :
  Forall (fun q => search_for q "Compensation Arrangements" = []) pre ->
  search_for p "Compensation Arrangements" <> [] ->
  _extract_compensation_arrangements (pre ++ p :: post)
  = Ok (filter (ticked p) (map fst compensation_options)).
Proof.
  intros Hpre Hp. unfold _extract_compensation_arrangements.
  rewrite (@find_page_first pre p post Hpre Hp).
  now rewrite check_options_filter.
Qed.

Lemma compensation_arrangements_of_witness :
  Forall (fun q => search_for q "Compensation Arrangements" = []) [blank_page]
  /\ search_for filing_page "Compensation Arrangements" <> []
  /\ _extract_compensation_arrangements
       ([blank_page] ++ filing_page :: [page_of three_in_twenty])
     = Ok (filter (ticked filing_page) (map fst compensation_options))
  /\ filter (ticked filing_page) (map fst compensation_options)
     = [py "Commissions"].
Proof.
  assert (H1 : Forall (fun q => search_for q "Compensation Arrangements" = [])
                      [blank_page]) by (repeat constructor).
  assert (H2 : search_for filing_page "Compensation Arrangements" <> [])
    by (vm_compute; discriminate).
  split; [exact H1|]. split; [exact H2|].
  split; [|vm_compute; reflexivity].
  apply (@compensation_arrangements_of [blank_page] filing_page
           [page_of three_in_twenty] H1 H2).
Defined.

(** *** Captured groups are parts of the text *)

Definition caps_le (N : nat) (c : caps) : Prop :=
  Forall (fun p => (List.length (snd p) <= N)%nat) c.

Lemma run_caps_le fl r N s c k res :
  (List.length s <= N)%nat -> caps_le N c ->
  run fl r s c k = Some res ->
  exists s' c', k s' c' = Some res
                /\ (List.length s' <= List.length s)%nat
                /\ caps_le N c'.
Proof.
  revert s c k res; induction r as [l|cs lo g|r1 IH1 r2 IH2|r1 IH1 r2 IH2
                                    |n r IH|r IH| |];
    intros s c k res Hs Hc; cbn [run].
  - destruct (eat fl l s) as [s'|] eqn:E; [|discriminate].
    intro H. exists s', c. repeat split; trivial. eapply eat_suffix; eauto.
  - destruct g; intro H;
      [apply rep_greedy_inv in H | apply rep_lazy_inv in H];
      destruct H as (w & s' & -> & _ & _ & H); exists s', c;
      (repeat split; trivial; rewrite length_app; lia).
  - intro H. apply IH1 in H as (s1 & c1 & H & L1 & C1); trivial.
    apply IH2 in H as (s2 & c2 & H & L2 & C2); trivial; [|lia].
    exists s2, c2. repeat split; trivial. lia.
  - unfold or_else. destruct (run fl r1 s c k) as [x|] eqn:R.
    + intro H; inversion H; subst x. now apply IH1 in R.
    + now apply IH2.
  - intro H. apply IH in H as (s' & c' & H & L & C); trivial.
    exists s', ((n, firstn (List.length s - List.length s') s) :: c').
    repeat split; trivial. constructor; trivial. cbn [snd].
    rewrite length_firstn. lia.
  - destruct (run fl r s c (fun s' c' => Some (s', c'))) as [[s1 c1]|] eqn:R;
      [|discriminate].
    apply IH in R as (s' & c' & E & _ & C); trivial. inversion E; subst.
    intro H. exists s, c1. repeat split; trivial.
  - destruct s as [|x [|y t]]; try discriminate.
    + intro H. exists [], c. repeat split; trivial.
    + destruct (Ascii.eqb x nl); [|discriminate].
      intro H. exists [x], c. repeat split; trivial.
  - destruct s as [|x t]; [|discriminate].
    intro H. exists [], c. repeat split; trivial.
Qed.

Lemma group_le N n c : caps_le N c -> (List.length (group n c) <= N)%nat.
Proof.
  unfold group. induction 1 as [|[i s] c Hs Hc IH]; cbn [group_opt].
  - cbn. lia.
  - destruct (Nat.eqb i n); [exact Hs | exact IH].
Qed.

Lemma search_group_le fl r s m n :
  search fl r s = Some m ->
  (List.length (group n m) <= List.length s)%nat.
Proof.
  intro H. apply search_found in H as (s0 & s' & H & L).
  unfold match_here in H.
  apply (@run_caps_le fl r (List.length s0)) in H
    as (s1 & c1 & E & _ & C); [|lia|constructor].
  inversion E; subst. pose proof (group_le n C). lia.
Qed.

(** *** Client types: the only failure *)

Lemma span_amount_raises line_text e :
  span_amount line_text = Raise e -> e = ValueError.
Proof.
  unfold span_amount. destruct (search NOFLAG aum_pattern line_text);
    [|discriminate].
  destruct (truthy _); [|discriminate].
  destruct (py_int _); [discriminate|]. now intro H; inversion H.
Qed.

Lemma client_loop_raises section letters acc e :
  client_loop section letters acc = Raise e -> e = ValueError.
Proof.
  revert acc. induction letters as [|[letter label] rest IH]; intro acc;
    cbn [client_loop]; [discriminate|].
  destruct (search DOTALL _ section) as [m|]; [|apply IH].
  destruct (span_amount (group 1 m)) as [v|e'] eqn:S; cbn [bind_result].
  - apply IH.
  - intro H; inversion H; subst. exact (span_amount_raises _ S).
Qed.

Lemma client_section_le text section :
  client_section_of text = Some section ->
  (List.length section <= List.length text)%nat.
Proof.
  unfold client_section_of.
  destruct (search DOTALL section_pattern text) as [m|] eqn:S1.
  - intro H; inversion H; subst. exact (@search_group_le _ _ _ _ 1 S1).
  - destruct (search DOTALL section_pattern_fallback text) as [m|] eqn:S2;
      [|discriminate].
    intro H; inversion H; subst. exact (@search_group_le _ _ _ _ 1 S2).
Qed.

Lemma client_types_raises text e :
  _extract_client_types text = Raise e -> e = ValueError.
Proof.
  unfold _extract_client_types.
  destruct (client_section_of text); [apply client_loop_raises|].
  discriminate.
Qed.

(** X12. The client-type routine raises nothing but [ValueError] (the
    unguarded [int] of an amount), and only on a text of more than 4300
    characters: on any shorter text it returns a mapping. *)
Theorem client_types_errors (text : str) :
  (forall e, _extract_client_types text = Raise e -> e = ValueError)
  /\ ((List.length text <= int_max_str_digits)%nat ->
      exists d, _extract_client_types text = Ok d).
Proof.
  split.
  - intros e H. destruct e; trivial;
      apply client_types_raises in H; discriminate.
  - intro L. apply client_types_returns.
    intros section letter next m m' Hs Hm Hm'.
    apply client_section_le in Hs.
    pose proof (@search_group_le _ _ _ _ 1 Hm) as L1.
    pose proof (@search_group_le _ _ _ _ 1 Hm') as L2.
    unfold remove_chr.
    pose proof (filter_length_le
                  (fun x => negb (Ascii.eqb x ","%char)) (group 1 m')) as L3.
    lia.
Qed.

Lemma client_types_errors_witness :
  (List.length
     (py "Type of Client (a) Individuals $5,000,000 (b) High net worth (c)")
   <= int_max_str_digits)%nat
  /\ exists d,
       _extract_client_types
         (py "Type of Client (a) Individuals $5,000,000 (b) High net worth (c)")
       = Ok d.
Proof.
  assert (L : (List.length
                 (py "Type of Client (a) Individuals $5,000,000 (b) High net worth (c)")
               <= int_max_str_digits)%nat)
    by (vm_compute; repeat constructor).
  split; [exact L|].
  exact (proj2 (client_types_errors
                  (py "Type of Client (a) Individuals $5,000,000 (b) High net worth (c)"))
               L).
Defined.

(** *** The record assembler as a whole *)

(** X13. What [transform] does with a file is decided by two things
    only.  With no page carrying the anchor phrase it raises
    [AttributeError], whatever the text; otherwise it raises
    [ValueError] when the client-type routine does, and in every other
    case it returns a record, whose arrangements are the labels ticked
    on the first anchor page. *)
Theorem transform_outcome (full_text : str) (d : doc) :
  match find_page d with
  | None => transform full_text d = Raise AttributeError
  | Some p =>
      match _extract_client_types full_text with
      | Raise _ => transform full_text d = Raise ValueError
      | Ok clients =>
          exists r, transform full_text d = Ok r
                    /\ PdfTransformer.compensation_arrangements r
                       = filter (ticked p) (map fst compensation_options)
                    /\ PdfTransformer.client_types r = clients
      end
  end.
Proof.
  unfold transform, _extract_compensation_arrangements.
  destruct (find_page d) as [p|]; [|reflexivity].
  rewrite check_options_filter. cbn [bind_result app].
  destruct (_extract_client_types full_text) as [clients|e] eqn:C;
    cbn [bind_result].
  - eexists. split; [reflexivity|]. split; reflexivity.
  - now rewrite (client_types_raises _ C).
Qed.

(** * The pipeline: extract, then store

    Step (2) of [MLPPipeline.run]:
    [firm_data = {crd: self.pdf_transformer.transform(crd) for crd, path
    in pdf_paths.items()}; self.db_manager.write(firm_data)]. *)

Module Pipeline.

(** What the readers give for the file of a firm: the text of
    [ocr_reader.read] and the pages [fitz.open] yields. *)
Definition files := Z -> str * doc.

(** [firm_data[k] = v] in a dictionary with integer keys. *)
Fixpoint zdict_set {V} (k : Z) (v : V) (d : list (Z * V)) : list (Z * V) :=
  match d with
  | [] => [(k, v)]
  | (k', v') :: d' =>
      if Z.eqb k k' then (k, v) :: d' else (k', v') :: zdict_set k v d'
  end.

(** The dictionary comprehension: the first [transform] that raises ends
    it. *)
Fixpoint transform_each (read : files) (pdf_paths : list Z)
         (firm_data : list (Z * firm_record))
  : result (list (Z * firm_record)) :=
  match pdf_paths with
  | [] => Ok firm_data
  | firm_crd_number :: rest =>
      let? r := transform (fst (read firm_crd_number))
                          (snd (read firm_crd_number)) in
      transform_each read rest (zdict_set firm_crd_number r firm_data)
  end.

Definition extract_and_store (now : timestamp) (read : files)
           (pdf_paths : list Z) (d : database) : result unit * database :=
  match transform_each read pdf_paths [] with
  | Ok firm_data =>
      write now (map (fun kr => (fst kr, of_record (snd kr))) firm_data) d
  | Raise e => (Raise e, d)
  end.

End Pipeline.

Import Pipeline.

Lemma transform_raises full_text d e :
  transform full_text d = Raise e -> e = AttributeError \/ e = ValueError.
Proof.
  unfold transform, _extract_compensation_arrangements.
  destruct (find_page d) as [p|].
  - rewrite check_options_filter. cbn [bind_result].
    destruct (_extract_client_types full_text) as [c|e'] eqn:C;
      cbn [bind_result]; [discriminate|].
    intro H; inversion H; subst. right. exact (client_types_raises _ C).
  - cbn. intro H; inversion H. now left.
Qed.

Lemma transform_each_raises read paths acc crd e :
  In crd paths ->
  transform (fst (read crd)) (snd (read crd)) = Raise e ->
  exists e', transform_each read paths acc = Raise e'
             /\ (e' = AttributeError \/ e' = ValueError).
Proof.
  revert acc. induction paths as [|c rest IH]; intros acc Hin Ht;
    [destruct Hin|].
  cbn [transform_each].
  destruct (transform (fst (read c)) (snd (read c))) as [r|e0] eqn:T;
    cbn [bind_result].
  - destruct Hin as [->|Hin]; [congruence|]. now apply IH.
  - exists e0. split; [reflexivity | exact (transform_raises _ _ T)].
Qed.

(** X14. Extraction comes before any storing: when [transform] raises
    for one file of the batch (a file without the anchor page, an
    overlong amount), the step raises [AttributeError] or [ValueError]
    and the store is left as it was, also for the firms whose files were
    read without error. *)
Theorem extraction_failure_stores_nothing (now : timestamp) (read : files)
        (pdf_paths : list Z) (d : database) (crd : Z) (e : exn) :
  In crd pdf_paths ->
  transform (fst (read crd)) (snd (read crd)) = Raise e ->
  exists e', extract_and_store now read pdf_paths d = (Raise e', d)
             /\ (e' = AttributeError \/ e' = ValueError).
Proof.
  intros Hin Ht. unfold extract_and_store.
  destruct (transform_each_raises read pdf_paths [] crd Hin Ht)
    as (e' & -> & He).
  exists e'. split; [reflexivity | exact He].
Qed.

Definition two_files : files :=
  fun crd => if Z.eqb crd 160882%Z then (filing_text, [filing_page])
             else (filing_text, [blank_page]).

Lemma extraction_failure_stores_nothing_witness :
  In 7%Z [160882%Z; 7%Z]
  /\ transform (fst (two_files 7%Z)) (snd (two_files 7%Z)) = Raise AttributeError
  /\ exists e', extract_and_store 1 two_files [160882%Z; 7%Z] empty_db
                = (Raise e', empty_db)
                /\ (e' = AttributeError \/ e' = ValueError).
Proof.
  assert (H1 : In 7%Z [160882%Z; 7%Z]) by (right; now left).
  assert (H2 : transform (fst (two_files 7%Z)) (snd (two_files 7%Z))
               = Raise AttributeError) by (vm_compute; reflexivity).
  split; [exact H1|]. split; [exact H2|].
  apply (@extraction_failure_stores_nothing 1 two_files [160882%Z; 7%Z]
           empty_db 7%Z AttributeError H1 H2).
Defined.

Lemma zdict_set_keys {V} (k : Z) (v : V) (d : list (Z * V)) :
  map fst (zdict_set k v d)
  = if existsb (Z.eqb k) (map fst d) then map fst d else map fst d ++ [k].
Proof.
  induction d as [|[k' v'] d IH]; cbn [zdict_set map fst existsb app];
    trivial.
  destruct (Z.eqb k k') eqn:E; cbn [orb map fst].
  - apply Z.eqb_eq in E. now subst.
  - rewrite IH. now destruct (existsb (Z.eqb k) (map fst d)).
Qed.

Lemma zdict_set_NoDup {V} (k : Z) (v : V) (d : list (Z * V)) :
  NoDup (map fst d) -> NoDup (map fst (zdict_set k v d)).
Proof.
  intro H. rewrite zdict_set_keys.
  destruct (existsb (Z.eqb k) (map fst d)) eqn:E; trivial.
  apply NoDup_app; trivial.
  - repeat constructor. intros [].
  - intros x Hx [<-|[]].
    assert (existsb (Z.eqb k) (map fst d) = true); [|congruence].
    apply existsb_exists. exists k. split; [exact Hx | apply Z.eqb_refl].
Qed.

Lemma zdict_set_has {V} (k k' : Z) (v : V) (d : list (Z * V)) :
  k' = k \/ In k' (map fst d) -> In k' (map fst (zdict_set k v d)).
Proof.
  rewrite zdict_set_keys.
  destruct (existsb (Z.eqb k) (map fst d)) eqn:E.
  - intros [->|H]; trivial.
    apply existsb_exists in E as (x & Hx & Hk). apply Z.eqb_eq in Hk.
    now subst.
  - intros [->|H]; apply in_or_app; [right; now left | now left].
Qed.

Lemma zdict_set_from {V} (k k' : Z) (v v' : V) (d : list (Z * V)) :
  In (k', v') (zdict_set k v d) -> (k', v') = (k, v) \/ In (k', v') d.
Proof.
  induction d as [|[k0 v0] d IH]; cbn [zdict_set].
  - intros [H|[]]; now left.
  - destruct (Z.eqb k k0).
    + intros [H|H]; [now left | right; now right].
    + intros [H|H]; [right; now left|].
      destruct (IH H); [now left | right; now right].
Qed.

Lemma transform_each_ok read paths acc items :
  transform_each read paths acc = Ok items ->
  NoDup (map fst acc) ->
  (forall k r, In (k, r) acc ->
               transform (fst (read k)) (snd (read k)) = Ok r) ->
  NoDup (map fst items)
  /\ (forall k r, In (k, r) items ->
                  transform (fst (read k)) (snd (read k)) = Ok r)
  /\ (forall k, In k paths \/ In k (map fst acc) -> In k (map fst items)).
Proof.
  revert acc. induction paths as [|c rest IH]; intros acc H Hn Ha;
    cbn [transform_each] in H.
  - inversion H; subst. repeat split; trivial. intros k [[]|Hk]. exact Hk.
  - destruct (transform (fst (read c)) (snd (read c))) as [r|e] eqn:T;
      cbn [bind_result] in H; [|discriminate].
    apply IH in H as (H1 & H2 & H3).
    + repeat split; trivial. intros k Hk. apply H3.
      destruct Hk as [[->|Hk]|Hk].
      * right. apply zdict_set_has. now left.
      * now left.
      * right. apply zdict_set_has. now right.
    + now apply zdict_set_NoDup.
    + intros k r0 Hin. apply zdict_set_from in Hin as [E|Hin]; [|eauto].
      inversion E; subst. exact T.
Qed.

Lemma write_all_stored now items d d' crd data :
  write_all now items d = (Ok tt, d') ->
  NoDup (map fst items) -> In (crd, data) items ->
  writable crd data = true
  /\ forall d0,
       stored_compensation d' crd
       = stored_compensation (written now crd data d0) crd
       /\ stored_client_types d' crd
          = stored_client_types (written now crd data d0) crd
       /\ stored_private_funds d' crd
          = stored_private_funds (written now crd data d0) crd.
Proof.
  revert d. induction items as [|[c0 d0] rest IH]; intros d H Hn Hin;
    [destruct Hin|].
  cbn [write_all] in H. cbn [map fst] in Hn.
  inversion Hn as [|? ? Hc Hrest]; subst.
  destruct (apply_all (stmts_of now c0 d0) d) as [[[]|e] d1] eqn:E;
    [|discriminate].
  apply stmts_of_ok in E as [W ->].
  destruct Hin as [Heq|Hin].
  - inversion Heq; subst c0 d0. split; [exact W|]. intro dz.
    destruct (@write_all_others now rest (written now crd data d) crd Hc)
      as (_ & H2 & H3 & H4).
    rewrite H in H2, H3, H4. cbn [snd] in H2, H3, H4.
    rewrite H2, H3, H4.
    now rewrite !written_compensation, !written_client_types,
      !written_private_funds.
  - exact (IH _ H Hrest Hin).
Qed.

(** X15. What the step stores is what was extracted: when it returns,
    every firm of the batch has a record from [transform], and the three
    fetchers give back that record's arrangements, client types and
    private funds exactly as they were assembled. *)
Theorem stored_as_extracted (now : timestamp) (read : files)
        (pdf_paths : list Z) (d d' : database) (crd : Z) :
  extract_and_store now read pdf_paths d = (Ok tt, d') ->
  In crd pdf_paths ->
  exists r,
    transform (fst (read crd)) (snd (read crd)) = Ok r
    /\ fetch_compensation d' crd
       = Ok (PdfTransformer.compensation_arrangements r)
    /\ fetch_client_types d' crd = Ok (PdfTransformer.client_types r)
    /\ fetch_private_funds d' crd
       = Ok (map entry (PdfTransformer.private_funds r)).
Proof.
  unfold extract_and_store. intros H Hin.
  destruct (transform_each read pdf_paths []) as [items|e] eqn:T;
    [|discriminate].
  apply transform_each_ok in T as (Hn & Hr & Hk);
    [|constructor | intros k r []].
  assert (Hc : In crd (map fst items)) by (apply Hk; now left).
  apply in_map_iff in Hc as ([k r] & Ek & Hitem). cbn [fst] in Ek. subst k.
  exists r. split; [exact (Hr _ _ Hitem)|].
  rewrite write_spec in H.
  apply write_all_stored with (crd := crd) (data := of_record r) in H
    as (W & Hs).
  2:{ now rewrite map_map. }
  2:{ apply in_map_iff. exists (crd, r). now split. }
  assert (Hfit : fits_int64 crd = true).
  { unfold writable in W. rewrite !andb_true_iff in W. tauto. }
  destruct (Hs d) as (S1 & S2 & S3).
  assert (Hw : write now [(crd, of_record r)] d
               = (Ok tt, written now crd (of_record r) d))
    by (apply write_one_ok; auto).
  destruct (@transform_round_trip _ _ r now crd d _ (Hr _ _ Hitem) Hw)
    as (F1 & F2 & F3).
  rewrite fetch_compensation_stored in F1 |- * by exact Hfit.
  rewrite fetch_client_types_stored in F2 |- * by exact Hfit.
  rewrite fetch_private_funds_stored in F3 |- * by exact Hfit.
  rewrite S1, S2, S3. auto.
Qed.

Lemma stored_as_extracted_witness :
  In 160882%Z [160882%Z]
  /\ exists d',
       extract_and_store 1 two_files [160882%Z] empty_db = (Ok tt, d')
       /\ exists r,
            transform (fst (two_files 160882%Z)) (snd (two_files 160882%Z))
            = Ok r
            /\ fetch_compensation d' 160882
               = Ok (PdfTransformer.compensation_arrangements r)
            /\ fetch_client_types d' 160882
               = Ok (PdfTransformer.client_types r)
            /\ fetch_private_funds d' 160882
               = Ok (map entry (PdfTransformer.private_funds r)).
Proof.
  assert (H1 : In 160882%Z [160882%Z]) by now left.
  assert (H2 : extract_and_store 1 two_files [160882%Z] empty_db
               = (Ok tt,
                  snd (extract_and_store 1 two_files [160882%Z] empty_db)))
    by (vm_compute; reflexivity).
  split; [exact H1|]. eexists. split; [exact H2|].
  apply (@stored_as_extracted 1 two_files [160882%Z] empty_db _ 160882%Z
           H2 H1).
Defined.

(** * The scalar fields: what a value can look like *)

(** A pattern that ends in a capturing group made of one class. *)
Lemma last_group fl rs cs lo text m :
  search fl (seq (rs ++ [Grp 1 (Rep cs lo true)])) text = Some m ->
  Forall (fun x => cs_mem fl cs x = true) (group 1 m)
  /\ (lo <= List.length (group 1 m))%nat.
Proof.
  intro H. apply search_found in H as (s0 & s' & H & _).
  unfold match_here in H.
  apply run_seq_last in H as (s1 & c1 & H & _).
  apply closing_group_rep in H as (w & -> & Hw & Hlo & _). auto.
Qed.

Definition closes_with (P : ascii -> Prop) (p : regex) : Prop :=
  exists rs cs,
    p = seq (rs ++ [Grp 1 (Rep cs 1 true)])
    /\ forall c, cs_mem IGNORECASE cs c = true -> P c.

Lemma first_result_shape (P : ascii -> Prop) text patterns v :
  Forall (closes_with P) patterns ->
  first_result text patterns = Some v ->
  v <> [] /\ trimmed v /\ Forall P v.
Proof.
  unfold first_result. intro Hp.
  induction Hp as [|p rest (rs & cs & -> & Hcs) _ IH]; cbn [first_return];
    [discriminate|].
  unfold _extract_with_regex at 1 2.
  destruct (search IGNORECASE _ text) as [m|] eqn:S; cbn [if_result];
    [|exact IH].
  destruct (truthy (strip (group 1 m))) eqn:T; [|exact IH].
  intro H; inversion H; subst v; clear H.
  apply last_group in S as [Hw _].
  split; [|split].
  - destruct (strip (group 1 m)); [discriminate T | discriminate].
  - apply strip_trimmed.
  - apply strip_Forall. eapply Forall_impl; [|exact Hw]. exact Hcs.
Qed.

Lemma line_class_mem c :
  cs_mem IGNORECASE (CNotIn [IChr nl]) c = true -> c <> nl.
Proof.
  destruct c as [b0 b1 b2 b3 b4 b5 b6 b7].
  destruct b0, b1, b2, b3, b4, b5, b6, b7; vm_compute; intro H;
    try discriminate H; intro E; discriminate E.
Qed.

Lemma sec_class_mem c :
  cs_mem IGNORECASE (CIn [IDigit; IChr "-"]) c = true ->
  is_digit c = true \/ c = "-"%char.
Proof.
  destruct c as [b0 b1 b2 b3 b4 b5 b6 b7].
  destruct b0, b1, b2, b3, b4, b5, b6, b7; vm_compute; intro H;
    try discriminate H; auto.
Qed.

Lemma phone_class_mem c :
  cs_mem IGNORECASE
         (CIn [IDigit; IChr "-"; IChr " "; IChr "("; IChr ")"; IChr "+"]) c
  = true ->
  is_digit c = true \/ In c (py "- ()+").
Proof.
  destruct c as [b0 b1 b2 b3 b4 b5 b6 b7].
  destruct b0, b1, b2, b3, b4, b5, b6, b7; vm_compute; intro H;
    try discriminate H; auto 8.
Qed.

Lemma digit_class_mem fl c : cs_mem fl CDigit c = true -> is_digit c = true.
Proof. trivial. Qed.

Lemma digit_not_nl c : is_digit c = true -> c <> nl.
Proof.
  intros H E. subst. discriminate H.
Qed.

(** X16. A string-valued field read by the pattern lists (SEC number,
    business name, full legal name, telephone number) is, when present,
    never empty, carries no white space at either end and holds no line
    break. *)
Theorem string_fields_clean (text : str) (v : str) :
  _extract_sec_number text = Some v
  \/ _extract_business_name text = Some v
  \/ _extract_full_legal_name text = Some v
  \/ _extract_phone_number text = Some v ->
  v <> [] /\ trimmed v /\ ~ In nl v.
Proof.
  assert (G : forall patterns,
             Forall (closes_with (fun c => c <> nl)) patterns ->
             first_result text patterns = Some v ->
             v <> [] /\ trimmed v /\ ~ In nl v).
  { intros patterns Hp H.
    destruct (@first_result_shape _ text patterns v Hp H) as (H1 & H2 & H3).
    repeat split; trivial. now apply Forall_not_In. }
  assert (Hsec : forall c, cs_mem IGNORECASE (CIn [IDigit; IChr "-"]) c = true
                           -> c <> nl).
  { intros c Hc. apply sec_class_mem in Hc as [Hc| ->];
      [now apply digit_not_nl | discriminate]. }
  assert (Hphone : forall c,
             cs_mem IGNORECASE
               (CIn [IDigit; IChr "-"; IChr " "; IChr "("; IChr ")";
                     IChr "+"]) c = true -> c <> nl).
  { intros c Hc. apply phone_class_mem in Hc as [Hc|Hc];
      [now apply digit_not_nl|].
    cbn in Hc. intuition (subst; discriminate). }
  intros [H|[H|[H|H]]]; revert H; apply G.
  - repeat constructor;
      [exists [Lit "SEC file number:"; ws]
      |exists [Lit "SEC File Number:"; ws]
      |exists [Lit ("you are registered with the SEC as an investment adviser, "
                    ++ "your SEC file number:")%string; ws]
      |exists [Lit "your SEC file number:"; ws]];
      exists (CIn [IDigit; IChr "-"]); (split; [reflexivity | exact Hsec]).
  - repeat constructor;
      [exists [Lit "Primary Business Name:"; ws]
      |exists [Lit "Name under which you primarily conduct your advisory business";
               star (CNotIn [IChr ":"]); Lit ":"; ws]];
      exists (CNotIn [IChr nl]);
      (split; [reflexivity | exact line_class_mem]).
  - repeat constructor;
      [exists [Lit "Your full legal name"; star_lazy CAny; Lit ":"; ws]
      |exists [Lit "full legal name"; star_lazy CAny; Lit ":"; ws]
      |exists [Lit "A."; plus CSpace; Lit "Your full legal name";
               star_lazy CAny; Lit ":"; ws]];
      exists (CNotIn [IChr nl]);
      (split; [reflexivity | exact line_class_mem]).
  - repeat constructor;
      [exists [Lit "Telephone Number:"; ws]
      |exists [Lit "Telephone number at this location:"; ws]];
      exists (CIn [IDigit; IChr "-"; IChr " "; IChr "("; IChr ")"; IChr "+"]);
      (split; [reflexivity | exact Hphone]).
Qed.

Lemma string_fields_clean_witness :
  _extract_business_name
    (py "Primary Business Name:   Acme Capital  " ++ [nl] ++ py "CRD")
  = Some (py "Acme Capital")
  /\ py "Acme Capital" <> [] /\ trimmed (py "Acme Capital")
  /\ ~ In nl (py "Acme Capital").
Proof.
  assert (H : _extract_business_name
                (py "Primary Business Name:   Acme Capital  " ++ [nl]
                 ++ py "CRD")
              = Some (py "Acme Capital")) by (vm_compute; reflexivity).
  split; [exact H|].
  apply (@string_fields_clean
           (py "Primary Business Name:   Acme Capital  " ++ [nl] ++ py "CRD")
           (py "Acme Capital")).
  right; left; exact H.
Defined.

(** X17. The SEC number, when present, is made of digits and hyphens
    only, and the telephone number of digits, hyphens, spaces,
    parentheses and plus signs only. *)
Theorem sec_and_phone_alphabet (text : str) (v : str) :
  (_extract_sec_number text = Some v ->
   Forall (fun c => is_digit c = true \/ c = "-"%char) v)
  /\ (_extract_phone_number text = Some v ->
      Forall (fun c => is_digit c = true \/ In c (py "- ()+")) v).
Proof.
  split; intro H.
  - refine (proj2 (proj2 (@first_result_shape _ text sec_patterns v _ H))).
    repeat constructor;
      [exists [Lit "SEC file number:"; ws]
      |exists [Lit "SEC File Number:"; ws]
      |exists [Lit ("you are registered with the SEC as an investment adviser, "
                    ++ "your SEC file number:")%string; ws]
      |exists [Lit "your SEC file number:"; ws]];
      exists (CIn [IDigit; IChr "-"]);
      (split; [reflexivity | exact sec_class_mem]).
  - refine (proj2 (proj2 (@first_result_shape _ text phone_patterns v _ H))).
    repeat constructor;
      [exists [Lit "Telephone Number:"; ws]
      |exists [Lit "Telephone number at this location:"; ws]];
      exists (CIn [IDigit; IChr "-"; IChr " "; IChr "("; IChr ")"; IChr "+"]);
      (split; [reflexivity | exact phone_class_mem]).
Qed.

Lemma sec_and_phone_alphabet_witness :
  _extract_sec_number
    (py "CRD Number: 160882" ++ [nl] ++ py "SEC file number: 801-99999")
  = Some (py "801-99999")
  /\ Forall (fun c => is_digit c = true \/ c = "-"%char) (py "801-99999").
Proof.
  assert (H : _extract_sec_number
                (py "CRD Number: 160882" ++ [nl]
                 ++ py "SEC file number: 801-99999")
              = Some (py "801-99999")) by (vm_compute; reflexivity).
  split; [exact H|].
  exact (proj1 (sec_and_phone_alphabet
                  (py "CRD Number: 160882" ++ [nl]
                   ++ py "SEC file number: 801-99999")
                  (py "801-99999")) H).
Defined.

Lemma py_int_of_digits (s : str) (n : Z) :
  Forall (fun x => is_digit x = true) s -> py_int s = Some n ->
  (0 <= n)%Z /\ (List.length s <= int_max_str_digits)%nat.
Proof.
  intros Hd. unfold py_int.
  rewrite strip_nonspace.
  2:{ eapply Forall_impl; [|exact Hd]. apply digit_not_space. }
  destruct s as [|c t]; [discriminate|].
  destruct (digit_not_sign c) as [-> ->]; [now inversion Hd|].
  destruct (@parse_digits_all (c :: t) 0 0 Hd) as (v & E & Hv); [lia|].
  rewrite E.
  destruct (Nat.ltb int_max_str_digits (0 + List.length (c :: t))) eqn:L;
    [discriminate|].
  apply Nat.ltb_ge in L. intro H; inversion H; subst. split; [exact Hv | lia].
Qed.

(** X18. The two integer fields are never negative: a CRD number or an
    employee count that [transform] reports is the value of a run of at
    most 4300 decimal digits. *)
Theorem extracted_numbers_nonnegative (text : str) (n : Z) :
  _extract_firm_crd_number text = Some n
  \/ _extract_investment_advisory_employee_count text = Some n ->
  (0 <= n)%Z.
Proof.
  intros [H|H].
  - unfold _extract_firm_crd_number in H.
    assert (Hp : Forall (closes_with (fun c => is_digit c = true))
                        crd_patterns).
    { repeat constructor;
        [exists [Lit "CRD Number:"; ws]
        |exists [Lit "your CRD number:"; ws]
        |exists [Lit "CRD number:"; ws]
        |exists [Lit "CRD Number"; star CNotDigit]];
        exists CDigit; (split; [reflexivity | trivial]). }
    induction Hp as [|p rest (rs & cs & -> & Hcs) _ IH];
      cbn [first_return] in H; [discriminate|].
    unfold _extract_with_regex in H at 1.
    destruct (search IGNORECASE _ text) as [m|] eqn:S; [|exact (IH H)].
    destruct (truthy (strip (group 1 m))) eqn:T; [|exact (IH H)].
    apply last_group in S as [Hw _].
    assert (Hd : Forall (fun x => is_digit x = true) (strip (group 1 m))).
    { apply strip_Forall. eapply Forall_impl; [|exact Hw]. exact Hcs. }
    exact (proj1 (py_int_of_digits Hd H)).
  - unfold _extract_investment_advisory_employee_count in H.
    destruct (search IGNORECASE_DOTALL employee_count_pattern text) as [m|]
      eqn:S; [|discriminate].
    apply (@last_group IGNORECASE_DOTALL
             [Lit ("Approximately how many of the employees reported in 5.A. "
                   ++ "perform investment advisory functions")%string;
              star_lazy CAny; Lit [nl]] CDigit 1) in S as [Hw _].
    assert (Hd : Forall (fun x => is_digit x = true) (strip (group 1 m)))
      by (apply strip_Forall; exact Hw).
    exact (proj1 (py_int_of_digits Hd H)).
Qed.

Lemma extracted_numbers_nonnegative_witness :
  _extract_firm_crd_number (py "Your CRD Number is -42") = Some 42%Z
  /\ (0 <= 42)%Z.
Proof.
  assert (H : _extract_firm_crd_number (py "Your CRD Number is -42")
              = Some 42%Z) by (vm_compute; reflexivity).
  split; [exact H|].
  apply (@extracted_numbers_nonnegative (py "Your CRD Number is -42") 42).
  left; exact H.
Defined.

(** * Alternatives that never decide a field *)

Lemma eat_app fl a b s :
  eat fl (a ++ b) s
  = match eat fl a s with
    | Some s' => eat fl b s'
    | None => None
    end.
Proof.
  revert s. induction a as [|x a IH]; intro s; cbn [app eat]; trivial.
  destruct s as [|c s]; [reflexivity|].
  destruct (chr_eq fl x c); [apply IH | reflexivity].
Qed.

Lemma eat_split fl a s s' : eat fl a s = Some s' -> exists x, s = x ++ s'.
Proof.
  revert s. induction a as [|y a IH]; intro s; cbn [eat].
  - intro H. exists []. destruct s; now inversion H.
  - destruct s as [|c s]; [discriminate|].
    destruct (chr_eq fl y c); [|discriminate].
    intro H. apply IH in H as (x & ->). now exists (c :: x).
Qed.

(** Under [re.IGNORECASE] two literals that differ only in case consume
    the same text. *)
Lemma eat_fold a b s :
  map lower a = map lower b -> eat IGNORECASE a s = eat IGNORECASE b s.
Proof.
  revert b s. induction a as [|x a IH]; intros [|y b] s H;
    try discriminate H; cbn [eat].
  - reflexivity.
  - cbn [map] in H. inversion H as [[Hx Hr]].
    destruct s as [|c s]; [reflexivity|].
    unfold chr_eq. cbn [ignorecase IGNORECASE]. rewrite Hx.
    destruct (Ascii.eqb (lower y) (lower c)); [now apply IH | reflexivity].
Qed.

Lemma search_fold a b r s :
  map lower a = map lower b ->
  search IGNORECASE (Cat (Lit a) r) s = search IGNORECASE (Cat (Lit b) r) s.
Proof.
  intro H.
  assert (M : forall s, match_here IGNORECASE (Cat (Lit a) r) s
                        = match_here IGNORECASE (Cat (Lit b) r) s).
  { intro s0. unfold match_here. cbn [run]. now rewrite (@eat_fold a b s0 H). }
  induction s as [|c s IH]; cbn [search]; rewrite M; [reflexivity|].
  now rewrite IH.
Qed.

Lemma search_suffix fl r s c :
  search fl r s = Some c ->
  exists pre s0 s', s = pre ++ s0 /\ match_here fl r s0 = Some (s', c).
Proof.
  induction s as [|x t IH]; cbn [search].
  - destruct (match_here fl r []) as [[s' c']|] eqn:E; [|discriminate].
    intro H; inversion H; subst. now exists [], [], s'.
  - destruct (match_here fl r (x :: t)) as [[s' c']|] eqn:E.
    + intro H; inversion H; subst. now exists [], (x :: t), s'.
    + intro H. apply IH in H as (pre & s0 & s' & -> & H).
      now exists (x :: pre), s0, s'.
Qed.

Lemma search_some fl r pre s0 :
  match_here fl r s0 <> None -> search fl r (pre ++ s0) <> None.
Proof.
  intro H. induction pre as [|x pre IH]; cbn [app].
  - destruct s0 as [|y t]; cbn [search];
      destruct (match_here fl r _) as [[s' c]|]; congruence.
  - cbn [search].
    destruct (match_here fl r (x :: pre ++ s0)) as [[s' c]|];
      [discriminate | exact IH].
Qed.

(** A pattern whose literal head extends another one's to the left
    matches only where the shorter one matches further on. *)
Lemma search_longer_head fl a l r s m :
  search fl (Cat (Lit (a ++ l)) r) s = Some m ->
  search fl (Cat (Lit l) r) s <> None.
Proof.
  intro H. apply search_suffix in H as (pre & s0 & s' & -> & H).
  unfold match_here in H. cbn [run] in H. rewrite eat_app in H.
  destruct (eat fl a s0) as [s1|] eqn:E1; [|discriminate].
  apply eat_split in E1 as (x & ->).
  rewrite app_assoc. apply search_some.
  unfold match_here. cbn [run].
  destruct (eat fl l s1) as [s2|]; [|discriminate]. congruence.
Qed.

Lemma sec_class_not_space c :
  cs_mem IGNORECASE (CIn [IDigit; IChr "-"]) c = true -> is_space c = false.
Proof.
  intro H. apply sec_class_mem in H as [H| ->];
    [now apply digit_not_space | reflexivity].
Qed.

(** X19. Of the four patterns listed for the SEC number only the first
    ever decides the field.  The search ignores case, so the second
    pattern is the first again, and the third and fourth end in the
    first, which then matches as well and is asked before them.  The
    field is the group the first pattern captures, and absent when that
    pattern finds nothing. *)
Theorem sec_number_one_pattern (text : str) :
  _extract_sec_number text
  = option_map (group 1)
      (search IGNORECASE (seq [Lit "SEC file number:"; ws; Grp 1 sec_class])
              text).
Proof.
  unfold _extract_sec_number, first_result, sec_patterns.
  cbn [first_return]. unfold _extract_with_regex.
  destruct (search IGNORECASE
              (seq [Lit "SEC file number:"; ws; Grp 1 sec_class]) text)
    as [m|] eqn:S1; cbn [option_map if_result].
  - apply (@last_group IGNORECASE [Lit "SEC file number:"; ws]) in S1
      as [Hw Hlo].
    rewrite strip_nonspace
      by (eapply Forall_impl; [|exact Hw]; exact sec_class_not_space).
    destruct (group 1 m); [cbn in Hlo; lia | reflexivity].
  - assert (S2 : search IGNORECASE
                   (seq [Lit "SEC File Number:"; ws; Grp 1 sec_class]) text
                 = None).
    { rewrite <- S1. apply search_fold. reflexivity. }
    rewrite S2. cbn [if_result].
    destruct (search IGNORECASE
                (seq [Lit ("you are registered with the SEC as an investment adviser, "
                           ++ "your SEC file number:")%string; ws;
                      Grp 1 sec_class]) text) as [m3|] eqn:S3.
    { exfalso. revert S1.
      apply (@search_longer_head IGNORECASE
               (py "you are registered with the SEC as an investment adviser, your ")
               (py "SEC file number:") _ text m3).
      exact S3. }
    cbn [if_result].
    destruct (search IGNORECASE
                (seq [Lit "your SEC file number:"; ws; Grp 1 sec_class]) text)
      as [m4|] eqn:S4; [|reflexivity].
    exfalso. revert S1.
    apply (@search_longer_head IGNORECASE (py "your ")
             (py "SEC file number:") _ text m4).
    exact S4.
Qed.

(** X20. Of the four patterns listed for the CRD number only the first
    and the last ever decide the field: the third is the first again
    once case is ignored, and the second ends in it.  The field is the
    integer of the digits the first pattern captures or, when that
    pattern finds nothing, of those the last one captures; a run of more
    than 4300 digits gives no value, and no other pattern is asked
    after it. *)
Theorem crd_number_two_patterns (text : str) :
  _extract_firm_crd_number text
  = match search IGNORECASE (seq [Lit "CRD Number:"; ws; Grp 1 digits]) text
    with
    | Some m => py_int (group 1 m)
    | None =>
        match search IGNORECASE
                (seq [Lit "CRD Number"; star CNotDigit; Grp 1 digits]) text
        with
        | Some m => py_int (group 1 m)
        | None => None
        end
    end.
Proof.
  assert (G : forall rs m,
             search IGNORECASE (seq (rs ++ [Grp 1 digits])) text = Some m ->
             strip (group 1 m) = group 1 m /\ truthy (group 1 m) = true).
  { intros rs m S. apply last_group in S as [Hw Hlo]. split.
    - apply strip_nonspace. eapply Forall_impl; [|exact Hw].
      intros c Hc. now apply digit_not_space.
    - destruct (group 1 m); [cbn in Hlo; lia | reflexivity]. }
  unfold _extract_firm_crd_number, crd_patterns.
  cbn [first_return]. unfold _extract_with_regex.
  destruct (search IGNORECASE (seq [Lit "CRD Number:"; ws; Grp 1 digits]) text)
    as [m|] eqn:S1.
  - destruct (G [Lit "CRD Number:"; ws] m S1) as [-> ->]. reflexivity.
  - assert (S3 : search IGNORECASE
                   (seq [Lit "CRD number:"; ws; Grp 1 digits]) text = None).
    { rewrite <- S1. apply search_fold. reflexivity. }
    destruct (search IGNORECASE
                (seq [Lit "your CRD number:"; ws; Grp 1 digits]) text)
      as [m2|] eqn:S2.
    { exfalso. revert S3.
      apply (@search_longer_head IGNORECASE (py "your ")
               (py "CRD number:") _ text m2).
      exact S2. }
    rewrite S3.
    destruct (search IGNORECASE
                (seq [Lit "CRD Number"; star CNotDigit; Grp 1 digits]) text)
      as [m4|] eqn:S4; [|reflexivity].
    destruct (G [Lit "CRD Number"; star CNotDigit] m4 S4) as [-> ->].
    reflexivity.
Qed.

(** * Private funds: one entry per name *)

Lemma dict_get_set {V} (k k' : str) (v : V) (d : dict V) :
  dict_get k (dict_set k' v d)
  = if str_eqb k k' then Some v else dict_get k d.
Proof.
  induction d as [|[k0 v0] d IH]; cbn [dict_set dict_get]; trivial.
  destruct (str_eqb k' k0) eqn:E; cbn [dict_get].
  - apply str_eqb_eq in E. subst k0.
    now destruct (str_eqb k k').
  - rewrite IH. destruct (str_eqb k k0) eqn:E0; trivial.
    destruct (str_eqb k k') eqn:E1; trivial.
    apply str_eqb_eq in E0, E1. subst. now rewrite str_eqb_refl in E.
Qed.

(** The loop of [_extract_private_funds_and_ids] over the matches. *)
Definition fund_loop (ms : list (str * str)) (results : dict str)
  : dict str :=
  fold_left
    (fun results m =>
       let '(fund_name, fund_id) := m in
       dict_set (strip fund_name) (strip fund_id) results)
    ms results.

Lemma fund_loop_cons m ms results :
  fund_loop (m :: ms) results
  = fund_loop ms (dict_set (strip (fst m)) (strip (snd m)) results).
Proof. now destruct m. Qed.

Lemma fund_loop_app ms1 ms2 results :
  fund_loop (ms1 ++ ms2) results = fund_loop ms2 (fund_loop ms1 results).
Proof. apply fold_left_app. Qed.

Lemma fund_loop_wf ms results :
  dict_wf results -> dict_wf (fund_loop ms results).
Proof.
  revert results. induction ms as [|m ms IH]; intros results H; trivial.
  rewrite fund_loop_cons. apply IH. now apply dict_set_wf.
Qed.

Lemma fund_loop_other name ms results :
  (forall m, In m ms -> strip (fst m) <> name) ->
  dict_get name (fund_loop ms results) = dict_get name results.
Proof.
  revert results. induction ms as [|m ms IH]; intros results H; trivial.
  rewrite fund_loop_cons, IH by (intros m' Hm; apply H; now right).
  rewrite dict_get_set.
  destruct (str_eqb name (strip (fst m))) eqn:E; trivial.
  apply str_eqb_eq in E. exfalso. apply (H m); [now left | now symmetry].
Qed.

Lemma fund_loop_some name ms results :
  dict_get name (fund_loop ms results) = None ->
  forall m, In m ms -> strip (fst m) <> name.
Proof.
  revert results. induction ms as [|m ms IH]; intros results H m' Hin;
    [destruct Hin|].
  rewrite fund_loop_cons in H.
  destruct Hin as [->|Hin]; [|exact (IH _ H m' Hin)].
  intro E.
  destruct (in_dec (list_eq_dec ascii_dec) name
                   (map (fun m => strip (fst m)) ms)) as [Hl|Hl].
  - apply in_map_iff in Hl as (m0 & E0 & H0). exact (IH _ H m0 H0 E0).
  - rewrite fund_loop_other in H.
    + rewrite dict_get_set, <- E, str_eqb_refl in H. discriminate.
    + intros m0 H0 E0. apply Hl. apply in_map_iff. now exists m0.
Qed.

(** X21. The private funds come out as a dictionary keyed by the trimmed
    fund name: no name occurs twice, a name is absent exactly when no
    match of the pattern carries it, and a name that several matches
    carry keeps the identifier of the last of them. *)
Theorem private_funds_by_name (text : str) :
  dict_wf (_extract_private_funds_and_ids text)
  /\ (forall name,
        dict_get name (_extract_private_funds_and_ids text) = None
        <-> forall m, In m (findall NOFLAG private_fund_pattern text) ->
                      strip (fst m) <> name)
  /\ (forall pre m post,
        findall NOFLAG private_fund_pattern text = pre ++ m :: post ->
        (forall m', In m' post -> strip (fst m') <> strip (fst m)) ->
        dict_get (strip (fst m)) (_extract_private_funds_and_ids text)
        = Some (strip (snd m))).
Proof.
  change (_extract_private_funds_and_ids text)
    with (fund_loop (findall NOFLAG private_fund_pattern text) []).
  generalize (findall NOFLAG private_fund_pattern text). intro ms.
  split; [|split].
  - apply fund_loop_wf. constructor.
  - intro name. split.
    + apply fund_loop_some.
    + intro H. now rewrite fund_loop_other.
  - intros pre m post -> H.
    rewrite fund_loop_app, fund_loop_cons, fund_loop_other by exact H.
    now rewrite dict_get_set, str_eqb_refl.
Qed.

Definition relisted_fund_text : str :=
  py "Name of the private fund: XYZ Fund" ++ [nl]
  ++ py "(b) Private fund identification number: (include the "
  ++ [dq] ++ py "805-" ++ [dq] ++ py " prefix also) 805-111" ++ [nl]
  ++ py "Name of the private fund:  XYZ Fund " ++ [nl]
  ++ py "(b) Private fund identification number: (include the "
  ++ [dq] ++ py "805-" ++ [dq] ++ py " prefix also) 805-222" ++ [nl].

Lemma private_funds_by_name_witness :
  findall NOFLAG private_fund_pattern relisted_fund_text
  = [(py "XYZ Fund", py "805-111")] ++ (py "XYZ Fund", py "805-222") :: []
  /\ dict_get (py "XYZ Fund") (_extract_private_funds_and_ids relisted_fund_text)
     = Some (py "805-222")
  /\ _extract_private_funds_and_ids relisted_fund_text
     = [(py "XYZ Fund", py "805-222")].
Proof.
  assert (H : findall NOFLAG private_fund_pattern relisted_fund_text
              = [(py "XYZ Fund", py "805-111")]
                ++ (py "XYZ Fund", py "805-222") :: [])
    by (vm_compute; reflexivity).
  split; [exact H|]. split; [|vm_compute; reflexivity].
  apply (proj2 (proj2 (private_funds_by_name relisted_fund_text))
               [(py "XYZ Fund", py "805-111")] (py "XYZ Fund", py "805-222")
               [] H).
  intros m' [].
Defined.

(** * The signatory *)

Lemma drop_prefix_app p a b r :
  drop_prefix p a = Some r -> drop_prefix p (a ++ b) = Some (r ++ b).
Proof.
  revert a. induction p as [|x p IH]; intros a; cbn [drop_prefix].
  - intro H. inversion H; subst. now destruct (r ++ b).
  - destruct a as [|y a]; [discriminate|]. cbn [app].
    destruct (Ascii.eqb x y); [apply IH | discriminate].
Qed.

Lemma contains_nil sep : sep <> [] -> contains sep [] = false.
Proof. destruct sep; [congruence | reflexivity]. Qed.

Lemma contains_cons sep c t :
  contains sep (c :: t)
  = match drop_prefix sep (c :: t) with
    | Some _ => true
    | None => contains sep t
    end.
Proof. reflexivity. Qed.

Lemma contains_app_r sep a b :
  contains sep b = true -> contains sep (a ++ b) = true.
Proof.
  intro H. induction a as [|x a IH]; cbn [app]; trivial.
  rewrite contains_cons, IH. now destruct (drop_prefix sep _).
Qed.

Lemma contains_app_l sep a b :
  contains sep a = true -> contains sep (a ++ b) = true.
Proof.
  induction a as [|x a IH].
  - destruct sep as [|y sep]; [|discriminate]. intros _.
    destruct b; reflexivity.
  - rewrite contains_cons. cbn [app]. rewrite contains_cons.
    destruct (drop_prefix sep (x :: a)) as [r|] eqn:E.
    + intros _. change (x :: a ++ b) with ((x :: a) ++ b).
      now rewrite (@drop_prefix_app sep (x :: a) b r E).
    + intro H. rewrite (IH H).
      destruct (drop_prefix sep (x :: a ++ b)); reflexivity.
Qed.

Lemma before_prefix sep s : exists rest, s = before sep s ++ rest.
Proof.
  induction s as [|c t (rest & E)].
  - exists []. cbn. now destruct (drop_prefix sep []).
  - cbn [before]. destruct (drop_prefix sep (c :: t)).
    + now exists (c :: t).
    + exists rest. cbn. now f_equal.
Qed.

(** The text before the first occurrence of a separator holds none. *)
Lemma contains_before sep s :
  sep <> [] -> contains sep (before sep s) = false.
Proof.
  intro Hne. induction s as [|c t IH].
  - cbn [before]. destruct (drop_prefix sep []); now apply contains_nil.
  - cbn [before]. destruct (drop_prefix sep (c :: t)) eqn:E;
      [now apply contains_nil|].
    rewrite contains_cons, IH.
    destruct (drop_prefix sep (c :: before sep t)) as [r|] eqn:D; trivial.
    destruct (before_prefix sep t) as (rest & Et).
    apply drop_prefix_app with (b := rest) in D.
    cbn [app] in D. rewrite <- Et in D. congruence.
Qed.

Lemma strip_segment s : exists w1 w2, s = w1 ++ strip s ++ w2.
Proof.
  destruct (lstrip_split s) as (w1 & E1 & _).
  destruct (lstrip_split (rev (lstrip s))) as (w2 & E2 & _).
  exists w1, (rev w2). unfold strip, rstrip.
  rewrite <- rev_app_distr, <- E2, rev_involutive. exact E1.
Qed.

Lemma contains_strip sep s :
  contains sep (strip s) = true -> contains sep s = true.
Proof.
  intro H. destruct (strip_segment s) as (w1 & w2 & E). rewrite E.
  now apply contains_app_r, contains_app_l.
Qed.

Lemma cleaned_shape result :
  trimmed (cleaned result) /\ contains "Title:" (cleaned result) = false.
Proof.
  unfold cleaned.
  destruct (contains "Title:" (strip result)) eqn:C.
  - split; [apply strip_trimmed|].
    destruct (contains "Title:" (strip (before "Title:" (strip result))))
      eqn:C'; trivial.
    apply contains_strip in C'.
    rewrite contains_before in C' by discriminate. discriminate.
  - split; [apply strip_trimmed | exact C].
Qed.

Lemma trimmed_not_isspace s : trimmed s -> s <> [] -> isspace s = false.
Proof.
  intros T Hne. destruct s as [|c t]; [congruence|].
  unfold isspace. cbn [nonempty forallb andb].
  destruct (is_space c) eqn:E; trivial.
  unfold trimmed, strip in T.
  assert (L : lstrip (c :: t) = lstrip t) by (cbn; now rewrite E).
  rewrite L in T.
  assert (Len : (List.length (rstrip (lstrip t)) <= List.length t)%nat).
  { destruct (strip_segment t) as (w1 & w2 & Et).
    rewrite Et at 2. unfold strip. rewrite !length_app. lia. }
  rewrite T in Len. cbn in Len. lia.
Qed.

(** X22. A signatory, when present, is never empty, carries no white
    space at either end and does not contain the text [Title:]; the
    test [not cleaned_result.isspace()] of the loop never rejects a
    candidate that passed the emptiness test before it. *)
Theorem signatory_clean (text : str) :
  (forall v, _extract_signatory text = Some v ->
             v <> [] /\ trimmed v /\ contains "Title:" v = false)
  /\ (forall result, truthy (cleaned result) = true ->
                     isspace (cleaned result) = false).
Proof.
  split.
  - intro v. unfold _extract_signatory.
    induction signatory_patterns as [|p rest IH]; cbn [first_return];
      [discriminate|].
    destruct (_extract_with_regex text p) as [result|]; [|exact IH].
    destruct (truthy result); [|exact IH].
    destruct (truthy (cleaned result)) eqn:T; cbn [andb]; [|exact IH].
    destruct (negb (isspace (cleaned result))); [|exact IH].
    intro H; inversion H; subst v; clear H.
    destruct (cleaned_shape result) as [H1 H2].
    repeat split; trivial.
    destruct (cleaned result); [discriminate T | discriminate].
  - intros result T. apply trimmed_not_isspace.
    + apply cleaned_shape.
    + destruct (cleaned result); [discriminate T | discriminate].
Qed.

Lemma signatory_clean_witness :
  _extract_signatory
    (py "Printed Name:" ++ [nl] ++ py "Jane Roe  Title: CEO" ++ [nl])
  = Some (py "Jane Roe")
  /\ py "Jane Roe" <> [] /\ trimmed (py "Jane Roe")
  /\ contains "Title:" (py "Jane Roe") = false.
Proof.
  assert (H : _extract_signatory
                (py "Printed Name:" ++ [nl] ++ py "Jane Roe  Title: CEO"
                 ++ [nl])
              = Some (py "Jane Roe")) by (vm_compute; reflexivity).
  split; [exact H|].
  exact (proj1 (signatory_clean
                  (py "Printed Name:" ++ [nl] ++ py "Jane Roe  Title: CEO"
                   ++ [nl]))
               (py "Jane Roe") H).
Defined.

(** * The API endpoints over the child tables

    [get_compensation], [get_client_types] and [get_private_funds] of
    [APIService.setup_routes]: the fetcher of the sink, an empty answer
    reported with a message, any exception turned into
    [HTTPException(status_code=500)]. *)

Module Api.

(** The JSON object an endpoint returns: the key, the collection and the
    message, which is present only on an empty answer. *)
Record body (A : Type) := {
  b_firm_crd_nb : Z;
  b_data : A;
  b_message : option str
}.

Arguments b_firm_crd_nb {A} b.
Arguments b_data {A} b.
Arguments b_message {A} b.

Inductive response (A : Type) :=
| Return (b : body A)
| HTTPException (status_code : nat) (e : exn).

Arguments Return {A} b.
Arguments HTTPException {A} status_code e.

(** [if not data:] on a list or a dictionary. *)
Definition not_data {A} (data : list A) : bool := negb (nonempty data).

Definition get_compensation (d : database) (firm_crd_nb : Z)
  : response (list str) :=
  match fetch_compensation d firm_crd_nb with
  | Ok data =>
      if not_data data
      then Return {| b_firm_crd_nb := firm_crd_nb; b_data := [];
                     b_message := Some (py "No compensation data found.") |}
      else Return {| b_firm_crd_nb := firm_crd_nb; b_data := data;
                     b_message := None |}
  | Raise e => HTTPException 500 e
  end.

Definition get_client_types (d : database) (firm_crd_nb : Z)
  : response (dict Z) :=
  match fetch_client_types d firm_crd_nb with
  | Ok data =>
      if not_data data
      then Return {| b_firm_crd_nb := firm_crd_nb; b_data := [];
                     b_message := Some (py "No client type data found.") |}
      else Return {| b_firm_crd_nb := firm_crd_nb; b_data := data;
                     b_message := None |}
  | Raise e => HTTPException 500 e
  end.

Definition get_private_funds (d : database) (firm_crd_nb : Z)
  : response (list fund_entry) :=
  match fetch_private_funds d firm_crd_nb with
  | Ok data =>
      if not_data data
      then Return {| b_firm_crd_nb := firm_crd_nb; b_data := [];
                     b_message := Some (py "No private funds found.") |}
      else Return {| b_firm_crd_nb := firm_crd_nb; b_data := data;
                     b_message := None |}
  | Raise e => HTTPException 500 e
  end.

End Api.

Import Api.

Lemma no_firm_no_children d crd :
  foreign_keys_ok d -> firm_rows d crd = [] ->
  stored_compensation d crd = []
  /\ stored_client_types d crd = []
  /\ stored_private_funds d crd = [].
Proof.
  intros (F1 & F2 & F3) Hf.
  assert (Hno : has_firm crd d = false).
  { unfold has_firm. apply not_true_iff_false. intro E.
    apply existsb_exists in E as (r & Hin & Hk).
    assert (Hr : In r (firm_rows d crd)) by (apply filter_In; auto).
    rewrite Hf in Hr. destruct Hr. }
  unfold stored_compensation, stored_client_types, stored_private_funds.
  repeat split.
  - destruct (filter _ (tbl_compensation_arrangements d)) as [|r l] eqn:E;
      trivial. exfalso.
    assert (Hin : In r (filter (fun r => Z.eqb (a_firm_crd_nb r) crd)
                               (tbl_compensation_arrangements d)))
      by (rewrite E; now left).
    apply filter_In in Hin as [Hin Hk]. apply Z.eqb_eq in Hk.
    rewrite Forall_forall in F1. specialize (F1 r Hin). congruence.
  - destruct (filter _ (tbl_client_types d)) as [|r l] eqn:E; trivial.
    exfalso.
    assert (Hin : In r (filter (fun r => Z.eqb (c_firm_crd_nb r) crd)
                               (tbl_client_types d)))
      by (rewrite E; now left).
    apply filter_In in Hin as [Hin Hk]. apply Z.eqb_eq in Hk.
    rewrite Forall_forall in F2. specialize (F2 r Hin). congruence.
  - destruct (filter _ (tbl_private_funds d)) as [|r l] eqn:E; trivial.
    exfalso.
    assert (Hin : In r (filter (fun r => Z.eqb (p_firm_crd_nb r) crd)
                               (tbl_private_funds d)))
      by (rewrite E; now left).
    apply filter_In in Hin as [Hin Hk]. apply Z.eqb_eq in Hk.
    rewrite Forall_forall in F3. specialize (F3 r Hin). congruence.
Qed.

(** X23. A key the store has no firm for is answered, by each of the
    three endpoints, with an empty collection and the "No ... found"
    message: never with an error and never with rows left over from
    another write.  This holds of every store the sink can leave and of
    every key that fits a 64-bit integer. *)
Theorem endpoints_of_unknown_firm (d : database) (crd : Z) :
  reachable d -> firm_rows d crd = [] -> fits_int64 crd = true ->
  get_compensation d crd
  = Return {| b_firm_crd_nb := crd; b_data := [];
              b_message := Some (py "No compensation data found.") |}
  /\ get_client_types d crd
     = Return {| b_firm_crd_nb := crd; b_data := [];
                 b_message := Some (py "No client type data found.") |}
  /\ get_private_funds d crd
     = Return {| b_firm_crd_nb := crd; b_data := [];
                 b_message := Some (py "No private funds found.") |}.
Proof.
  intros R Hf Hc.
  destruct (@no_firm_no_children d crd (reachable_foreign_keys R) Hf)
    as (H1 & H2 & H3).
  unfold get_compensation, get_client_types, get_private_funds.
  rewrite fetch_compensation_stored, fetch_client_types_stored,
    fetch_private_funds_stored by exact Hc.
  rewrite H1, H2, H3. repeat split.
Qed.

Lemma endpoints_of_unknown_firm_witness :
  reachable sample_db /\ firm_rows sample_db 7 = []
  /\ fits_int64 7 = true
  /\ get_private_funds sample_db 7
     = Return {| b_firm_crd_nb := 7%Z; b_data := [];
                 b_message := Some (py "No private funds found.") |}.
Proof.
  assert (H1 : firm_rows sample_db 7 = []) by (vm_compute; reflexivity).
  assert (H2 : fits_int64 7 = true) by reflexivity.
  split; [exact sample_db_reachable|]. split; [exact H1|].
  split; [exact H2|].
  exact (proj2 (proj2 (@endpoints_of_unknown_firm sample_db 7%Z
                         sample_db_reachable H1 H2))).
Defined.

(** X24. The only error of the three endpoints is status 500 for a key
    outside the 64-bit range, where the driver raises [OverflowError];
    for every other key and every store they return a body, whose
    message is present exactly when the collection is empty. *)
Theorem endpoint_errors (d : database) (crd : Z) :
  (fits_int64 crd = false ->
   get_compensation d crd = HTTPException 500 OverflowError
   /\ get_client_types d crd = HTTPException 500 OverflowError
   /\ get_private_funds d crd = HTTPException 500 OverflowError)
  /\ (fits_int64 crd = true ->
      (exists b, get_compensation d crd = Return b
                 /\ b_firm_crd_nb b = crd
                 /\ (b_message b <> None <-> b_data b = []))
      /\ (exists b, get_client_types d crd = Return b
                    /\ b_firm_crd_nb b = crd
                    /\ (b_message b <> None <-> b_data b = []))
      /\ (exists b, get_private_funds d crd = Return b
                    /\ b_firm_crd_nb b = crd
                    /\ (b_message b <> None <-> b_data b = []))).
Proof.
  split; intro Hc.
  - unfold get_compensation, get_client_types, get_private_funds,
      fetch_compensation, fetch_client_types, fetch_private_funds, bind_int.
    rewrite Hc. repeat split.
  - unfold get_compensation, get_client_types, get_private_funds.
    rewrite fetch_compensation_stored, fetch_client_types_stored,
      fetch_private_funds_stored by exact Hc.
    repeat split.
    + destruct (stored_compensation d crd) as [|x l]; cbn;
        eexists; (split; [reflexivity|]); cbn; (split; [reflexivity|]);
        split; congruence.
    + destruct (dict_of_items (stored_client_types d crd)) as [|x l]; cbn;
        eexists; (split; [reflexivity|]); cbn; (split; [reflexivity|]);
        split; congruence.
    + destruct (map entry (stored_private_funds d crd)) as [|x l]; cbn;
        eexists; (split; [reflexivity|]); cbn; (split; [reflexivity|]);
        split; congruence.
Qed.

Lemma endpoint_errors_witness :
  fits_int64 (2 ^ 63) = false
  /\ get_compensation sample_db (2 ^ 63) = HTTPException 500 OverflowError.
Proof.
  assert (H : fits_int64 (2 ^ 63) = false) by reflexivity.
  split; [exact H|].
  exact (proj1 (proj1 (endpoint_errors sample_db (2 ^ 63)) H)).
Defined.

(** * The address: the part the region plays *)

(** A record of components with the region forgotten. *)
Definition without_state (c : components) : components :=
  {| street1 := street1 c; street2 := street2 c; city := city c;
     state := None; country := country c; postal_code := postal_code c |}.

(** X25. The region enters the address only under the country
    [United States], spelled exactly so: with any other country, or
    none, the address is the one composed without the region.  Hence
    the address is absent exactly when no street line, city, postal code
    and country were recovered, whether or not a region was. *)
Theorem address_ignores_state (text : str) :
  (is_united_states (country (address_components text)) = false ->
   _extract_address text
   = assemble_address (without_state (address_components text)))
  /\ (_extract_address text = None
      <-> street1 (address_components text) = None
          /\ street2 (address_components text) = None
          /\ city (address_components text) = None
          /\ postal_code (address_components text) = None
          /\ country (address_components text) = None).
Proof.
  unfold _extract_address. generalize (address_components text). intro c.
  split.
  - destruct c as [[s1|] [s2|] [ci|] [st|] [co|] [zip|]];
      cbn [country]; intro H; unfold assemble_address, without_state;
      cbn [street1 street2 city state country postal_code];
      rewrite ?H; reflexivity.
  - destruct c as [[s1|] [s2|] [ci|] [st|] [co|] [zip|]];
      unfold assemble_address;
      cbn [street1 street2 city state country postal_code];
      try (destruct (is_united_states (Some co)));
      cbn; split; intro H; try discriminate H;
      try (destruct H as (H1 & H2 & H3 & H4 & H5); discriminate);
      repeat split.
Qed.

Lemma address_ignores_state_witness :
  is_united_states
    (country (address_components
                (py "City: Toronto State: Ontario Country: Canada"
                 ++ [nl] ++ py "ZIP+4/Postal Code:")))
  = false
  /\ _extract_address
       (py "City: Toronto State: Ontario Country: Canada"
        ++ [nl] ++ py "ZIP+4/Postal Code:")
     = Some (py "Toronto, Canada").
Proof.
  assert (H : is_united_states
                (country (address_components
                            (py "City: Toronto State: Ontario Country: Canada"
                             ++ [nl] ++ py "ZIP+4/Postal Code:")))
              = false) by (vm_compute; reflexivity).
  split; [exact H|].
  rewrite (proj1 (address_ignores_state
                    (py "City: Toronto State: Ontario Country: Canada"
                     ++ [nl] ++ py "ZIP+4/Postal Code:")) H).
  vm_compute. reflexivity.
Defined.

(** * The check box and its threshold *)

Lemma pixels_below_mono t t' samples :
  (t <= t')%nat -> (pixels_below t samples <= pixels_below t' samples)%nat.
Proof.
  intro H. induction samples as [|b rest IH]; cbn [pixels_below]; [lia|].
  destruct (Nat.ltb (Byte.to_nat b) t) eqn:E.
  - apply Nat.ltb_lt in E.
    assert (Nat.ltb (Byte.to_nat b) t' = true) as ->
        by (apply Nat.ltb_lt; lia).
    lia.
  - destruct (Nat.ltb (Byte.to_nat b) t'); lia.
Qed.

Lemma checked_at (p : page) (r : rect) (t : nat) :
  _is_checkbox_checked p r t = true
  <-> (12 * Z.of_nat (List.length (get_pixmap p r))
       < 100 * Z.of_nat (pixels_below t (get_pixmap p r)))%Z.
Proof.
  unfold _is_checkbox_checked.
  rewrite dark_count_below.
  pose proof (pixels_below_le t (get_pixmap p r)) as Hle.
  set (n := pixels_below t (get_pixmap p r)) in *.
  set (size := List.length (get_pixmap p r)) in *.
  rewrite negb_true_iff, <- not_true_iff_false, Qle_bool_iff.
  unfold Qle, Qdiv, Qmult, Qinv, inject_Z. cbn [Qnum Qden].
  destruct size as [|size'].
  - assert (n = 0%nat) as -> by lia. cbn. lia.
  - rewrite Nat2Z.inj_succ. unfold Z.succ.
    destruct (Z.of_nat size' + 1)%Z as [|q|q] eqn:E; try lia.
    cbn [Qnum Qden]. rewrite Pos.mul_1_l. lia.
Qed.

(** X26. Raising the threshold can only turn boxes on: a box that is
    checked at one threshold is checked at every higher one.  A clip
    without pixels is never checked, and no box is at threshold 0. *)
Theorem checkbox_threshold (p : page) (r : rect) (t t' : nat) :
  ((t <= t')%nat -> _is_checkbox_checked p r t = true ->
   _is_checkbox_checked p r t' = true)
  /\ (get_pixmap p r = [] -> _is_checkbox_checked p r t = false)
  /\ _is_checkbox_checked p r 0 = false.
Proof.
  split; [|split].
  - intros Ht H. apply checked_at in H. apply checked_at.
    pose proof (pixels_below_mono (get_pixmap p r) Ht). lia.
  - intro E. apply not_true_iff_false. intro H. apply checked_at in H.
    rewrite E in H. cbn in H. lia.
  - apply not_true_iff_false. intro H. apply checked_at in H.
    assert (Z0 : pixels_below 0 (get_pixmap p r) = 0%nat).
    { clear H. induction (get_pixmap p r) as [|b rest IH];
        cbn [pixels_below]; trivial. }
    rewrite Z0 in H. lia.
Qed.

Lemma checkbox_threshold_witness :
  (150 <= 151)%nat
  /\ _is_checkbox_checked (page_of two_in_twenty) (Rect 1 1 7 9) 150 = false
  /\ _is_checkbox_checked (page_of three_in_twenty) (Rect 1 1 7 9) 150 = true
  /\ _is_checkbox_checked (page_of three_in_twenty) (Rect 1 1 7 9) 151 = true.
Proof.
  assert (H1 : (150 <= 151)%nat) by lia.
  assert (H2 : _is_checkbox_checked (page_of three_in_twenty)
                                    (Rect 1 1 7 9) 150 = true)
    by (vm_compute; reflexivity).
  split; [exact H1|]. split; [vm_compute; reflexivity|]. split; [exact H2|].
  exact (proj1 (checkbox_threshold (page_of three_in_twenty) (Rect 1 1 7 9)
                                   150 151) H1 H2).
Defined.

(** * Row ids of the child tables

    [id INTEGER PRIMARY KEY AUTOINCREMENT]: an insert takes the id after
    the largest one the table ever handed out. *)

(** The ids of a table: pairwise distinct, positive and not beyond the
    sequence of the table. *)
Definition ids_ok (ids : list Z) (s : Z) : Prop :=
  (0 <= s)%Z /\ NoDup ids /\ Forall (fun i => (0 < i <= s)%Z) ids.

Definition row_ids_ok (d : database) : Prop :=
  ids_ok (map a_id (tbl_compensation_arrangements d))
         (seq_compensation_arrangements d)
  /\ ids_ok (map c_id (tbl_client_types d)) (seq_client_types d)
  /\ ids_ok (map p_id (tbl_private_funds d)) (seq_private_funds d).

(** The ids the next [n] inserts get. *)
Fixpoint fresh_ids (n : nat) (s : Z) : list Z :=
  match n with
  | O => []
  | S n' => (s + 1)%Z :: fresh_ids n' (s + 1)
  end.

Lemma arrangement_rows_ids now crd l s :
  map a_id (arrangement_rows now crd l s) = fresh_ids (List.length l) s.
Proof.
  revert s; induction l as [|x l IH]; intro s; cbn; trivial. now rewrite IH.
Qed.

Lemma client_type_rows_ids now crd l s :
  map c_id (client_type_rows now crd l s) = fresh_ids (List.length l) s.
Proof.
  revert s; induction l as [|[k v] l IH]; intro s; cbn; trivial.
  now rewrite IH.
Qed.

Lemma private_fund_rows_ids now crd l s :
  map p_id (private_fund_rows now crd l s) = fresh_ids (List.length l) s.
Proof.
  revert s; induction l as [|[k v] l IH]; intro s; cbn; trivial.
  now rewrite IH.
Qed.

Lemma fresh_ids_range n s :
  Forall (fun i => (s < i <= s + Z.of_nat n)%Z) (fresh_ids n s).
Proof.
  revert s; induction n as [|n IH]; intro s; cbn [fresh_ids]; constructor.
  - lia.
  - eapply Forall_impl; [|apply IH]. cbn beta. intros i Hi. lia.
Qed.

Lemma fresh_ids_NoDup n s : NoDup (fresh_ids n s).
Proof.
  revert s; induction n as [|n IH]; intro s; cbn [fresh_ids]; constructor;
    [|apply IH].
  intro Hin. pose proof (fresh_ids_range n (s + 1)) as R.
  rewrite Forall_forall in R. specialize (R _ Hin). lia.
Qed.

Lemma ids_ok_step {A} (id : A -> Z) (f : A -> bool) (rows : list A)
      (n : nat) (s : Z) :
  ids_ok (map id rows) s ->
  ids_ok (map id (filter f rows) ++ fresh_ids n s) (s + Z.of_nat n).
Proof.
  intros (Hs & Hn & Hr).
  assert (Hold : forall i, In i (map id (filter f rows)) -> (0 < i <= s)%Z).
  { intros i H1. rewrite Forall_forall in Hr. apply Hr.
    apply in_map_iff in H1 as (r & <- & Hin).
    apply filter_In in Hin as [Hin _]. now apply in_map. }
  pose proof (fresh_ids_range n s) as R. rewrite Forall_forall in R.
  split; [lia|]. split.
  - apply NoDup_app.
    + now apply NoDup_map_filter.
    + apply fresh_ids_NoDup.
    + intros i H1 H2. specialize (Hold _ H1). specialize (R _ H2). lia.
  - apply Forall_forall. intros i Hi. apply in_app_or in Hi as [Hi|Hi].
    + specialize (Hold _ Hi). lia.
    + specialize (R _ Hi). lia.
Qed.

Lemma written_row_ids now crd data d :
  row_ids_ok d -> row_ids_ok (written now crd data d).
Proof.
  intros (H1 & H2 & H3). unfold row_ids_ok.
  replace (tbl_compensation_arrangements (written now crd data d))
    with (filter (fun r => negb (Z.eqb (a_firm_crd_nb r) crd))
                 (tbl_compensation_arrangements d)
          ++ arrangement_rows now crd
               (arrangement_list
                  (get_default (DatabaseSink.compensation_arrangements data)
                               (ArrStr [])))
               (seq_compensation_arrangements d)) by reflexivity.
  replace (seq_compensation_arrangements (written now crd data d))
    with (seq_compensation_arrangements d
          + Z.of_nat (List.length
                        (arrangement_list
                           (get_default
                              (DatabaseSink.compensation_arrangements data)
                              (ArrStr [])))))%Z by reflexivity.
  replace (tbl_client_types (written now crd data d))
    with (filter (fun r => negb (Z.eqb (c_firm_crd_nb r) crd))
                 (tbl_client_types d)
          ++ client_type_rows now crd
               (amounts (get_default (DatabaseSink.client_types data) []))
               (seq_client_types d)) by reflexivity.
  replace (seq_client_types (written now crd data d))
    with (seq_client_types d
          + Z.of_nat (List.length
                        (amounts (get_default
                                    (DatabaseSink.client_types data) []))))%Z
    by reflexivity.
  replace (tbl_private_funds (written now crd data d))
    with (filter (fun r => negb (Z.eqb (p_firm_crd_nb r) crd))
                 (tbl_private_funds d)
          ++ private_fund_rows now crd
               (get_default (DatabaseSink.private_funds data) [])
               (seq_private_funds d)) by reflexivity.
  replace (seq_private_funds (written now crd data d))
    with (seq_private_funds d
          + Z.of_nat (List.length
                        (get_default (DatabaseSink.private_funds data) [])))%Z
    by reflexivity.
  rewrite !map_app, arrangement_rows_ids, client_type_rows_ids,
    private_fund_rows_ids.
  split; [|split]; now apply ids_ok_step.
Qed.

Lemma reachable_row_ids d : reachable d -> row_ids_ok d.
Proof.
  apply reachable_invariant.
  - unfold row_ids_ok, ids_ok. cbn.
    repeat split; try constructor; lia.
  - intros now crd data d0 _. apply written_row_ids.
Qed.

(** X27. Row ids are not stable across writes.  In every store the sink
    can leave the ids of a child table are positive and pairwise
    distinct, and a write gives every child row of its firm a new id,
    larger than any id the table held before, also when the content of
    the row did not change. *)
Theorem child_row_ids (now : timestamp) (crd : Z) (data : firm_data)
        (d d' : database) :
  reachable d ->
  write now [(crd, data)] d = (Ok tt, d') ->
  row_ids_ok d'
  /\ (forall r r0, In r (tbl_compensation_arrangements d') ->
                   a_firm_crd_nb r = crd ->
                   In r0 (tbl_compensation_arrangements d) ->
                   (a_id r0 < a_id r)%Z)
  /\ (forall r r0, In r (tbl_client_types d') -> c_firm_crd_nb r = crd ->
                   In r0 (tbl_client_types d) -> (c_id r0 < c_id r)%Z)
  /\ (forall r r0, In r (tbl_private_funds d') -> p_firm_crd_nb r = crd ->
                   In r0 (tbl_private_funds d) -> (p_id r0 < p_id r)%Z).
Proof.
  intros R Hw. apply write_one_ok in Hw as [_ ->].
  destruct (reachable_row_ids R) as ((_ & _ & B1) & (_ & _ & B2)
                                     & (_ & _ & B3)).
  rewrite Forall_forall in B1, B2, B3.
  split; [apply written_row_ids; now apply reachable_row_ids|].
  split; [|split]; intros r r0 Hr Hk H0.
  - change (In r (filter (fun r => negb (Z.eqb (a_firm_crd_nb r) crd))
                         (tbl_compensation_arrangements d)
                  ++ arrangement_rows now crd
                       (arrangement_list
                          (get_default
                             (DatabaseSink.compensation_arrangements data)
                             (ArrStr [])))
                       (seq_compensation_arrangements d))) in Hr.
    apply in_app_or in Hr as [Hr|Hr].
    + apply filter_In in Hr as [_ Hr]. rewrite Hk, Z.eqb_refl in Hr.
      discriminate.
    + apply (in_map a_id) in Hr. rewrite arrangement_rows_ids in Hr.
      pose proof (fresh_ids_range
                    (List.length
                       (arrangement_list
                          (get_default
                             (DatabaseSink.compensation_arrangements data)
                             (ArrStr []))))
                    (seq_compensation_arrangements d)) as F.
      rewrite Forall_forall in F. specialize (F _ Hr).
      specialize (B1 _ (in_map a_id _ _ H0)). cbn beta in B1. lia.
  - change (In r (filter (fun r => negb (Z.eqb (c_firm_crd_nb r) crd))
                         (tbl_client_types d)
                  ++ client_type_rows now crd
                       (amounts (get_default
                                   (DatabaseSink.client_types data) []))
                       (seq_client_types d))) in Hr.
    apply in_app_or in Hr as [Hr|Hr].
    + apply filter_In in Hr as [_ Hr]. rewrite Hk, Z.eqb_refl in Hr.
      discriminate.
    + apply (in_map c_id) in Hr. rewrite client_type_rows_ids in Hr.
      pose proof (fresh_ids_range
                    (List.length
                       (amounts (get_default
                                   (DatabaseSink.client_types data) [])))
                    (seq_client_types d)) as F.
      rewrite Forall_forall in F. specialize (F _ Hr).
      specialize (B2 _ (in_map c_id _ _ H0)). cbn beta in B2. lia.
  - change (In r (filter (fun r => negb (Z.eqb (p_firm_crd_nb r) crd))
                         (tbl_private_funds d)
                  ++ private_fund_rows now crd
                       (get_default (DatabaseSink.private_funds data) [])
                       (seq_private_funds d))) in Hr.
    apply in_app_or in Hr as [Hr|Hr].
    + apply filter_In in Hr as [_ Hr]. rewrite Hk, Z.eqb_refl in Hr.
      discriminate.
    + apply (in_map p_id) in Hr. rewrite private_fund_rows_ids in Hr.
      pose proof (fresh_ids_range
                    (List.length
                       (get_default (DatabaseSink.private_funds data) []))
                    (seq_private_funds d)) as F.
      rewrite Forall_forall in F. specialize (F _ Hr).
      specialize (B3 _ (in_map p_id _ _ H0)). cbn beta in B3. lia.
Qed.

Lemma child_row_ids_witness :
  reachable sample_db
  /\ map a_id (tbl_compensation_arrangements sample_db) = [1%Z; 2%Z]
  /\ map a_id (tbl_compensation_arrangements
                 (snd (write 2 [(160882%Z, sample_data)] sample_db)))
     = [3%Z; 4%Z]
  /\ row_ids_ok (snd (write 2 [(160882%Z, sample_data)] sample_db)).
Proof.
  assert (Hw : write 2 [(160882%Z, sample_data)] sample_db
               = (Ok tt, snd (write 2 [(160882%Z, sample_data)] sample_db)))
    by (vm_compute; reflexivity).
  split; [exact sample_db_reachable|].
  split; [vm_compute; reflexivity|]. split; [vm_compute; reflexivity|].
  exact (proj1 (@child_row_ids 2 160882%Z sample_data sample_db _
                  sample_db_reachable Hw)).
Defined.

(** * Client types: the markers a category depends on *)

Lemma eat_exact_cs fl l s s' :
  ignorecase fl = false -> eat fl l s = Some s' -> s = l ++ s'.
Proof.
  intro Hf. revert s; induction l as [|a l IH]; intros [|c s]; cbn [eat];
    try discriminate; try (intro H; inversion H; reflexivity).
  unfold chr_eq. rewrite Hf.
  destruct (Ascii.eqb a c) eqn:E; [|discriminate].
  apply Ascii.eqb_eq in E. subst. intro H. cbn. now rewrite (IH _ H).
Qed.

Lemma drop_prefix_self l y : drop_prefix l (l ++ y) = Some y.
Proof.
  induction l as [|a l IH]; cbn [app drop_prefix].
  - now destruct y.
  - now rewrite Ascii.eqb_refl.
Qed.

Lemma contains_intro l x y : contains l (x ++ l ++ y) = true.
Proof.
  apply contains_app_r.
  destruct (l ++ y) as [|c t] eqn:E.
  - destruct l; [reflexivity | discriminate].
  - rewrite contains_cons, <- E, drop_prefix_self. reflexivity.
Qed.

(** A pattern [a(.*?)b] with literal [a] and [b], searched with case
    respected, matches only in a text that holds both. *)
Lemma search_between fl a b s m :
  ignorecase fl = false ->
  search fl (seq [Lit a; Grp 1 (star_lazy CAny); Lit b]) s = Some m ->
  contains a s = true /\ contains b s = true.
Proof.
  intros Hf H. apply search_suffix in H as (pre & s0 & s' & -> & H).
  unfold match_here in H. cbn [seq run star_lazy] in H.
  destruct (eat fl a s0) as [s1|] eqn:E1; [|discriminate].
  apply eat_exact_cs in E1; [|exact Hf]. subst s0.
  apply rep_lazy_inv in H as (w & s2 & -> & _ & _ & H).
  destruct (eat fl b s2) as [s3|] eqn:E2; [|discriminate].
  apply eat_exact_cs in E2; [|exact Hf]. subst s2.
  split.
  - apply contains_intro.
  - rewrite !app_assoc. rewrite <- (app_assoc _ b s3).
    apply contains_intro.
Qed.

(** X28. A category other than the last is read only from a span that
    its own marker opens and the marker of the next category closes:
    when the mapping has an entry for it, the section holds both
    markers.  A section in which the next marker is missing therefore
    gives no entry for the category, whatever follows its own marker. *)
Theorem category_needs_next_marker (text section : str) (d : dict Z)
        (l1 : list (ascii * str)) (letter : ascii) (label : str)
        (next : ascii) (nlabel : str) (l2 : list (ascii * str)) :
  client_section_of text = Some section ->
  _extract_client_types text = Ok d ->
  client_mapping = l1 ++ (letter, label) :: (next, nlabel) :: l2 ->
  In label (keys d) ->
  contains (py "(" ++ [letter] ++ py ")") section = true
  /\ contains (py "(" ++ [next] ++ py ")") section = true.
Proof.
  intros Hs Hd Hmap Hin. unfold _extract_client_types in Hd.
  rewrite Hs in Hd.
  destruct (client_loop_keys _ _ _ Hd label Hin) as [[]|T].
  destruct T as (l1' & letter' & label' & l2' & m & v & Hmap' & Hm & _ & _
                 & Hk).
  assert (I1 : In (letter, label) client_mapping)
    by (rewrite Hmap; apply in_or_app; right; now left).
  assert (I2 : In (letter', label') client_mapping)
    by (rewrite Hmap'; apply in_or_app; right; now left).
  assert (Hl : label = label').
  { apply (@category_label_inj letter label [] letter' label' (group 1 m)
             I1 I2).
    rewrite <- Hk. unfold category_label.
    destruct (Ascii.eqb letter "n"); reflexivity. }
  subst label'.
  destruct (@unique_position _ _ client_mapping l1 letter label
              ((next, nlabel) :: l2) l1' letter' l2'
              client_labels_distinct Hmap Hmap') as (_ & <- & <-).
  cbn [next_letter] in Hm.
  apply (@search_between DOTALL (py "(" ++ [letter] ++ py ")")
           (py "(" ++ [next] ++ py ")") section m eq_refl).
  exact Hm.
Qed.

Lemma category_needs_next_marker_witness :
  client_section_of clients_text = Some clients_section
  /\ _extract_client_types clients_text = Ok [(py "Individuals", 5000000%Z)]
  /\ contains (py "(a)") clients_section = true
  /\ contains (py "(b)") clients_section = true.
Proof.
  assert (H1 : client_section_of clients_text = Some clients_section)
    by (vm_compute; reflexivity).
  assert (H2 : _extract_client_types clients_text
               = Ok [(py "Individuals", 5000000%Z)])
    by (vm_compute; reflexivity).
  split; [exact H1|]. split; [exact H2|].
  apply (@category_needs_next_marker clients_text clients_section
           [(py "Individuals", 5000000%Z)] [] "a"%char (py "Individuals")
           "b"%char (py "High Net Worth Individuals")
           (tl (tl client_mapping)) H1 H2 eq_refl).
  now left.
Defined.

(** * The pipeline: the row of a firm *)

Lemma write_all_firm_row now items d d' crd data :
  write_all now items d = (Ok tt, d') ->
  NoDup (map fst items) -> primary_key_ok d -> In (crd, data) items ->
  exists d0, primary_key_ok d0
             /\ firm_rows d' crd = firm_rows (written now crd data d0) crd.
Proof.
  revert d. induction items as [|[c0 x0] rest IH]; intros d H Hn Hpk Hin;
    [destruct Hin|].
  cbn [write_all] in H. cbn [map fst] in Hn.
  inversion Hn as [|? ? Hc Hrest]; subst.
  destruct (apply_all (stmts_of now c0 x0) d) as [[[]|e] d1] eqn:E;
    [|discriminate].
  apply stmts_of_ok in E as [W ->].
  destruct Hin as [Heq|Hin].
  - inversion Heq; subst c0 x0. exists d. split; [exact Hpk|].
    destruct (@write_all_others now rest (written now crd data d) crd Hc)
      as (H1 & _).
    rewrite H in H1. exact H1.
  - apply (IH _ H Hrest); [now apply written_primary_key | exact Hin].
Qed.

Lemma upserted_row_fields now new rows :
  f_sec_nb (upserted_row now new rows) = f_sec_nb new
  /\ f_business_name (upserted_row now new rows) = f_business_name new
  /\ f_full_legal_name (upserted_row now new rows) = f_full_legal_name new
  /\ f_address (upserted_row now new rows) = f_address new
  /\ f_phone_number (upserted_row now new rows) = f_phone_number new
  /\ f_employee_count (upserted_row now new rows) = f_employee_count new
  /\ f_signatory (upserted_row now new rows) = f_signatory new
  /\ (f_updated_at new = now ->
      f_updated_at (upserted_row now new rows) = now).
Proof.
  unfold upserted_row. destruct (filter _ rows); cbn; repeat split; trivial.
Qed.

(** X29. A firm is stored under the CRD number that was asked for, not
    the one read in its text: when the extract-and-store step returns,
    every firm of the batch has exactly one row in [firms], under the
    requested key, carrying the seven scalar fields as [transform]
    assembled them and the time of the write as [updated_at]. *)
Theorem stored_scalars_as_extracted (now : timestamp) (read : files)
        (pdf_paths : list Z) (d d' : database) (crd : Z) :
  reachable d ->
  extract_and_store now read pdf_paths d = (Ok tt, d') ->
  In crd pdf_paths ->
  exists r row,
    transform (fst (read crd)) (snd (read crd)) = Ok r
    /\ firm_rows d' crd = [row]
    /\ f_firm_crd_nb row = crd
    /\ f_sec_nb row = PdfTransformer.sec_nb r
    /\ f_business_name row = PdfTransformer.business_name r
    /\ f_full_legal_name row = PdfTransformer.full_legal_name r
    /\ f_address row = PdfTransformer.address r
    /\ f_phone_number row = PdfTransformer.phone_number r
    /\ f_employee_count row = PdfTransformer.employee_count r
    /\ f_signatory row = PdfTransformer.signatory r
    /\ f_updated_at row = now.
Proof.
  unfold extract_and_store. intros R H Hin.
  destruct (transform_each read pdf_paths []) as [items|e] eqn:T;
    [|discriminate].
  apply transform_each_ok in T as (Hn & Hr & Hk);
    [|constructor | intros k r []].
  assert (Hc : In crd (map fst items)) by (apply Hk; now left).
  apply in_map_iff in Hc as ([k r] & Ek & Hitem). cbn [fst] in Ek. subst k.
  rewrite write_spec in H.
  apply write_all_firm_row with (crd := crd) (data := of_record r) in H
    as (d0 & Hpk & Hrow).
  2:{ now rewrite map_map. }
  2:{ now apply reachable_primary_key. }
  2:{ apply in_map_iff. exists (crd, r). now split. }
  rewrite written_firm_row in Hrow by exact Hpk.
  exists r, (upserted_row now (new_row now crd (of_record r)) (tbl_firms d0)).
  split; [exact (Hr _ _ Hitem)|]. split; [exact Hrow|].
  destruct (upserted_row_In now (new_row now crd (of_record r))
                            (tbl_firms d0)) as [_ Hkey].
  destruct (upserted_row_fields now (new_row now crd (of_record r))
                                (tbl_firms d0))
    as (F1 & F2 & F3 & F4 & F5 & F6 & F7 & F8).
  rewrite Hkey, F1, F2, F3, F4, F5, F6, F7, F8 by reflexivity.
  repeat split.
Qed.

Definition misfiled : files :=
  fun crd => (filing_text, [filing_page]).

Lemma stored_scalars_as_extracted_witness :
  reachable empty_db /\ In 7%Z [7%Z]
  /\ exists d',
       extract_and_store 1 misfiled [7%Z] empty_db = (Ok tt, d')
       /\ exists r row,
            transform (fst (misfiled 7%Z)) (snd (misfiled 7%Z)) = Ok r
            /\ PdfTransformer.firm_crd_nb r = Some 160882%Z
            /\ firm_rows d' 7 = [row]
            /\ f_firm_crd_nb row = 7%Z
            /\ f_sec_nb row = PdfTransformer.sec_nb r.
Proof.
  assert (H1 : In 7%Z [7%Z]) by now left.
  assert (H2 : extract_and_store 1 misfiled [7%Z] empty_db
               = (Ok tt, snd (extract_and_store 1 misfiled [7%Z] empty_db)))
    by (vm_compute; reflexivity).
  split; [exact reach_setup|]. split; [exact H1|].
  eexists. split; [exact H2|].
  destruct (@stored_scalars_as_extracted 1 misfiled [7%Z] empty_db _ 7%Z
              reach_setup H2 H1)
    as (r & row & Ht & Hrow & Hk & Hs & _).
  exists r, row. split; [exact Ht|]. split.
  - assert (E : Ok r = transform (fst (misfiled 7%Z)) (snd (misfiled 7%Z)))
      by now rewrite Ht.
    vm_compute in E. inversion E; subst r. reflexivity.
  - split; [exact Hrow|]. split; [exact Hk | exact Hs].
Defined.
